(** * Heightfield water simulation of [sketch.js]

    A shallow embedding of the water-sphere sketch: the double-buffered
    heightfield ([heightfieldCurrent], [heightfieldPrevious]), the
    per-frame update [updateHeightfield], the angle-to-index conversion and
    the impulse injection [addHeightfieldImpulse]; then the rest of the
    sketch around that core: the mesh and the caustic lines computed by
    [drawHeightfieldSphere] and [drawCausticsOnSphere], the frame function
    [draw], the touch and mouse handlers with [handleInteraction], [setup]
    and [windowResized].

    Number model.  JavaScript numbers that hold grid indices are integers
    and are modelled in [Z]; every other number (cell values, angles,
    interpolation parameters) is modelled as an exact rational in [Q], so
    rounding of IEEE doubles is not part of that model.  The constant [PI]
    is the rational value of the double [Math.PI].  A cell of the model is
    always a number: the infinities and NaN that a double can overflow to
    are outside it.  The two computations in which rounding decides an
    index, the conversion of an angle to a cell and the interpolation of a
    drag line, are given a second time in binary64 arithmetic (module
    [Double]).

    Array model.  A JavaScript array is a [list]; a read or write that
    leaves the rectangular grid (a [TypeError] on an undefined column, an
    [undefined] entering the arithmetic, an assignment that would leave a
    hole) is the result [None].  The two buffers are distinct array
    objects; module [Refs] keeps them in a store, by reference, and relates
    that to the plain values used everywhere else.

    Library functions.  [Math.sin], [Math.cos], [Math.sqrt], [Math.acos],
    [Math.atan2] and [Math.hypot] have no rational counterpart; the
    rendering and the handlers take them as parameters, and a theorem
    holds for every choice of them unless it states what it needs (the
    range of [atan2], a bound on [sqrt]).  What the sketch hands to the
    canvas, the speaker and the vibration motor is recorded as data: the
    [fill] and [vertex] calls of a frame, the list of [Feedback]
    requests. *)

From Stdlib Require Import ZArith QArith Qround Qminmax Qabs Lia Lqa.
From Stdlib Require Import Uint63 PrimFloat FloatOps SpecFloat.
From stdpp Require Import base list option.

Open Scope Z_scope.

(** ** JavaScript arrays *)

Module JsArray.

(** [a[i]] for an integer-valued index. *)
Definition get {A : Type} (a : list A) (i : Z) : option A :=
  if i <? 0 then None else a !! Z.to_nat i.

(** [a[i] = v]: overwrites in range, appends at [i = a.length]; an index
    further out would leave holes and a negative one would not address an
    element at all. *)
Definition set {A : Type} (a : list A) (i : Z) (v : A) : option (list A) :=
  if i <? 0 then None
  else if (Z.to_nat i <? length a)%nat then Some (<[Z.to_nat i := v]> a)
  else if (Z.to_nat i =? length a)%nat then Some (a ++ [v])
  else None.

End JsArray.

(** ** Counted loops *)

(** [forLoop n i body s]: [n] iterations of [body], the counter starting at
    [i] and incremented after each one; a failing iteration aborts. *)
Fixpoint forLoop {St : Type} (n : nat) (i : Z) (body : Z → St → option St) (s : St)
  : option St :=
  match n with
  | O => Some s
  | S n' => s' ← body i s; forLoop n' (i + 1) body s'
  end.

(** [for (let i = lo; i < hi; i++) body] *)
Definition forLt {St : Type} (lo hi : Z) (body : Z → St → option St) (s : St)
  : option St :=
  forLoop (Z.to_nat (hi - lo)) lo body s.

(** [for (let i = lo; i <= hi; i++) body] *)
Definition forLe {St : Type} (lo hi : Z) (body : Z → St → option St) (s : St)
  : option St :=
  forLt lo (hi + 1) body s.

(** ** p5.js helpers *)

(** [constrain(n, low, high)] is [Math.max(Math.min(n, high), low)]. *)
Definition constrain (n low high : Z) : Z := Z.max (Z.min n high) low.

(** [lerp(start, stop, amt)] is [amt * (stop - start) + start]. *)
Definition lerp (start stop amt : Q) : Q := (amt * (stop - start) + start)%Q.

(** [floor] on the rational model. *)
Definition floor (x : Q) : Z := Qfloor x.

(** [Math.PI], the double [0x1.921fb54442d18p+1], as a rational. *)
Definition PI : Q := (884279719003555 # 281474976710656)%Q.
Definition TWO_PI : Q := (PI * 2)%Q.

(** ** Grids and program state *)

(** A buffer is an array of columns, each an array of cell values. *)
Abbreviation Grid := (list (list Q)).

(** [g[i][j]] *)
Definition getCell (g : Grid) (i j : Z) : option Q :=
  col ← JsArray.get g i; JsArray.get col j.

(** [g[i][j] = v]: the column object [g[i]] is updated in place. *)
Definition setCell (g : Grid) (i j : Z) (v : Q) : option Grid :=
  col ← JsArray.get g i;
  col' ← JsArray.set col j v;
  JsArray.set g i col'.

(** The configuration globals, which the sketch never reassigns. *)
Record Config : Type := mkConfig {
  heightfieldCols : Z;
  heightfieldRows : Z;
  damping : Q
}.

(** The values the sketch declares. *)
Definition sketchConfig : Config :=
  {| heightfieldCols := 256; heightfieldRows := 128; damping := 0.985%Q |}.

(** The mutable globals the simulation core reads and writes. *)
Record State : Type := mkState {
  heightfieldCurrent : Grid;
  heightfieldPrevious : Grid;
  lastDrawTheta : Q;
  lastDrawPhi : Q
}.

(** The globals as declared at load time. *)
Definition initialState : State :=
  {| heightfieldCurrent := []; heightfieldPrevious := [];
     lastDrawTheta := 0%Q; lastDrawPhi := 0%Q |}.

Section Sketch.

Variable cfg : Config.

Let cols : Z := heightfieldCols cfg.
Let rows : Z := heightfieldRows cfg.

(** *** [setup], heightfield part (lines 37-45) *)

Definition setup (st : State) : option State :=
  '(cur, prev) ←
    forLt 0 cols (λ i '(cur, prev),
      cur ← JsArray.set cur i [];
      prev ← JsArray.set prev i [];
      forLt 0 rows (λ j '(cur, prev),
        cur ← setCell cur i j 0%Q;
        prev ← setCell prev i j 0%Q;
        Some (cur, prev)) (cur, prev))
    (heightfieldCurrent st, heightfieldPrevious st);
  Some {| heightfieldCurrent := cur; heightfieldPrevious := prev;
          lastDrawTheta := lastDrawTheta st; lastDrawPhi := lastDrawPhi st |}.

(** *** [updateHeightfield] (lines 336-374) *)

(** The fresh zero buffer (lines 339-345). *)
Definition newBuffer : option Grid :=
  forLt 0 cols (λ i new,
    new ← JsArray.set new i [];
    forLt 0 rows (λ j new, setCell new i j 0%Q) new) [].

(** One iteration of the inner loop (lines 350-367). *)
Definition updateCell (cur prev : Grid) (i j : Z) (new : Grid) : option Grid :=
  let iPrev := Z.rem (i - 1 + cols) cols in
  let iNext := Z.rem (i + 1) cols in
  a ← getCell prev iPrev j;
  b ← getCell prev iNext j;
  c ← getCell prev i (j - 1);
  d ← getCell prev i (j + 1);
  e ← getCell prev iPrev (j - 1);
  f ← getCell prev iPrev (j + 1);
  g ← getCell prev iNext (j - 1);
  h ← getCell prev iNext (j + 1);
  x ← getCell cur i j;
  new ← setCell new i j ((a + b + c + d + e + f + g + h) / 8 - x)%Q;
  y ← getCell new i j;
  setCell new i j (y * damping cfg)%Q.

(** The buffer a step computes (lines 339-369). *)
Definition steppedBuffer (cur prev : Grid) : option Grid :=
  new ← newBuffer;
  forLt 0 cols (λ i new,
    forLt 1 (rows - 1) (λ j new, updateCell cur prev i j new) new) new.

Definition updateHeightfield (st : State) : option State :=
  new ← steppedBuffer (heightfieldCurrent st) (heightfieldPrevious st);
  Some {| heightfieldCurrent := new;
          heightfieldPrevious := heightfieldCurrent st;
          lastDrawTheta := lastDrawTheta st; lastDrawPhi := lastDrawPhi st |}.

(** *** Angle to index (lines 149-155 and 493-500) *)

(** The two wrap-around statements [if (k < 0) k += cols;
    if (k >= cols) k -= cols]. *)
Definition wrapTheta (k : Z) : Z :=
  let k := if k <? 0 then k + cols else k in
  if cols <=? k then k - cols else k.

Definition thetaIndexOf (theta : Q) : Z :=
  wrapTheta (floor ((theta / TWO_PI) * inject_Z cols)%Q).

(** Row index for impulse writes, kept off the boundary rows. *)
Definition phiIndexOf (phi : Q) : Z :=
  constrain (floor ((phi / PI) * inject_Z rows)%Q) 1 (rows - 2).

(** Row index used when the sphere is drawn. *)
Definition phiIndexDrawn (phi : Q) : Z :=
  constrain (floor ((phi / PI) * inject_Z rows)%Q) 0 (rows - 1).

(** *** [addHeightfieldImpulse] (lines 492-557) *)

Definition impulseStrength : Q := 400%Q.

(** The neighbour loops (lines 530-537 and 544-551), which differ only in
    the value written. *)
Definition writeNeighbours (ti pi : Z) (v : Q) (prev : Grid) : option Grid :=
  forLe (-1) 1 (λ di prev,
    forLe (-1) 1 (λ dj prev,
      let nti := Z.rem (ti + di + cols) cols in
      let npi := constrain (pi + dj) 1 (rows - 2) in
      if (di =? 0) && (dj =? 0) then Some prev
      else setCell prev nti npi v) prev) prev.

(** The single point impulse (lines 540-551). *)
Definition pointImpulse (thetaIndex phiIndex : Z) (prev : Grid) : option Grid :=
  prev ← setCell prev thetaIndex phiIndex impulseStrength;
  writeNeighbours thetaIndex phiIndex (impulseStrength * 0.7)%Q prev.

(** [steps] of the drag line (line 517). *)
Definition pathSteps (lastThetaIndex lastPhiIndex thetaIndex phiIndex : Z) : Z :=
  Z.max (Z.abs (thetaIndex - lastThetaIndex)) (Z.abs (phiIndex - lastPhiIndex)).

(** The interpolated cell of iteration [s] (lines 519-525). *)
Definition pathCell (lastThetaIndex lastPhiIndex thetaIndex phiIndex : Z)
    (s : Z) : Z * Z :=
  let steps := pathSteps lastThetaIndex lastPhiIndex thetaIndex phiIndex in
  let t := (inject_Z s / inject_Z (Z.max steps 1))%Q in
  let ti := floor (lerp (inject_Z lastThetaIndex) (inject_Z thetaIndex) t) in
  let pi := floor (lerp (inject_Z lastPhiIndex) (inject_Z phiIndex) t) in
  (wrapTheta ti, constrain pi 1 (rows - 2)).

(** The drag line (lines 516-538). *)
Definition pathImpulse (lastThetaIndex lastPhiIndex thetaIndex phiIndex : Z)
    (prev : Grid) : option Grid :=
  let steps := pathSteps lastThetaIndex lastPhiIndex thetaIndex phiIndex in
  forLe 0 steps (λ s prev,
    let '(ti, pi) := pathCell lastThetaIndex lastPhiIndex thetaIndex phiIndex s in
    prev ← setCell prev ti pi impulseStrength;
    writeNeighbours ti pi (impulseStrength * 0.6)%Q prev) prev.

(** The writes of one call into the previous buffer (lines 493-552). *)
Definition impulsedBuffer (theta phi : Q) (isFirstTouch : bool)
    (lastTheta lastPhi : Q) (prev : Grid) : option Grid :=
  let thetaIndex := thetaIndexOf theta in
  let phiIndex := phiIndexOf phi in
  if negb isFirstTouch then
    let lastThetaIndex := thetaIndexOf lastTheta in
    let lastPhiIndex := phiIndexOf lastPhi in
    pathImpulse lastThetaIndex lastPhiIndex thetaIndex phiIndex prev
  else pointImpulse thetaIndex phiIndex prev.

Definition addHeightfieldImpulse (theta phi : Q) (isFirstTouch : bool)
    (st : State) : option State :=
  prev ← impulsedBuffer theta phi isFirstTouch
            (lastDrawTheta st) (lastDrawPhi st) (heightfieldPrevious st);
  Some {| heightfieldCurrent := heightfieldCurrent st;
          heightfieldPrevious := prev;
          lastDrawTheta := theta; lastDrawPhi := phi |}.

End Sketch.

(** ** Well-formed grids *)

(** A grid of the configured shape: [cols] columns of [rows] cells. *)
Definition wfGrid (cfg : Config) (g : Grid) : Prop :=
  length g = Z.to_nat (heightfieldCols cfg) ∧
  Forall (λ col : list Q, length col = Z.to_nat (heightfieldRows cfg)) g.

Definition wfState (cfg : Config) (st : State) : Prop :=
  wfGrid cfg (heightfieldCurrent st) ∧ wfGrid cfg (heightfieldPrevious st).

(** The value of a cell that exists. *)
Definition cellAt (g : Grid) (i j : Z) : Q := default 0%Q (getCell g i j).

(** The grid of zeros. *)
Definition zeroGrid (cfg : Config) : Grid :=
  replicate (Z.to_nat (heightfieldCols cfg))
    (replicate (Z.to_nat (heightfieldRows cfg)) 0%Q).

(** ** The update rule as the specification words it *)

Section WaveRule.

Variable cfg : Config.

Let cols : Z := heightfieldCols cfg.

(** The sum of the eight neighbours of [(i, j)] in [prev]: columns [i - 1]
    and [i + 1] taken modulo [cols], rows [j - 1] and [j + 1] taken as
    they are. *)
Definition neighbourSum (prev : Grid) (i j : Z) : Q :=
  (cellAt prev ((i - 1) mod cols) j + cellAt prev ((i + 1) mod cols) j
   + cellAt prev i (j - 1) + cellAt prev i (j + 1)
   + cellAt prev ((i - 1) mod cols) (j - 1)
   + cellAt prev ((i - 1) mod cols) (j + 1)
   + cellAt prev ((i + 1) mod cols) (j - 1)
   + cellAt prev ((i + 1) mod cols) (j + 1))%Q.

(** [newValue = damping * (neighborSum / 8 - current[col][row])] *)
Definition waveValue (cur prev : Grid) (i j : Z) : Q :=
  (damping cfg * (neighbourSum prev i j / 8 - cellAt cur i j))%Q.

(** The cells of the buffer a step computes: the rule on interior rows,
    zero on the two boundary rows. *)
Definition steppedCell (cur prev : Grid) (i j : Z) : Q :=
  if decide (1 ≤ j ≤ heightfieldRows cfg - 2)
  then waveValue cur prev i j else 0%Q.

End WaveRule.

(** ** Impulse footprints *)

(** The offsets [(di, dj)] the neighbour loops write, in loop order. *)
Definition offsets : list (Z * Z) :=
  [(-1, -1); (-1, 0); (-1, 1); (0, -1); (0, 1); (1, -1); (1, 0); (1, 1)].

(** The cells the neighbour loops write around [(ti, pi)]: column wrapped,
    row clamped. *)
Definition neighbourTargets (cfg : Config) (ti pi : Z) : list (Z * Z) :=
  (λ '(di, dj),
     (Z.rem (ti + di + heightfieldCols cfg) (heightfieldCols cfg),
      constrain (pi + dj) 1 (heightfieldRows cfg - 2))) <$> offsets.

(** A cell off the two boundary rows. *)
Definition interiorCell (cfg : Config) (c : Z * Z) : Prop :=
  0 ≤ c.1 < heightfieldCols cfg ∧ 1 ≤ c.2 ≤ heightfieldRows cfg - 2.

(** Writing one value into a list of cells, in order. *)
Fixpoint writeAll (cells : list (Z * Z)) (v : Q) (g : Grid) : option Grid :=
  match cells with
  | [] => Some g
  | (i, j) :: cells' => g' ← setCell g i j v; writeAll cells' v g'
  end.

(** ** Runs of the sketch *)

(** The calls that reach the simulation core: [addHeightfieldImpulse] from
    the input handlers and [updateHeightfield] from [draw]. *)
Inductive Event : Type :=
  | Impulse (theta phi : Q) (isFirstTouch : bool)
  | Frame.

Definition step (cfg : Config) (e : Event) (st : State) : option State :=
  match e with
  | Impulse theta phi isFirstTouch =>
      addHeightfieldImpulse cfg theta phi isFirstTouch st
  | Frame => updateHeightfield cfg st
  end.

Fixpoint run (cfg : Config) (es : list Event) (st : State) : option State :=
  match es with
  | [] => Some st
  | e :: es' => st' ← step cfg e st; run cfg es' st'
  end.

(** The raw column index of an angle needs at most one wrap-around. *)
Definition validTheta (cfg : Config) (theta : Q) : Prop :=
  - heightfieldCols cfg ≤ floor ((theta / TWO_PI) * inject_Z (heightfieldCols cfg))%Q
    < 2 * heightfieldCols cfg.

Definition validEvent (cfg : Config) (e : Event) : Prop :=
  match e with
  | Impulse theta _ _ => validTheta cfg theta
  | Frame => True
  end.

(** Rows [0] and [rows - 1] of a buffer hold zero. *)
Definition boundaryZero (cfg : Config) (g : Grid) : Prop :=
  ∀ col, 0 ≤ col < heightfieldCols cfg →
    getCell g col 0 = Some 0%Q ∧
    getCell g col (heightfieldRows cfg - 1) = Some 0%Q.

(** [g'] is a well-formed grid that differs from [g] on interior rows
    only. *)
Definition interiorUpdate (cfg : Config) (g g' : Grid) : Prop :=
  wfGrid cfg g' ∧
  ∀ i j, j < 1 ∨ heightfieldRows cfg - 2 < j → getCell g' i j = getCell g i j.

(** The state [setup] leaves behind. *)
Definition zeroState (cfg : Config) : State :=
  {| heightfieldCurrent := zeroGrid cfg; heightfieldPrevious := zeroGrid cfg;
     lastDrawTheta := 0%Q; lastDrawPhi := 0%Q |}.

(** [clamp(x, lo, hi)] as the specification uses it. *)
Definition clamp (x lo hi : Z) : Z :=
  if x <? lo then lo else if hi <? x then hi else x.

(** A loop over the elements of a list. *)
Fixpoint forEach {St A : Type} (l : list A) (body : A → St → option St) (s : St)
  : option St :=
  match l with
  | [] => Some s
  | x :: l' => s' ← body x s; forEach l' body s'
  end.

(** The centre cells of a drag line, in the order the loop visits them. *)
Definition pathCentres (cfg : Config) (lastThetaIndex lastPhiIndex thetaIndex phiIndex : Z)
  : list (Z * Z) :=
  pathCell cfg lastThetaIndex lastPhiIndex thetaIndex phiIndex
    <$> seqZ 0 (pathSteps lastThetaIndex lastPhiIndex thetaIndex phiIndex + 1).

(** What one iteration of the drag loop does at its centre cell. *)
Definition pathStamp (cfg : Config) (c : Z * Z) (prev : Grid) : option Grid :=
  prev ← setCell prev c.1 c.2 impulseStrength;
  writeNeighbours cfg c.1 c.2 (impulseStrength * 0.6)%Q prev.

(** ** What a drag line leaves behind *)

(** Cell [c] is [c'] or one of the cells the neighbour loop around [c']
    writes. *)
Definition linked (cfg : Config) (c c' : Z * Z) : Prop :=
  c = c' ∨ c ∈ neighbourTargets cfg c'.1 c'.2.

(** Cell [x] is a centre of [cs] or written by the neighbour loop around
    one. *)
Definition touched (cfg : Config) (cs : list (Z * Z)) (x : Z * Z) : Prop :=
  ∃ c, c ∈ cs ∧ (x = c ∨ x ∈ neighbourTargets cfg c.1 c.2).

(** The buffer [g'] after stamping the centres [cs] and then [c] onto [g]:
    the neighbour value around [c], the full strength at [c] unless its own
    neighbour loop hits it, the neighbour value wherever the earlier
    centres touched, and the old value elsewhere. *)
Definition stampedBy (cfg : Config) (cs : list (Z * Z)) (c : Z * Z)
    (g g' : Grid) : Prop :=
  ∀ x : Z * Z,
    (x ∈ neighbourTargets cfg c.1 c.2 →
     getCell g' x.1 x.2 = Some (impulseStrength * 0.6)%Q) ∧
    (x ∉ neighbourTargets cfg c.1 c.2 → x = c →
     getCell g' x.1 x.2 = Some impulseStrength) ∧
    (x ∉ neighbourTargets cfg c.1 c.2 → x ≠ c → touched cfg cs x →
     getCell g' x.1 x.2 = Some (impulseStrength * 0.6)%Q) ∧
    (x ∉ neighbourTargets cfg c.1 c.2 → x ≠ c → ¬ touched cfg cs x →
     getCell g' x.1 x.2 = getCell g x.1 x.2).

(** ** The drag line in binary64 arithmetic *)

(** The interpolation of lines 517-525 on IEEE doubles, as JavaScript
    computes it.  Index differences, [abs], [max] and the wrap and clamp
    statements act on small integers, on which doubles are exact. *)
Module Double.

(** An index as a double. *)
Definition ofZ (z : Z) : float :=
  match z with
  | Z0 => 0%float
  | Zpos _ => of_uint63 (Uint63.of_Z z)
  | Zneg _ => (- of_uint63 (Uint63.of_Z (- z)))%float
  end.

(** [Math.floor] of a finite double [± m * 2 ^ e]; shifting right rounds
    towards minus infinity. *)
Definition floor (x : float) : option Z :=
  match Prim2SF x with
  | S754_zero _ => Some 0
  | S754_finite s m e =>
      let n := if s then Z.neg m else Z.pos m in
      Some (if 0 <=? e then Z.shiftl n e else Z.shiftr n (- e))
  | S754_infinity _ | S754_nan => None
  end.

(** [lerp(start, stop, amt)] is [amt * (stop - start) + start]. *)
Definition lerp (start stop amt : float) : float :=
  (amt * (stop - start) + start)%float.

(** The interpolated cell of iteration [s] (lines 519-525). *)
Definition pathCell (cfg : Config)
    (lastThetaIndex lastPhiIndex thetaIndex phiIndex : Z) (s : Z)
  : option (Z * Z) :=
  let steps := pathSteps lastThetaIndex lastPhiIndex thetaIndex phiIndex in
  let t := (ofZ s / ofZ (Z.max steps 1))%float in
  ti ← floor (lerp (ofZ lastThetaIndex) (ofZ thetaIndex) t);
  pi ← floor (lerp (ofZ lastPhiIndex) (ofZ phiIndex) t);
  Some (wrapTheta cfg ti, constrain pi 1 (heightfieldRows cfg - 2)).

(** The centre cells of a drag line, in the order the loop visits them. *)
Definition pathCentres (cfg : Config)
    (lastThetaIndex lastPhiIndex thetaIndex phiIndex : Z)
  : list (option (Z * Z)) :=
  pathCell cfg lastThetaIndex lastPhiIndex thetaIndex phiIndex
    <$> seqZ 0 (pathSteps lastThetaIndex lastPhiIndex thetaIndex phiIndex + 1).

(** *** Angle to index in binary64 (lines 494-500) *)

(** [Math.PI], and [TWO_PI] as p5.js defines it. *)
Definition PI : float := 0x1.921fb54442d18p+1%float.
Definition TWO_PI : float := (PI * 2)%float.

(** [floor((angle / period) * n)], each operation rounded as JavaScript
    rounds it; [None] when the product is NaN or infinite. *)
Definition rawIndex (angle period : float) (n : Z) : option Z :=
  floor (angle / period * ofZ n).

(** The column index of lines 494 and 498-499.  A NaN or an infinity stays
    what it is under the two wrap-around statements and names no column:
    [None].  The wrap acts on the integer; it is the double's own for the
    integers a double holds exactly. *)
Definition thetaIndexOf (cfg : Config) (theta : float) : option Z :=
  wrapTheta cfg <$> rawIndex theta TWO_PI (heightfieldCols cfg).

(** The row index of lines 495 and 500.  [constrain] takes an infinity to
    the bound on its side; a NaN stays NaN and names no row: [None]. *)
Definition phiIndexOf (cfg : Config) (phi : float) : option Z :=
  match Prim2SF (phi / PI * ofZ (heightfieldRows cfg)) with
  | S754_nan => None
  | S754_infinity negative =>
      Some (if negative then 1 else Z.max (heightfieldRows cfg - 2) 1)
  | _ => (λ k, constrain k 1 (heightfieldRows cfg - 2))
           <$> rawIndex phi PI (heightfieldRows cfg)
  end.

End Double.

(** ** The buffers as objects *)

(** The two globals [heightfieldCurrent] and [heightfieldPrevious] hold
    references to array objects.  A buffer object owns its column arrays:
    every column is created for one buffer and no reference to it is ever
    stored elsewhere, so a buffer is kept in the store as one value. *)
Module Refs.

Record Memory : Type := mkMemory {
  objects : list Grid;
  currentRef : nat;
  previousRef : nat;
  drawTheta : Q;
  drawPhi : Q
}.

(** The state the globals denote. *)
Definition view (m : Memory) : option State :=
  cur ← objects m !! currentRef m;
  prev ← objects m !! previousRef m;
  Some {| heightfieldCurrent := cur; heightfieldPrevious := prev;
          lastDrawTheta := drawTheta m; lastDrawPhi := drawPhi m |}.

(** [updateHeightfield]: [newHeightfield] is a fresh object; lines 372-373
    reassign the two references. *)
Definition updateHeightfield (cfg : Config) (m : Memory) : option Memory :=
  cur ← objects m !! currentRef m;
  prev ← objects m !! previousRef m;
  new ← steppedBuffer cfg cur prev;
  Some {| objects := objects m ++ [new];
          currentRef := length (objects m);
          previousRef := currentRef m;
          drawTheta := drawTheta m; drawPhi := drawPhi m |}.

(** [addHeightfieldImpulse]: the object [heightfieldPrevious] refers to is
    written in place. *)
Definition addHeightfieldImpulse (cfg : Config) (theta phi : Q)
    (isFirstTouch : bool) (m : Memory) : option Memory :=
  prev ← objects m !! previousRef m;
  prev' ← impulsedBuffer cfg theta phi isFirstTouch (drawTheta m) (drawPhi m) prev;
  Some {| objects := <[previousRef m := prev']> (objects m);
          currentRef := currentRef m;
          previousRef := previousRef m;
          drawTheta := theta; drawPhi := phi |}.

End Refs.

(** ** Energy *)

(** The sum of [f k] over the [n] integers from [lo] on. *)
Fixpoint sumZ (f : Z → Q) (lo : Z) (n : nat) : Q :=
  match n with
  | O => 0%Q
  | S n' => (f lo + sumZ f (lo + 1) n')%Q
  end.

(** The sum of [f i j] over the cells of a grid. *)
Definition sumGrid (cfg : Config) (f : Z → Z → Q) : Q :=
  sumZ (λ i, sumZ (f i) 0 (Z.to_nat (heightfieldRows cfg)))
       0 (Z.to_nat (heightfieldCols cfg)).

(** The squared energy of a buffer: the sum of the squares of its cells. *)
Definition energy (cfg : Config) (g : Grid) : Q :=
  sumGrid cfg (λ i j, cellAt g i j * cellAt g i j)%Q.

(** The total squared energy of the grid, over both buffers. *)
Definition totalEnergy (cfg : Config) (st : State) : Q :=
  (energy cfg (heightfieldCurrent st) + energy cfg (heightfieldPrevious st))%Q.

(** What every reachable state satisfies. *)
Definition reachableInv (cfg : Config) (st : State) : Prop :=
  wfState cfg st ∧
  boundaryZero cfg (heightfieldCurrent st) ∧
  boundaryZero cfg (heightfieldPrevious st) ∧
  validTheta cfg (lastDrawTheta st).

(** The three column maps of the update rule: one column back, the same
    column, one column on. *)
Definition columnShift (cfg : Config) (rot : Z → Z) : Prop :=
  (∀ i, rot i = (i - 1) mod heightfieldCols cfg) ∨
  (∀ i, 0 ≤ i < heightfieldCols cfg → rot i = i) ∨
  (∀ i, rot i = (i + 1) mod heightfieldCols cfg).

(** ** Example configurations and states *)

(** A small grid with the damping of the sketch. *)
Definition smallConfig : Config :=
  {| heightfieldCols := 8; heightfieldRows := 5; damping := 0.985%Q |}.

(** Still water of the small grid after one tap at [(PI, PI / 2)]. *)
Definition tappedWater : State :=
  Eval vm_compute in
    default (zeroState smallConfig)
      (addHeightfieldImpulse smallConfig PI (PI / 2) true (zeroState smallConfig)).

(** The small grid at rest but for cell [(4, 2)] of the current buffer,
    raised to one. *)
Definition raisedCell : State :=
  {| heightfieldCurrent :=
       <[4%nat := [0; 0; 1; 0; 0]%Q]> (zeroGrid smallConfig);
     heightfieldPrevious := zeroGrid smallConfig;
     lastDrawTheta := 0%Q; lastDrawPhi := 0%Q |}.

(** Still water of the small grid, as two buffer objects. *)
Definition stillMemory : Refs.Memory :=
  {| Refs.objects := [zeroGrid smallConfig; zeroGrid smallConfig];
     Refs.currentRef := 0; Refs.previousRef := 1;
     Refs.drawTheta := 0%Q; Refs.drawPhi := 0%Q |}.

(** A tap, a frame, and a drag, as the input handlers would issue them. *)
Definition tapAndDrag : list Event :=
  [Impulse PI (PI / 2) true; Frame; Impulse (PI / 2) (PI / 3) false; Frame].

(** ** Grids that differ by a rotation of the columns *)

(** The grid whose column [i] is column [i + 1] of [g], the first column
    coming last. *)
Definition rotateColumns (g : Grid) : Grid := drop 1 g ++ take 1 g.

Definition rotateState (st : State) : State :=
  {| heightfieldCurrent := rotateColumns (heightfieldCurrent st);
     heightfieldPrevious := rotateColumns (heightfieldPrevious st);
     lastDrawTheta := lastDrawTheta st; lastDrawPhi := lastDrawPhi st |}.

(** ** Water at rest and regions of the grid *)

(** Every cell of the grid is zero. *)
Definition stillGrid (cfg : Config) (g : Grid) : Prop :=
  wfGrid cfg g ∧ ∀ i j, (cellAt g i j == 0)%Q.

(** Two states hold the same values, in both buffers, on the square of
    cells at most [r] columns (around the sphere) and [r] rows away from
    [(i, j)]. *)
Definition agreeAround (cfg : Config) (i j r : Z) (st1 st2 : State) : Prop :=
  ∀ di dj, - r ≤ di ≤ r → - r ≤ dj ≤ r →
    cellAt (heightfieldCurrent st1) ((i + di) mod heightfieldCols cfg) (j + dj)
    = cellAt (heightfieldCurrent st2) ((i + di) mod heightfieldCols cfg) (j + dj) ∧
    cellAt (heightfieldPrevious st1) ((i + di) mod heightfieldCols cfg) (j + dj)
    = cellAt (heightfieldPrevious st2) ((i + di) mod heightfieldCols cfg) (j + dj).

(** ** p5.js helpers on numbers that are no indices *)

(** [constrain(n, low, high)] is [Math.max(Math.min(n, high), low)]. *)
Definition constrainQ (n low high : Q) : Q := Qmax (Qmin n high) low.

(** [a < b] on numbers. *)
Definition Qlt_bool (a b : Q) : bool := negb (Qle_bool b a).

(** p5.Vector, with the three methods the sketch calls. *)
Module Vector.

Record t : Type := create { x : Q; y : Q; z : Q }.

(** [v.mult(n)] *)
Definition mult (v : t) (n : Q) : t :=
  {| x := x v * n; y := y v * n; z := z v * n |}%Q.

(** [v.magSq()] *)
Definition magSq (v : t) : Q := (x v * x v + y v * y v + z v * z v)%Q.

End Vector.

(** A colour as [colors.push([r, g, b, 140])] stores it. *)
Record Colour : Type := rgba { red : Q; green : Q; blue : Q; alpha : Q }.

(** The calls issued between [beginShape(TRIANGLES)] and [endShape()]. *)
Inductive DrawCall : Type :=
  | fill (c : Colour)
  | vertex (v : Vector.t).

(** What one call of [draw] puts on the canvas: the instruction text at a
    font size, or the sphere under the two rotations, as the calls of its
    triangle mesh and the line strips of the caustic pattern. *)
Inductive Picture : Type :=
  | InstructionScreen (fontSize : Q)
  | WaterScene (rotationX rotationY : Q) (sphere : list DrawCall)
      (caustics : list (list Vector.t)).

(** The calls [handleInteraction] makes to the two feedback functions.
    Their bodies (Web Audio and the Vibration API, each guarded by its own
    [try]) assign no global of the sketch. *)
Inductive Feedback : Type :=
  | playWaterSound
  | vibratePhone.

(** The globals of the sketch, with the canvas size [width], [height] that
    p5.js maintains, and the feedback calls made so far. *)
Record Sketch : Type := mkSketch {
  water : State;
  sphereRadius : Q;
  rotationX : Q;
  rotationY : Q;
  isDragging : bool;
  lastMouseX : Q;
  lastMouseY : Q;
  isDrawing : bool;
  time : Q;
  showInstructions : bool;
  width : Q;
  height : Q;
  feedback : list Feedback
}.

(** The globals as declared at load time; the canvas p5.js starts with is
    100 by 100. *)
Definition loadedSketch : Sketch :=
  {| water := initialState; sphereRadius := 200; rotationX := 0; rotationY := 0;
     isDragging := false; lastMouseX := 0; lastMouseY := 0; isDrawing := false;
     time := 0; showInstructions := true; width := 100; height := 100;
     feedback := [] |}%Q.

(** Assignments to single globals. *)
Definition setWater (st : State) (w : Sketch) : Sketch :=
  mkSketch st (sphereRadius w) (rotationX w) (rotationY w) (isDragging w)
    (lastMouseX w) (lastMouseY w) (isDrawing w) (time w) (showInstructions w)
    (width w) (height w) (feedback w).

Definition setIsDrawing (b : bool) (w : Sketch) : Sketch :=
  mkSketch (water w) (sphereRadius w) (rotationX w) (rotationY w) (isDragging w)
    (lastMouseX w) (lastMouseY w) b (time w) (showInstructions w)
    (width w) (height w) (feedback w).

Definition setIsDragging (b : bool) (w : Sketch) : Sketch :=
  mkSketch (water w) (sphereRadius w) (rotationX w) (rotationY w) b
    (lastMouseX w) (lastMouseY w) (isDrawing w) (time w) (showInstructions w)
    (width w) (height w) (feedback w).

Definition setLastMouse (mouseX mouseY : Q) (w : Sketch) : Sketch :=
  mkSketch (water w) (sphereRadius w) (rotationX w) (rotationY w) (isDragging w)
    mouseX mouseY (isDrawing w) (time w) (showInstructions w)
    (width w) (height w) (feedback w).

Definition setRotation (rx ry : Q) (w : Sketch) : Sketch :=
  mkSketch (water w) (sphereRadius w) rx ry (isDragging w)
    (lastMouseX w) (lastMouseY w) (isDrawing w) (time w) (showInstructions w)
    (width w) (height w) (feedback w).

Definition setTime (t : Q) (w : Sketch) : Sketch :=
  mkSketch (water w) (sphereRadius w) (rotationX w) (rotationY w) (isDragging w)
    (lastMouseX w) (lastMouseY w) (isDrawing w) t (showInstructions w)
    (width w) (height w) (feedback w).

Definition setShowInstructions (b : bool) (w : Sketch) : Sketch :=
  mkSketch (water w) (sphereRadius w) (rotationX w) (rotationY w) (isDragging w)
    (lastMouseX w) (lastMouseY w) (isDrawing w) (time w) b
    (width w) (height w) (feedback w).

(** [createCanvas] and [resizeCanvas] set the canvas size; the sketch
    follows either with the assignment of [sphereRadius]. *)
Definition setCanvas (windowWidth windowHeight : Q) (w : Sketch) : Sketch :=
  mkSketch (water w) (Qmin windowWidth windowHeight * 0.3)%Q
    (rotationX w) (rotationY w) (isDragging w)
    (lastMouseX w) (lastMouseY w) (isDrawing w) (time w) (showInstructions w)
    windowWidth windowHeight (feedback w).

Definition addFeedback (calls : list Feedback) (w : Sketch) : Sketch :=
  mkSketch (water w) (sphereRadius w) (rotationX w) (rotationY w) (isDragging w)
    (lastMouseX w) (lastMouseY w) (isDrawing w) (time w) (showInstructions w)
    (width w) (height w) (feedback w ++ calls).

(** What reaches the handlers of the sketch: a frame, a touch or mouse
    event with the values p5.js has put into [touches], [mouseX] and
    [mouseY], or a resize with the new window size. *)
Inductive UiEvent : Type :=
  | Draw
  | TouchStarted (touches : list (Q * Q))
  | TouchMoved (touches : list (Q * Q))
  | TouchEnded
  | MousePressed (mouseX mouseY : Q)
  | MouseDragged (mouseX mouseY : Q)
  | MouseReleased
  | WindowResized (windowWidth windowHeight : Q).

(** The mesh resolution [drawWaterSphere] asks for, and [detail] of
    [drawCausticsOnSphere]. *)
Definition sphereDetail : Z := 80.
Definition detail : Z := 20.

Section Canvas.

(** The functions of [Math] that the sketch reaches through p5.js and that
    have no rational counterpart.  Nothing is assumed of them here. *)
Variables sin cos sqrt acos : Q → Q.
Variables atan2 hypot : Q → Q → Q.

Variable cfg : Config.

Let cols : Z := heightfieldCols cfg.
Let rows : Z := heightfieldRows cfg.

(** [v.normalize()]: [len = v.mag(); if (len !== 0) v.mult(1 / len)]. *)
Definition normalize (v : Vector.t) : Vector.t :=
  let len := sqrt (Vector.magSq v) in
  if Qeq_bool len 0 then v else Vector.mult v (1 / len)%Q.

(** [dist(x1, y1, x2, y2)] is [hypot(x2 - x1, y2 - y1)]. *)
Definition dist (x1 y1 x2 y2 : Q) : Q := hypot (x2 - x1)%Q (y2 - y1)%Q.

(** The normalised height of a cell:
    [constrain(heightfieldCurrent[thetaIndex][phiIndex], -400, 400) / 400.0]
    (lines 159-160, 176-177, 289 and 321). *)
Definition heightAt (cur : Grid) (thetaIndex phiIndex : Z) : option Q :=
  rawHeight ← getCell cur thetaIndex phiIndex;
  Some (constrainQ rawHeight (-400) 400 / 400)%Q.

(** *** [drawHeightfieldSphere] (lines 129-256) *)

(** One iteration of the vertex loop (lines 140-215): the entries pushed
    onto [vertices], [normals] and [colors]. *)
Definition sphereVertex (radius : Q) (detailX detailY : Z) (time : Q)
    (cur : Grid) (i j : Z) : option (Vector.t * Vector.t * Colour) :=
  let v := (inject_Z i / inject_Z detailY)%Q in
  let phi := (v * PI)%Q in
  let u := (inject_Z j / inject_Z detailX)%Q in
  let theta := (u * TWO_PI)%Q in
  let x := (radius * sin phi * cos theta)%Q in
  let y := (radius * cos phi)%Q in
  let z := (radius * sin phi * sin theta)%Q in
  let thetaIndex := thetaIndexOf cfg theta in
  let phiIndex := phiIndexDrawn cfg phi in
  height ← heightAt cur thetaIndex phiIndex;
  let normal := normalize (Vector.create x y z) in
  let distortion := (height * 50)%Q in
  let x := (x + Vector.x normal * distortion)%Q in
  let y := (y + Vector.y normal * distortion)%Q in
  let z := (z + Vector.z normal * distortion)%Q in
  let neighborTheta := Z.rem (thetaIndex + 1) cols in
  let neighborPhi := Z.min (phiIndex + 1) (rows - 1) in
  neighborHeight ← heightAt cur neighborTheta phiIndex;
  neighborHeightY ← heightAt cur thetaIndex neighborPhi;
  let heightX := ((neighborHeight - height) * 0.5)%Q in
  let heightY := ((neighborHeightY - height) * 0.5)%Q in
  let normalX := (Vector.x normal + heightX)%Q in
  let normalY := (Vector.y normal + heightY)%Q in
  let normalZ := Vector.z normal in
  let adjustedNormal := normalize (Vector.create normalX normalY normalZ) in
  let depth := ((y + radius) / (radius * 2))%Q in
  let waveHeight := Qabs height in
  let baseR := lerp 0 0 depth in
  let baseG := lerp 120 80 depth in
  let baseB := lerp 190 140 depth in
  let causticIntensity := (sin (theta * 3 + time * 1.5) * 0.5 + 0.5)%Q in
  let causticIntensity :=
    (causticIntensity * (cos (phi * 4 + time * 1.0) * 0.3 + 0.7))%Q in
  let waveColor := (waveHeight * 40)%Q in
  let causticHighlight := (waveHeight * causticIntensity * 60)%Q in
  let r := (baseR + waveColor * 0.2 + causticHighlight)%Q in
  let g := (baseG + waveColor * 0.3 + causticHighlight * 0.8)%Q in
  let b := (baseB + waveColor * 0.4 + causticHighlight * 0.9)%Q in
  let r := constrainQ r 0 255 in
  let g := constrainQ g 0 255 in
  let b := constrainQ b 0 255 in
  Some (Vector.create x y z, adjustedNormal, rgba r g b 140).

(** The vertex loops (lines 135-217) fill the three arrays. *)
Definition sphereArrays (radius : Q) (detailX detailY : Z) (time : Q) (cur : Grid)
  : option (list Vector.t * list Vector.t * list Colour) :=
  forLe 0 detailY (λ i arrays,
    forLe 0 detailX (λ j '(vertices, normals, colors),
      '(position, adjustedNormal, colour) ←
        sphereVertex radius detailX detailY time cur i j;
      Some (vertices ++ [position], normals ++ [adjustedNormal],
            colors ++ [colour])) arrays) ([], [], []).

(** One iteration of the triangle loop (lines 223-252): the twelve calls
    of the two triangles of a quad. *)
Definition quadCalls (detailX : Z) (vertices : list Vector.t)
    (colors : list Colour) (i j : Z) : option (list DrawCall) :=
  let a := i * (detailX + 1) + j in
  let b := a + detailX + 1 in
  let c := a + 1 in
  let d := b + 1 in
  v1 ← JsArray.get vertices a;
  v2 ← JsArray.get vertices b;
  v3 ← JsArray.get vertices c;
  c1 ← JsArray.get colors a;
  c2 ← JsArray.get colors b;
  c3 ← JsArray.get colors c;
  v4 ← JsArray.get vertices d;
  c4 ← JsArray.get colors d;
  Some [fill c1; vertex v1; fill c2; vertex v2; fill c3; vertex v3;
        fill c2; vertex v2; fill c3; vertex v3; fill c4; vertex v4].

(** The triangle loops (lines 221-254). *)
Definition triangleCalls (detailX detailY : Z) (vertices : list Vector.t)
    (colors : list Colour) : option (list DrawCall) :=
  forLt 0 detailY (λ i calls,
    forLt 0 detailX (λ j calls,
      quad ← quadCalls detailX vertices colors i j;
      Some (calls ++ quad)) calls) [].

Definition drawHeightfieldSphere (radius : Q) (detailX detailY : Z) (time : Q)
    (cur : Grid) : option (list DrawCall) :=
  '(vertices, normals, colors) ← sphereArrays radius detailX detailY time cur;
  triangleCalls detailX detailY vertices colors.

(** *** [drawCausticsOnSphere] (lines 258-334) *)

(** The point both pairs of loops compute for ring [i] and meridian [j]
    (lines 268-296 and 303-328). *)
Definition causticPoint (sphereRadius time : Q) (cur : Grid) (i j : Z)
  : option Vector.t :=
  let phi := (inject_Z i / inject_Z detail * PI)%Q in
  let theta := (inject_Z j / inject_Z (detail * 2) * TWO_PI)%Q in
  let x := (sphereRadius * sin phi * cos theta)%Q in
  let y := (sphereRadius * cos phi)%Q in
  let z := (sphereRadius * sin phi * sin theta)%Q in
  let wave1 := (sin (theta * 3 + time * 1.5) * 2)%Q in
  let wave2 := (cos (phi * 4 + time * 1.0) * 1.5)%Q in
  let thetaIndex := thetaIndexOf cfg theta in
  let phiIndex := phiIndexDrawn cfg phi in
  height ← heightAt cur thetaIndex phiIndex;
  let normal := normalize (Vector.create x y z) in
  let x := (x + Vector.x normal * (wave1 + wave2 + height * 3))%Q in
  let y := (y + Vector.y normal * (wave1 + wave2 + height * 3))%Q in
  let z := (z + Vector.z normal * (wave1 + wave2 + height * 3))%Q in
  Some (Vector.create x y z).

(** The rings (lines 267-299), then the meridians (lines 302-331), each a
    line strip between [beginShape()] and [endShape()]. *)
Definition drawCausticsOnSphere (sphereRadius time : Q) (cur : Grid)
  : option (list (list Vector.t)) :=
  rings ← forLe 0 detail (λ i shapes,
    strip ← forLe 0 (detail * 2) (λ j strip,
      p ← causticPoint sphereRadius time cur i j;
      Some (strip ++ [p])) [];
    Some (shapes ++ [strip])) [];
  forLe 0 (detail * 2) (λ j shapes,
    strip ← forLe 0 detail (λ i strip,
      p ← causticPoint sphereRadius time cur i j;
      Some (strip ++ [p])) [];
    Some (shapes ++ [strip])) rings.

(** *** [draw] (lines 51-87) *)

(** [drawInstructions] (lines 89-112): the text at this font size. *)
Definition drawInstructions (w : Sketch) : Picture :=
  let fontSize := (Qmin (width w) (height w) * 0.08)%Q in
  InstructionScreen fontSize.

Definition draw (w : Sketch) : option (Sketch * Picture) :=
  let w := setTime (time w + 0.016)%Q w in
  if showInstructions w then Some (w, drawInstructions w)
  else
    st ← updateHeightfield cfg (water w);
    let w := setWater st w in
    sphere ← drawHeightfieldSphere (sphereRadius w) sphereDetail sphereDetail
                (time w) (heightfieldCurrent (water w));
    caustics ← drawCausticsOnSphere (sphereRadius w) (time w)
                  (heightfieldCurrent (water w));
    Some (w, WaterScene (rotationX w) (rotationY w) sphere caustics).

(** *** [handleInteraction] (lines 451-490) *)

Definition handleInteraction (x y : Q) (isFirstTouch : bool) (w : Sketch)
  : option Sketch :=
  let ndcX := (x / width w * 2 - 1)%Q in
  let ndcY := (1 - y / height w * 2)%Q in
  let screenX := (ndcX * sphereRadius w)%Q in
  let screenY := (ndcY * sphereRadius w)%Q in
  let distFromCenter := sqrt (screenX * screenX + screenY * screenY)%Q in
  if Qlt_bool (sphereRadius w * 1.5)%Q distFromCenter then Some w
  else
    let z := if Qlt_bool distFromCenter (sphereRadius w)
             then sqrt (sphereRadius w * sphereRadius w
                        - distFromCenter * distFromCenter)%Q
             else 0%Q in
    let point3D :=
      Vector.mult (normalize (Vector.create screenX screenY z)) (sphereRadius w) in
    let r := sphereRadius w in
    let phi := acos (constrainQ (Vector.y point3D / r) (-1) 1)%Q in
    let theta := atan2 (Vector.z point3D) (Vector.x point3D) in
    st ← addHeightfieldImpulse cfg theta phi isFirstTouch (water w);
    let w := setWater st w in
    Some (if isFirstTouch then addFeedback [playWaterSound; vibratePhone] w
          else w).

(** *** The touch and mouse handlers (lines 377-449) *)

Definition touchStarted (touches : list (Q * Q)) (w : Sketch) : option Sketch :=
  if showInstructions w then Some (setShowInstructions false w)
  else
    match touches with
    | touch :: _ => handleInteraction touch.1 touch.2 true (setIsDrawing true w)
    | [] => Some w
    end.

Definition touchMoved (touches : list (Q * Q)) (w : Sketch) : option Sketch :=
  if isDrawing w then
    match touches with
    | touch :: _ => handleInteraction touch.1 touch.2 false w
    | [] => Some w
    end
  else Some w.

Definition touchEnded (w : Sketch) : option Sketch :=
  Some (setIsDrawing false w).

Definition mousePressed (mouseX mouseY : Q) (w : Sketch) : option Sketch :=
  if showInstructions w then Some (setShowInstructions false w)
  else
    let w := setIsDragging false w in
    let w := setLastMouse mouseX mouseY w in
    let distFromCenter :=
      dist (mouseX - width w / 2)%Q (mouseY - height w / 2)%Q 0%Q 0%Q in
    if Qlt_bool distFromCenter (sphereRadius w * 1.5)%Q
    then handleInteraction mouseX mouseY true (setIsDrawing true w)
    else Some (setIsDragging true w).

Definition mouseDragged (mouseX mouseY : Q) (w : Sketch) : option Sketch :=
  if isDragging w then
    let deltaX := (mouseX - lastMouseX w)%Q in
    let deltaY := (mouseY - lastMouseY w)%Q in
    let rotationY' := (rotationY w + deltaX * 0.01)%Q in
    let rotationX' := (rotationX w + deltaY * 0.01)%Q in
    let rotationX' := constrainQ rotationX' (- PI / 2)%Q (PI / 2)%Q in
    Some (setLastMouse mouseX mouseY (setRotation rotationX' rotationY' w))
  else if isDrawing w then handleInteraction mouseX mouseY false w
  else Some w.

Definition mouseReleased (w : Sketch) : option Sketch :=
  Some (setIsDrawing false (setIsDragging false w)).

(** [windowResized] (lines 642-645) *)
Definition windowResized (windowWidth windowHeight : Q) (w : Sketch)
  : option Sketch :=
  Some (setCanvas windowWidth windowHeight w).

(** [setup] (lines 24-49), on the globals of the whole sketch. *)
Definition setupSketch (windowWidth windowHeight : Q) (w : Sketch)
  : option Sketch :=
  let w := setCanvas windowWidth windowHeight w in
  st ← setup cfg (water w);
  Some (setWater st w).

(** p5.js calls the handler of each event. *)
Definition dispatch (e : UiEvent) (w : Sketch) : option Sketch :=
  match e with
  | Draw => fst <$> draw w
  | TouchStarted touches => touchStarted touches w
  | TouchMoved touches => touchMoved touches w
  | TouchEnded => touchEnded w
  | MousePressed mouseX mouseY => mousePressed mouseX mouseY w
  | MouseDragged mouseX mouseY => mouseDragged mouseX mouseY w
  | MouseReleased => mouseReleased w
  | WindowResized windowWidth windowHeight =>
      windowResized windowWidth windowHeight w
  end.

Fixpoint session (es : list UiEvent) (w : Sketch) : option Sketch :=
  match es with
  | [] => Some w
  | e :: es' => w' ← dispatch e w; session es' w'
  end.

End Canvas.

(** A resize to a window of positive size; every other event as it
    comes. *)
Definition validUiEvent (e : UiEvent) : Prop :=
  match e with
  | WindowResized windowWidth windowHeight =>
      (0 < windowWidth)%Q ∧ (0 < windowHeight)%Q
  | _ => True
  end.

(** A press: the two events that dismiss the instruction screen. *)
Definition isPress (e : UiEvent) : bool :=
  match e with
  | TouchStarted _ | MousePressed _ _ => true
  | _ => false
  end.

(** A touch event. *)
Definition isTouch (e : UiEvent) : bool :=
  match e with
  | TouchStarted _ | TouchMoved _ | TouchEnded => true
  | _ => false
  end.

(** What the sketch keeps true of its globals once [setup] has run: the
    buffers have their shape, their boundary rows hold zero, the remembered
    angle needs at most one wrap-around, and the sizes are positive. *)
Definition sketchInv (cfg : Config) (w : Sketch) : Prop :=
  reachableInv cfg (water w) ∧
  (0 < sphereRadius w)%Q ∧ (0 < width w)%Q ∧ (0 < height w)%Q.

(** Two states of the sketch that differ at most in the water and in the
    feedback calls made. *)
Definition sameControls (w w' : Sketch) : Prop :=
  sphereRadius w' = sphereRadius w ∧
  rotationX w' = rotationX w ∧ rotationY w' = rotationY w ∧
  isDragging w' = isDragging w ∧
  lastMouseX w' = lastMouseX w ∧ lastMouseY w' = lastMouseY w ∧
  isDrawing w' = isDrawing w ∧ time w' = time w ∧
  showInstructions w' = showInstructions w ∧
  width w' = width w ∧ height w' = height w.

(** ** Stand-ins for the functions of [Math]

    Rational functions to run the handlers on concrete inputs: the integer
    square root, the chord of the arc cosine, [atan2] on the four axis
    directions, and the first terms of the sine and cosine series. *)
Definition sqrtFloor (x : Q) : Q := inject_Z (Z.sqrt (Qfloor x)).

Definition hypotFloor (a b : Q) : Q := sqrtFloor (a * a + b * b)%Q.

Definition acosChord (x : Q) : Q := (PI / 2 - x * (PI / 2))%Q.

Definition atan2Axis (b a : Q) : Q :=
  if Qlt_bool b 0 then (- PI / 2)%Q
  else if Qlt_bool 0 b then (PI / 2)%Q
  else if Qlt_bool a 0 then PI else 0%Q.

Definition sinSeries (x : Q) : Q := (x - x * x * x / 6)%Q.

Definition cosSeries (x : Q) : Q := (1 - x * x / 2)%Q.

(** The sketch on the small grid, in a window of 400 by 300, after
    [setup]. *)
Definition smallSketch : Sketch :=
  Eval vm_compute in
    default loadedSketch (setupSketch smallConfig 400 300 loadedSketch).

(** * Properties *)

(** ** Arrays and loops *)

Lemma JsArray_get_lookup {A : Type} (a : list A) (i : Z) :
  0 ≤ i → JsArray.get a i = a !! Z.to_nat i.
Proof.
  intros Hi. unfold JsArray.get.
  destruct (Z.ltb_spec i 0); [lia | reflexivity].
Qed.

Lemma JsArray_get_neg {A : Type} (a : list A) (i : Z) :
  i < 0 → JsArray.get a i = None.
Proof.
  intros Hi. unfold JsArray.get.
  destruct (Z.ltb_spec i 0); [reflexivity | lia].
Qed.

Lemma JsArray_set_inside {A : Type} (a : list A) (i : Z) (v : A) :
  0 ≤ i < Z.of_nat (length a) →
  JsArray.set a i v = Some (<[Z.to_nat i := v]> a).
Proof.
  intros Hi. unfold JsArray.set.
  destruct (Z.ltb_spec i 0); [lia |].
  destruct (Nat.ltb_spec (Z.to_nat i) (length a)); [reflexivity | lia].
Qed.

Lemma JsArray_set_push {A : Type} (a : list A) (i : Z) (v : A) :
  i = Z.of_nat (length a) → JsArray.set a i v = Some (a ++ [v]).
Proof.
  intros ->. unfold JsArray.set.
  destruct (Z.ltb_spec (Z.of_nat (length a)) 0); [lia |].
  rewrite Nat2Z.id, Nat.ltb_irrefl, Nat.eqb_refl. reflexivity.
Qed.

(** The invariant rule for counted loops: an invariant that every
    iteration re-establishes holds of the final state, and the loop does
    not fail. *)
Lemma forLoop_inv {St : Type} (Inv : Z → St → Prop) (body : Z → St → option St)
    (n : nat) (lo : Z) (s : St) :
  Inv lo s →
  (∀ k t, lo ≤ k < lo + Z.of_nat n → Inv k t →
          ∃ t', body k t = Some t' ∧ Inv (k + 1) t') →
  ∃ s', forLoop n lo body s = Some s' ∧ Inv (lo + Z.of_nat n) s'.
Proof.
  revert lo s. induction n as [|n IH]; intros lo s H0 Hstep.
  - exists s. split; [reflexivity |]. replace (lo + Z.of_nat 0) with lo by lia.
    exact H0.
  - destruct (Hstep lo s ltac:(lia) H0) as (t & Hb & Ht).
    destruct (IH (lo + 1) t Ht) as (s' & Hl & Hs').
    + intros k u Hk Hu. apply Hstep; [lia | exact Hu].
    + exists s'. split.
      * simpl. rewrite Hb. simpl. exact Hl.
      * replace (lo + Z.of_nat (S n)) with (lo + 1 + Z.of_nat n) by lia.
        exact Hs'.
Qed.

Lemma forLt_inv {St : Type} (Inv : Z → St → Prop) (body : Z → St → option St)
    (lo hi : Z) (s : St) :
  lo ≤ hi →
  Inv lo s →
  (∀ k t, lo ≤ k < hi → Inv k t → ∃ t', body k t = Some t' ∧ Inv (k + 1) t') →
  ∃ s', forLt lo hi body s = Some s' ∧ Inv hi s'.
Proof.
  intros Hle H0 Hstep. unfold forLt.
  destruct (forLoop_inv Inv body (Z.to_nat (hi - lo)) lo s H0) as (s' & Hl & Hs').
  - intros k t Hk. apply Hstep. lia.
  - exists s'. split; [exact Hl |].
    replace hi with (lo + Z.of_nat (Z.to_nat (hi - lo))) by lia. exact Hs'.
Qed.

Lemma forLt_empty {St : Type} (body : Z → St → option St) (lo hi : Z) (s : St) :
  hi ≤ lo → forLt lo hi body s = Some s.
Proof.
  intros H. unfold forLt. replace (Z.to_nat (hi - lo)) with O by lia. reflexivity.
Qed.

(** A loop whose iterations all keep a property keeps it. *)
Lemma forLt_preserves {St : Type} (P : St → Prop) (body : Z → St → option St)
    (lo hi : Z) (s : St) :
  P s →
  (∀ k t, lo ≤ k < hi → P t → ∃ t', body k t = Some t' ∧ P t') →
  ∃ s', forLt lo hi body s = Some s' ∧ P s'.
Proof.
  intros H0 Hstep. destruct (Z.le_gt_cases lo hi) as [Hle | Hgt].
  - apply (forLt_inv (λ _, P)); assumption.
  - exists s. split; [apply forLt_empty; lia | exact H0].
Qed.

(** ** Cells of a well-formed grid *)

Section GridFacts.

Variable cfg : Config.

Let cols : Z := heightfieldCols cfg.
Let rows : Z := heightfieldRows cfg.

Lemma getCell_wf (g : Grid) (i j : Z) :
  wfGrid cfg g → 0 ≤ i < cols → 0 ≤ j < rows →
  getCell g i j = Some (cellAt g i j).
Proof.
  intros [Hlen Hall] Hi Hj. unfold cellAt, getCell.
  rewrite JsArray_get_lookup by lia.
  destruct (lookup_lt_is_Some_2 g (Z.to_nat i)) as [col Hcol];
    [subst cols; lia |].
  rewrite Hcol. simpl.
  rewrite JsArray_get_lookup by lia.
  assert (Hc : length col = Z.to_nat rows)
    by exact (proj1 (Forall_lookup _ _) Hall _ _ Hcol).
  destruct (lookup_lt_is_Some_2 col (Z.to_nat j)) as [v Hv]; [lia |].
  rewrite Hv. reflexivity.
Qed.

Lemma setCell_wf (g : Grid) (i j : Z) (v : Q) :
  wfGrid cfg g → 0 ≤ i < cols → 0 ≤ j < rows →
  ∃ g', setCell g i j v = Some g' ∧ wfGrid cfg g' ∧
        ∀ i' j', getCell g' i' j' =
                 if decide (i' = i ∧ j' = j) then Some v else getCell g i' j'.
Proof.
  intros [Hlen Hall] Hi Hj. unfold setCell.
  rewrite JsArray_get_lookup by lia.
  destruct (lookup_lt_is_Some_2 g (Z.to_nat i)) as [col Hcol];
    [subst cols; lia |].
  rewrite Hcol. simpl.
  assert (Hc : length col = Z.to_nat rows)
    by exact (proj1 (Forall_lookup _ _) Hall _ _ Hcol).
  rewrite JsArray_set_inside by lia. simpl.
  rewrite JsArray_set_inside by (subst cols; lia).
  eexists. split; [reflexivity |]. split.
  - split; [rewrite length_insert; exact Hlen |].
    apply Forall_insert; [exact Hall |]. rewrite length_insert. exact Hc.
  - intros i' j'. unfold getCell.
    destruct (Z.ltb_spec i' 0) as [Hneg | Hpos].
    + rewrite !JsArray_get_neg by lia. case_decide; [lia | reflexivity].
    + rewrite !(JsArray_get_lookup _ i') by lia.
      destruct (decide (i' = i)) as [-> | Hne].
      * rewrite list_lookup_insert_eq by (subst cols; lia). rewrite Hcol. simpl.
        destruct (Z.ltb_spec j' 0) as [Hjn | Hjp].
        -- rewrite !JsArray_get_neg by lia. case_decide; [lia | reflexivity].
        -- rewrite !(JsArray_get_lookup _ j') by lia.
           destruct (decide (j' = j)) as [-> | Hnj].
           ++ rewrite list_lookup_insert_eq by lia.
              case_decide; [reflexivity | tauto].
           ++ rewrite list_lookup_insert_ne by lia.
              case_decide; [lia | reflexivity].
      * rewrite list_lookup_insert_ne by lia.
        case_decide; [lia | reflexivity].
Qed.

End GridFacts.

(** ** Exact rational arithmetic *)

Lemma Qmult_comm_eq (x y : Q) : (x * y)%Q = (y * x)%Q.
Proof.
  unfold Qmult. f_equal; [apply Z.mul_comm | apply Pos.mul_comm].
Qed.

Lemma unit_fraction (s m : Z) :
  0 ≤ s ≤ m → 1 ≤ m → (0 <= inject_Z s / inject_Z m <= 1)%Q.
Proof.
  intros Hs Hm.
  assert (Hpos : (0 < inject_Z m)%Q) by (rewrite <- (Zlt_Qlt 0); lia).
  split.
  - apply Qle_shift_div_l; [exact Hpos |]. rewrite Qmult_0_l.
    rewrite <- (Zle_Qle 0). lia.
  - apply Qle_shift_div_r; [exact Hpos |]. rewrite Qmult_1_l.
    rewrite <- Zle_Qle. lia.
Qed.

Lemma floor_lerp_between (a b : Z) (t : Q) :
  (0 <= t <= 1)%Q →
  Z.min a b ≤ floor (lerp (inject_Z a) (inject_Z b) t) ≤ Z.max a b.
Proof.
  intros [Ht0 Ht1]. unfold floor, lerp.
  assert (Hlo : (inject_Z (Z.min a b)
                 <= t * (inject_Z b - inject_Z a) + inject_Z a)%Q).
  { destruct (Z.le_ge_cases a b) as [Hab | Hab].
    - rewrite Z.min_l by lia. rewrite Zle_Qle in Hab. nra.
    - rewrite Z.min_r by lia. rewrite Zle_Qle in Hab. nra. }
  assert (Hhi : (t * (inject_Z b - inject_Z a) + inject_Z a
                 <= inject_Z (Z.max a b))%Q).
  { destruct (Z.le_ge_cases a b) as [Hab | Hab].
    - rewrite Z.max_r by lia. rewrite Zle_Qle in Hab. nra.
    - rewrite Z.max_l by lia. rewrite Zle_Qle in Hab. nra. }
  apply Qfloor_resp_le in Hlo, Hhi. rewrite Qfloor_Z in Hlo, Hhi. lia.
Qed.

(** ** The fresh buffer and [setup] *)

Section Allocation.

Variable cfg : Config.

Let cols : Z := heightfieldCols cfg.
Let rows : Z := heightfieldRows cfg.

(** Writing one past the end of the last column appends to it. *)
Lemma setCell_push (g : Grid) (col : list Q) (i j : Z) (v : Q) :
  i = Z.of_nat (length g) → j = Z.of_nat (length col) →
  setCell (g ++ [col]) i j v = Some (g ++ [col ++ [v]]).
Proof.
  intros Hi Hj. unfold setCell.
  rewrite JsArray_get_lookup by lia.
  assert (Hl : (g ++ [col]) !! Z.to_nat i = Some col).
  { rewrite lookup_app_r by lia.
    replace (Z.to_nat i - length g)%nat with O by lia. reflexivity. }
  rewrite Hl. simpl.
  rewrite (JsArray_set_push col j v Hj). simpl.
  rewrite JsArray_set_inside by (rewrite length_app; simpl; lia).
  f_equal. replace (Z.to_nat i) with (length g + 0)%nat by lia.
  rewrite insert_app_r. reflexivity.
Qed.

(** The inner allocation loop fills a fresh column with zeros. *)
Lemma zero_column (g : Grid) (i : Z) :
  i = Z.of_nat (length g) →
  forLt 0 rows (λ j new, setCell new i j 0%Q) (g ++ [[]]) =
  Some (g ++ [replicate (Z.to_nat rows) 0%Q]).
Proof.
  intros Hi. destruct (Z.le_gt_cases 0 rows) as [Hr | Hr].
  - destruct (forLt_inv
      (λ j new, 0 ≤ j ∧ new = g ++ [replicate (Z.to_nat j) 0%Q])
      (λ j new, setCell new i j 0%Q) 0 rows (g ++ [[]]) Hr)
      as (new & Hrun & _ & Hnew).
    + split; [lia | reflexivity].
    + intros j t Hj [_ ->]. eexists. split.
      * apply setCell_push; [exact Hi | rewrite length_replicate; lia].
      * split; [lia |].
        replace (Z.to_nat (j + 1)) with (Z.to_nat j + 1)%nat by lia.
        rewrite replicate_add. reflexivity.
    + rewrite Hrun, Hnew. reflexivity.
  - rewrite forLt_empty by lia.
    replace (Z.to_nat rows) with O by lia. reflexivity.
Qed.

Lemma newBuffer_zero : newBuffer cfg = Some (zeroGrid cfg).
Proof.
  unfold newBuffer, zeroGrid. fold cols rows.
  destruct (Z.le_gt_cases 0 cols) as [Hc | Hc].
  - destruct (forLt_inv
      (λ i new, 0 ≤ i ∧
                new = replicate (Z.to_nat i) (replicate (Z.to_nat rows) 0%Q))
      (λ i new, new ← JsArray.set new i [];
                forLt 0 rows (λ j new, setCell new i j 0%Q) new)
      0 cols [] Hc) as (new & Hrun & _ & Hnew).
    + split; [lia | reflexivity].
    + intros i t Hi [_ ->]. eexists. split.
      * rewrite JsArray_set_push by (rewrite length_replicate; lia). simpl.
        apply zero_column. rewrite length_replicate. lia.
      * split; [lia |].
        replace (Z.to_nat (i + 1)) with (Z.to_nat i + 1)%nat by lia.
        rewrite replicate_add. reflexivity.
    + rewrite Hrun, Hnew. reflexivity.
  - rewrite forLt_empty by lia.
    replace (Z.to_nat cols) with O by lia. reflexivity.
Qed.

Lemma zeroGrid_wf : wfGrid cfg (zeroGrid cfg).
Proof.
  unfold wfGrid, zeroGrid. split.
  - apply length_replicate.
  - apply Forall_replicate. apply length_replicate.
Qed.

Lemma setup_zero :
  setup cfg initialState =
  Some {| heightfieldCurrent := zeroGrid cfg; heightfieldPrevious := zeroGrid cfg;
          lastDrawTheta := 0%Q; lastDrawPhi := 0%Q |}.
Proof.
  unfold setup, zeroGrid. fold cols rows. simpl.
  set (column := replicate (Z.to_nat rows) 0%Q).
  assert (Hinner : ∀ (c p : Grid) i, i = Z.of_nat (length c) →
            i = Z.of_nat (length p) →
            forLt 0 rows (λ j '(cur, prev),
              cur ← setCell cur i j 0%Q;
              prev ← setCell prev i j 0%Q;
              Some (cur, prev)) (c ++ [[]], p ++ [[]]) =
            Some (c ++ [column], p ++ [column])).
  { intros c p i Hc Hp. subst column.
    destruct (Z.le_gt_cases 0 rows) as [Hr | Hr].
    - destruct (forLt_inv
        (λ j (s : Grid * Grid), 0 ≤ j ∧
           s = (c ++ [replicate (Z.to_nat j) 0%Q],
                p ++ [replicate (Z.to_nat j) 0%Q]))
        (λ j '(cur, prev),
           cur ← setCell cur i j 0%Q;
           prev ← setCell prev i j 0%Q;
           Some (cur, prev)) 0 rows (c ++ [[]], p ++ [[]]) Hr)
        as (s & Hrun & _ & Hs).
      + split; [lia | reflexivity].
      + intros j t Hj [_ ->]. eexists. split.
        * rewrite !setCell_push by (try rewrite length_replicate; lia).
          simpl. reflexivity.
        * split; [lia |].
          replace (Z.to_nat (j + 1)) with (Z.to_nat j + 1)%nat by lia.
          rewrite replicate_add. reflexivity.
      + rewrite Hrun, Hs. reflexivity.
    - rewrite forLt_empty by lia.
      replace (Z.to_nat rows) with O by lia. reflexivity. }
  destruct (Z.le_gt_cases 0 cols) as [Hc | Hc].
  - destruct (forLt_inv
      (λ i (s : Grid * Grid), 0 ≤ i ∧
         s = (replicate (Z.to_nat i) column, replicate (Z.to_nat i) column))
      (λ i '(cur, prev),
         cur ← JsArray.set cur i [];
         prev ← JsArray.set prev i [];
         forLt 0 rows (λ j '(cur, prev),
           cur ← setCell cur i j 0%Q;
           prev ← setCell prev i j 0%Q;
           Some (cur, prev)) (cur, prev))
      0 cols ([], []) Hc) as (s & Hrun & _ & Hs).
    + split; [lia | reflexivity].
    + intros i t Hi [_ ->]. eexists. split.
      * rewrite !JsArray_set_push by (rewrite length_replicate; lia). simpl.
        apply Hinner; rewrite length_replicate; lia.
      * split; [lia |].
        replace (Z.to_nat (i + 1)) with (Z.to_nat i + 1)%nat by lia.
        rewrite replicate_add. reflexivity.
    + rewrite Hrun, Hs. reflexivity.
  - rewrite forLt_empty by lia.
    replace (Z.to_nat cols) with O by lia. reflexivity.
Qed.

End Allocation.

(** ** One simulation step *)

Section Update.

Variable cfg : Config.

Let cols : Z := heightfieldCols cfg.
Let rows : Z := heightfieldRows cfg.

Lemma wrap_prev (i : Z) :
  0 ≤ i < cols → Z.rem (i - 1 + cols) cols = (i - 1) mod cols.
Proof.
  intros Hi. rewrite Z.rem_mod_nonneg by lia.
  replace (i - 1 + cols) with (i - 1 + 1 * cols) by lia.
  apply Z_mod_plus_full.
Qed.

Lemma wrap_next (i : Z) :
  0 ≤ i < cols → Z.rem (i + 1) cols = (i + 1) mod cols.
Proof. intros Hi. apply Z.rem_mod_nonneg; lia. Qed.

(** One inner iteration writes the wave value at [(i, j)] and nothing
    else. *)
Lemma updateCell_spec (cur prev new : Grid) (i j : Z) :
  wfGrid cfg cur → wfGrid cfg prev → wfGrid cfg new →
  0 ≤ i < cols → 1 ≤ j ≤ rows - 2 →
  ∃ new', updateCell cfg cur prev i j new = Some new' ∧ wfGrid cfg new' ∧
          ∀ i' j', getCell new' i' j' =
                   if decide (i' = i ∧ j' = j)
                   then Some (waveValue cfg cur prev i j)
                   else getCell new i' j'.
Proof.
  intros Hcur Hprev Hnew Hi Hj. unfold updateCell. fold cols rows.
  rewrite wrap_prev, wrap_next by exact Hi.
  assert (Hp : 0 ≤ (i - 1) mod cols < cols) by (apply Z.mod_pos_bound; lia).
  assert (Hn : 0 ≤ (i + 1) mod cols < cols) by (apply Z.mod_pos_bound; lia).
  rewrite !(getCell_wf cfg prev) by (assumption || (fold rows; lia)). simpl.
  rewrite (getCell_wf cfg cur) by (assumption || (fold rows; lia)). simpl.
  set (v := ((cellAt prev ((i - 1) mod cols) j + cellAt prev ((i + 1) mod cols) j
      + cellAt prev i (j - 1) + cellAt prev i (j + 1)
      + cellAt prev ((i - 1) mod cols) (j - 1)
      + cellAt prev ((i - 1) mod cols) (j + 1)
      + cellAt prev ((i + 1) mod cols) (j - 1)
      + cellAt prev ((i + 1) mod cols) (j + 1)) / 8 - cellAt cur i j)%Q).
  destruct (setCell_wf cfg new i j v Hnew Hi)
    as (new1 & Hset1 & Hwf1 & Hget1); [fold rows; lia |].
  rewrite Hset1. simpl.
  rewrite Hget1. rewrite decide_True by (split; reflexivity). simpl.
  destruct (setCell_wf cfg new1 i j (v * damping cfg)%Q Hwf1 Hi)
    as (new2 & Hset2 & Hwf2 & Hget2); [fold rows; lia |].
  rewrite Hset2. exists new2. split; [reflexivity |]. split; [exact Hwf2 |].
  intros i' j'. rewrite Hget2, Hget1.
  case_decide; [| reflexivity].
  unfold waveValue, neighbourSum. fold cols. f_equal. apply Qmult_comm_eq.
Qed.

Lemma zeroGrid_cell (i j : Z) :
  0 ≤ i < cols → 0 ≤ j < rows → getCell (zeroGrid cfg) i j = Some 0%Q.
Proof.
  intros Hi Hj. unfold getCell, zeroGrid. fold cols rows.
  rewrite JsArray_get_lookup by lia.
  rewrite lookup_replicate_2 by lia. simpl.
  rewrite JsArray_get_lookup by lia.
  rewrite lookup_replicate_2 by lia. reflexivity.
Qed.

Lemma updateHeightfield_spec (st : State) :
  wfState cfg st →
  ∃ new, updateHeightfield cfg st =
           Some {| heightfieldCurrent := new;
                   heightfieldPrevious := heightfieldCurrent st;
                   lastDrawTheta := lastDrawTheta st;
                   lastDrawPhi := lastDrawPhi st |} ∧
         wfGrid cfg new ∧
         ∀ i j, 0 ≤ i < cols → 0 ≤ j < rows →
                getCell new i j =
                Some (steppedCell cfg (heightfieldCurrent st)
                                  (heightfieldPrevious st) i j).
Proof.
  intros [Hcur Hprev]. unfold updateHeightfield, steppedBuffer. fold cols rows.
  rewrite newBuffer_zero. simpl.
  set (cur := heightfieldCurrent st) in *.
  set (prev := heightfieldPrevious st) in *.
  set (W := waveValue cfg cur prev).
  (* columns before [i] are done, the others are still zero *)
  set (Outer := λ (i : Z) (new : Grid),
         wfGrid cfg new ∧
         ∀ i' j', 0 ≤ i' < cols → 0 ≤ j' < rows →
           getCell new i' j' =
           Some (if decide (i' < i ∧ 1 ≤ j' ≤ rows - 2) then W i' j' else 0%Q)).
  assert (Hloop : ∃ new,
    forLt 0 cols (λ i new,
      forLt 1 (rows - 1) (λ j new, updateCell cfg cur prev i j new) new)
      (zeroGrid cfg) = Some new ∧ Outer (Z.max 0 cols) new).
  { destruct (Z.le_gt_cases 0 cols) as [Hc | Hc].
    2:{ exists (zeroGrid cfg). split; [apply forLt_empty; lia |].
        split; [apply zeroGrid_wf |]. intros i' j' Hi' Hj'. lia. }
    rewrite Z.max_r by lia.
    apply (forLt_inv Outer); [exact Hc | |].
    - split; [apply zeroGrid_wf |]. intros i' j' Hi' Hj'.
      rewrite decide_False by lia. apply zeroGrid_cell; assumption.
    - intros i new0 Hi [Hwf0 Hcells0].
      (* rows before [j] of column [i] are done *)
      set (Inner := λ (j : Z) (new : Grid),
             wfGrid cfg new ∧
             ∀ i' j', 0 ≤ i' < cols → 0 ≤ j' < rows →
               getCell new i' j' =
               Some (if decide ((i' < i ∨ (i' = i ∧ j' < j)) ∧ 1 ≤ j' ≤ rows - 2)
                     then W i' j' else 0%Q)).
      destruct (Z.le_gt_cases 1 (rows - 1)) as [Hr | Hr].
      + destruct (forLt_inv Inner
          (λ j new, updateCell cfg cur prev i j new) 1 (rows - 1) new0 Hr)
          as (new1 & Hrun & Hwf1 & Hcells1).
        * split; [exact Hwf0 |]. intros i' j' Hi' Hj'.
          rewrite (Hcells0 i' j' Hi' Hj').
          do 2 case_decide; (reflexivity || lia).
        * intros j new Hj [Hwf Hcells].
          destruct (updateCell_spec cur prev new i j Hcur Hprev Hwf Hi)
            as (new' & Hupd & Hwf' & Hget'); [fold rows; lia |].
          exists new'. split; [exact Hupd |]. split; [exact Hwf' |].
          intros i' j' Hi' Hj'. rewrite Hget'.
          case_decide as Heq.
          -- destruct Heq as [-> ->]. rewrite decide_True by lia. reflexivity.
          -- rewrite (Hcells i' j' Hi' Hj').
             do 2 case_decide; (reflexivity || lia).
        * exists new1. split; [exact Hrun |]. split; [exact Hwf1 |].
          intros i' j' Hi' Hj'. rewrite (Hcells1 i' j' Hi' Hj').
          do 2 case_decide; (reflexivity || lia).
      + exists new0. split; [apply forLt_empty; lia |].
        split; [exact Hwf0 |]. intros i' j' Hi' Hj'.
        rewrite (Hcells0 i' j' Hi' Hj').
        do 2 case_decide; (reflexivity || lia). }
  destruct Hloop as (new & Hrun & Hwf & Hcells).
  rewrite Hrun. simpl. exists new. split; [reflexivity |]. split; [exact Hwf |].
  intros i j Hi Hj. rewrite (Hcells i j Hi Hj). unfold steppedCell.
  do 2 case_decide; (reflexivity || lia).
Qed.

End Update.

(** ** Impulse writes *)

Section Impulse.

Variable cfg : Config.

Let cols : Z := heightfieldCols cfg.
Let rows : Z := heightfieldRows cfg.

Hypothesis cols_pos : 1 ≤ cols.
Hypothesis rows_interior : 3 ≤ rows.

Lemma constrain_interior (n : Z) : 1 ≤ constrain n 1 (rows - 2) ≤ rows - 2.
Proof. unfold constrain. lia. Qed.

Lemma wrap_offset (ti di : Z) :
  0 ≤ ti < cols → -1 ≤ di ≤ 1 →
  Z.rem (ti + di + cols) cols = (ti + di) mod cols.
Proof.
  intros Hi Hd. rewrite Z.rem_mod_nonneg by lia.
  replace (ti + di + cols) with (ti + di + 1 * cols) by lia.
  apply Z_mod_plus_full.
Qed.

Lemma neighbourTargets_interior (ti pi : Z) :
  0 ≤ ti < cols → Forall (interiorCell cfg) (neighbourTargets cfg ti pi).
Proof.
  intros Hi. unfold neighbourTargets, offsets. fold cols rows. simpl.
  repeat constructor; simpl;
    try (rewrite wrap_offset by lia; apply Z.mod_pos_bound; lia);
    try apply constrain_interior.
Qed.

Lemma writeAll_spec (cells : list (Z * Z)) (v : Q) (g : Grid) :
  wfGrid cfg g → Forall (interiorCell cfg) cells →
  ∃ g', writeAll cells v g = Some g' ∧ wfGrid cfg g' ∧
        ∀ i j, getCell g' i j =
               if decide ((i, j) ∈ cells) then Some v else getCell g i j.
Proof.
  revert g. induction cells as [| [ci cj] cells IH]; intros g Hwf Hall.
  - exists g. split; [reflexivity |]. split; [exact Hwf |].
    intros i j. rewrite decide_False by apply not_elem_of_nil. reflexivity.
  - inversion Hall as [| c cs [Hci Hcj] Hall']; subst. simpl in Hci, Hcj.
    destruct (setCell_wf cfg g ci cj v Hwf Hci) as (g1 & Hset & Hwf1 & Hget1);
      [fold rows; lia |].
    destruct (IH g1 Hwf1 Hall') as (g' & Hrun & Hwf' & Hget').
    exists g'. split; [simpl; rewrite Hset; exact Hrun |].
    split; [exact Hwf' |].
    intros i j. rewrite Hget', Hget1.
    destruct (decide ((i, j) ∈ cells)) as [Hin | Hnin].
    + rewrite decide_True by (right; exact Hin). reflexivity.
    + destruct (decide (i = ci ∧ j = cj)) as [[-> ->] | Hne].
      * rewrite decide_True by left. reflexivity.
      * rewrite decide_False; [reflexivity |].
        intros Hin. apply elem_of_cons in Hin as [Heq | Hin]; [| tauto].
        inversion Heq. tauto.
Qed.

(** The two nested neighbour loops write the eight targets in order. *)
Lemma writeNeighbours_unroll (ti pi : Z) (v : Q) (g : Grid) :
  writeNeighbours cfg ti pi v g = writeAll (neighbourTargets cfg ti pi) v g.
Proof.
  unfold writeNeighbours, neighbourTargets, offsets, forLe, forLt.
  fold cols rows. simpl.
  change (-1 + 1 + 1) with 1. change (-1 + 1) with 0.
  repeat (match goal with
          | |- context [setCell ?a ?b ?c ?d] =>
              is_var a; destruct (setCell a b c d); simpl; [| reflexivity]
          end).
  reflexivity.
Qed.

(** A centre write followed by the neighbour loop: the neighbour value
    wins wherever the footprints meet. *)
Lemma stamp_spec (ti pi : Z) (centre v : Q) (g : Grid) :
  wfGrid cfg g → 0 ≤ ti < cols → 1 ≤ pi ≤ rows - 2 →
  ∃ g', (g1 ← setCell g ti pi centre; writeNeighbours cfg ti pi v g1) = Some g' ∧
        wfGrid cfg g' ∧
        ∀ i j, getCell g' i j =
               if decide ((i, j) ∈ neighbourTargets cfg ti pi) then Some v
               else if decide (i = ti ∧ j = pi) then Some centre
               else getCell g i j.
Proof.
  intros Hwf Hi Hj.
  destruct (setCell_wf cfg g ti pi centre Hwf Hi) as (g1 & Hset & Hwf1 & Hget1);
    [fold rows; lia |].
  destruct (writeAll_spec (neighbourTargets cfg ti pi) v g1 Hwf1
              (neighbourTargets_interior ti pi Hi)) as (g' & Hrun & Hwf' & Hget').
  exists g'. split; [rewrite Hset; simpl; rewrite writeNeighbours_unroll; exact Hrun |].
  split; [exact Hwf' |].
  intros i j. rewrite Hget', Hget1. reflexivity.
Qed.

(** *** Index ranges *)

Lemma wrapTheta_mod (k : Z) :
  - cols ≤ k < 2 * cols → wrapTheta cfg k = k mod cols.
Proof.
  intros Hk. unfold wrapTheta. fold cols.
  destruct (Z.ltb_spec k 0) as [Hneg | Hpos].
  - destruct (Z.leb_spec cols (k + cols)) as [Hbig | Hsmall]; [lia |].
    apply Z.mod_unique with (q := -1); lia.
  - destruct (Z.leb_spec cols k) as [Hbig | Hsmall].
    + apply Z.mod_unique with (q := 1); lia.
    + symmetry. apply Z.mod_small. lia.
Qed.

Lemma wrapTheta_id (k : Z) : 0 ≤ k < cols → wrapTheta cfg k = k.
Proof.
  intros Hk. rewrite wrapTheta_mod by lia. apply Z.mod_small. exact Hk.
Qed.

Lemma thetaIndexOf_range (theta : Q) :
  validTheta cfg theta → 0 ≤ thetaIndexOf cfg theta < cols.
Proof.
  intros Hv. unfold thetaIndexOf. fold cols.
  rewrite wrapTheta_mod by exact Hv. apply Z.mod_pos_bound. lia.
Qed.

Lemma phiIndexOf_range (phi : Q) : 1 ≤ phiIndexOf cfg phi ≤ rows - 2.
Proof. apply constrain_interior. Qed.

(** *** Interpolation stays between its end points *)

Lemma pathCell_interior (a pa b pb s : Z) :
  0 ≤ a < cols → 0 ≤ b < cols → 0 ≤ s ≤ pathSteps a pa b pb →
  interiorCell cfg (pathCell cfg a pa b pb s).
Proof.
  intros Ha Hb Hs. unfold pathCell, interiorCell. fold cols rows. cbn [fst snd].
  split; [| apply constrain_interior].
  assert (Ht : (0 <= inject_Z s / inject_Z (Z.max (pathSteps a pa b pb) 1) <= 1)%Q)
    by (apply unit_fraction; lia).
  pose proof (floor_lerp_between a b _ Ht) as Hbetween.
  rewrite wrapTheta_id; lia.
Qed.

(** *** Injection is total and stays off the boundary rows *)

Lemma stamp_interiorUpdate (g0 g : Grid) (c : Z * Z) (centre v : Q) :
  wfGrid cfg g → interiorUpdate cfg g0 g → interiorCell cfg c →
  ∃ g', (g1 ← setCell g c.1 c.2 centre; writeNeighbours cfg c.1 c.2 v g1)
        = Some g' ∧ interiorUpdate cfg g0 g'.
Proof.
  intros Hwf [_ Hsame] [Hi Hj].
  destruct (stamp_spec c.1 c.2 centre v g Hwf Hi Hj) as (g' & Hrun & Hwf' & Hget).
  exists g'. split; [exact Hrun |]. split; [exact Hwf' |].
  intros i j Hout. rewrite Hget.
  rewrite decide_False.
  - rewrite decide_False by (fold rows in Hj; lia). apply Hsame, Hout.
  - intros Hin.
    pose proof (neighbourTargets_interior c.1 c.2 Hi) as Hall.
    rewrite Forall_forall in Hall. apply list_elem_of_In, Hall in Hin as [_ Hrow].
    simpl in Hrow. fold rows in Hrow. lia.
Qed.

Lemma pointImpulse_interiorUpdate (ti pi : Z) (g : Grid) :
  wfGrid cfg g → 0 ≤ ti < cols → 1 ≤ pi ≤ rows - 2 →
  ∃ g', pointImpulse cfg ti pi g = Some g' ∧ interiorUpdate cfg g g'.
Proof.
  intros Hwf Hi Hj. unfold pointImpulse.
  apply (stamp_interiorUpdate g g (ti, pi)).
  - exact Hwf.
  - split; [exact Hwf | reflexivity].
  - split; assumption.
Qed.

Lemma pathImpulse_interiorUpdate (a pa b pb : Z) (g : Grid) :
  wfGrid cfg g → 0 ≤ a < cols → 0 ≤ b < cols →
  ∃ g', pathImpulse cfg a pa b pb g = Some g' ∧ interiorUpdate cfg g g'.
Proof.
  intros Hwf Ha Hb. unfold pathImpulse, forLe.
  apply (forLt_preserves (interiorUpdate cfg g)).
  - split; [exact Hwf | reflexivity].
  - intros s t Hs Hupd.
    pose proof (pathCell_interior a pa b pb s Ha Hb ltac:(lia)) as Hcell.
    destruct (pathCell cfg a pa b pb s) as [ti pi] eqn:Hc.
    apply (stamp_interiorUpdate g t (ti, pi)); [apply Hupd | exact Hupd | exact Hcell].
Qed.

Lemma addHeightfieldImpulse_spec (theta phi : Q) (isFirstTouch : bool)
    (st : State) :
  wfState cfg st → validTheta cfg theta → validTheta cfg (lastDrawTheta st) →
  ∃ prev, addHeightfieldImpulse cfg theta phi isFirstTouch st =
            Some {| heightfieldCurrent := heightfieldCurrent st;
                    heightfieldPrevious := prev;
                    lastDrawTheta := theta; lastDrawPhi := phi |} ∧
          interiorUpdate cfg (heightfieldPrevious st) prev.
Proof.
  intros [_ Hprev] Htheta Hlast. unfold addHeightfieldImpulse, impulsedBuffer.
  pose proof (thetaIndexOf_range theta Htheta) as Hti.
  pose proof (thetaIndexOf_range _ Hlast) as Hlti.
  pose proof (phiIndexOf_range phi) as Hpi.
  destruct isFirstTouch; simpl.
  - destruct (pointImpulse_interiorUpdate _ _ _ Hprev Hti Hpi) as (g' & -> & Hupd).
    exists g'. split; [reflexivity | exact Hupd].
  - destruct (pathImpulse_interiorUpdate (thetaIndexOf cfg (lastDrawTheta st))
                (phiIndexOf cfg (lastDrawPhi st)) (thetaIndexOf cfg theta)
                (phiIndexOf cfg phi) _ Hprev Hlti Hti) as (g' & -> & Hupd).
    exists g'. split; [reflexivity | exact Hupd].
Qed.

End Impulse.

(** ** The update rule on interior cells *)

(** C1.  On every well-formed grid state a step succeeds, and at every
    interior cell (any column, rows [1] to [rows - 2]) the new current
    buffer holds [damping * (S / 8 - current[col][row])], where [S] sums the
    eight neighbours in the previous buffer, columns [col - 1] and [col + 1]
    taken modulo [cols]. *)
Theorem updateHeightfield_interior_cell (cfg : Config) (st : State) :
  wfState cfg st →
  ∃ st', updateHeightfield cfg st = Some st' ∧
         ∀ col row, 0 ≤ col < heightfieldCols cfg →
                    1 ≤ row ≤ heightfieldRows cfg - 2 →
           getCell (heightfieldCurrent st') col row =
           Some (waveValue cfg (heightfieldCurrent st) (heightfieldPrevious st)
                   col row).
Proof.
  intros Hwf.
  destruct (updateHeightfield_spec cfg st Hwf) as (new & Hrun & _ & Hcells).
  eexists. split; [exact Hrun |].
  intros col row Hcol Hrow. simpl.
  rewrite Hcells by lia. unfold steppedCell.
  rewrite decide_True by lia. reflexivity.
Qed.

(** ** The boundary rows *)

Section Boundary.

Variable cfg : Config.

Let cols : Z := heightfieldCols cfg.
Let rows : Z := heightfieldRows cfg.

Hypothesis cols_pos : 1 ≤ cols.
Hypothesis rows_interior : 3 ≤ rows.

Lemma validTheta_zero : validTheta cfg 0%Q.
Proof.
  unfold validTheta, floor. fold cols.
  assert (H0 : (0 / TWO_PI * inject_Z cols == inject_Z 0)%Q)
    by (unfold Qdiv; rewrite !Qmult_0_l; reflexivity).
  rewrite (Qfloor_comp _ _ H0), Qfloor_Z. lia.
Qed.

Lemma zeroState_inv : reachableInv cfg (zeroState cfg).
Proof.
  unfold reachableInv, zeroState, wfState. simpl.
  pose proof (zeroGrid_wf cfg) as Hwf.
  assert (Hb : boundaryZero cfg (zeroGrid cfg)).
  { intros col Hcol. split; apply zeroGrid_cell; fold rows; lia. }
  split; [split; exact Hwf |].
  split; [exact Hb |]. split; [exact Hb | apply validTheta_zero].
Qed.

Lemma step_inv (e : Event) (st : State) :
  reachableInv cfg st → validEvent cfg e →
  ∃ st', step cfg e st = Some st' ∧ reachableInv cfg st'.
Proof.
  intros (Hwf & Hbc & Hbp & Hlast) Hvalid. destruct e as [theta phi first |].
  - destruct (addHeightfieldImpulse_spec cfg cols_pos rows_interior
                theta phi first st Hwf Hvalid Hlast)
      as (prev & Hrun & Hwfp & Hsame).
    eexists. split; [exact Hrun |].
    split; [split; [apply Hwf | exact Hwfp] |].
    split; [exact Hbc |]. split; [| exact Hvalid].
    intros col Hcol. simpl.
    rewrite !Hsame by (fold rows; lia). apply Hbp, Hcol.
  - destruct (updateHeightfield_spec cfg st Hwf) as (new & Hrun & Hwfn & Hcells).
    eexists. split; [exact Hrun |].
    split; [split; [exact Hwfn | apply Hwf] |].
    split; [| split; [exact Hbc | exact Hlast]].
    intros col Hcol. simpl.
    rewrite !Hcells by (fold rows; lia). unfold steppedCell.
    rewrite !decide_False by (fold rows; lia). split; reflexivity.
Qed.

Lemma run_inv (es : list Event) (st : State) :
  reachableInv cfg st → Forall (validEvent cfg) es →
  ∃ st', run cfg es st = Some st' ∧ reachableInv cfg st'.
Proof.
  revert st. induction es as [| e es IH]; intros st Hinv Hall.
  - exists st. split; [reflexivity | exact Hinv].
  - inversion Hall as [| ? ? He Hes]; subst.
    destruct (step_inv e st Hinv He) as (st1 & Hstep & Hinv1).
    destruct (IH st1 Hinv1 Hes) as (st' & Hrun & Hinv').
    exists st'. split; [simpl; rewrite Hstep; exact Hrun | exact Hinv'].
Qed.

End Boundary.

(** C2.  From the all-zero grid that [setup] builds, every finite sequence
    of simulation steps and impulse injections runs to completion, and
    afterwards every cell of row [0] and of row [rows - 1] is zero in both
    buffers.  The grid has at least one column and three rows, and the
    injected angles need at most one wrap-around, as [atan2] guarantees. *)
Theorem boundary_rows_stay_zero (cfg : Config) (es : list Event) :
  1 ≤ heightfieldCols cfg → 3 ≤ heightfieldRows cfg →
  Forall (validEvent cfg) es →
  ∃ st0 st, setup cfg initialState = Some st0 ∧
            heightfieldCurrent st0 = zeroGrid cfg ∧
            heightfieldPrevious st0 = zeroGrid cfg ∧
            run cfg es st0 = Some st ∧
            boundaryZero cfg (heightfieldCurrent st) ∧
            boundaryZero cfg (heightfieldPrevious st).
Proof.
  intros Hcols Hrows Hall.
  destruct (run_inv cfg Hcols Hrows es (zeroState cfg)
              (zeroState_inv cfg Hcols Hrows) Hall)
    as (st & Hrun & _ & Hbc & Hbp & _).
  exists (zeroState cfg), st.
  split; [apply setup_zero |]. split; [reflexivity |]. split; [reflexivity |].
  split; [exact Hrun |]. split; assumption.
Qed.

(** ** Buffer roles *)

(** An injection followed by a step, on plain values. *)
Lemma injection_then_step (cfg : Config) (theta phi : Q)
    (isFirstTouch : bool) (st : State) :
  1 ≤ heightfieldCols cfg → 3 ≤ heightfieldRows cfg →
  wfState cfg st → validTheta cfg theta → validTheta cfg (lastDrawTheta st) →
  ∃ prev new,
    impulsedBuffer cfg theta phi isFirstTouch (lastDrawTheta st) (lastDrawPhi st)
      (heightfieldPrevious st) = Some prev ∧
    steppedBuffer cfg (heightfieldCurrent st) prev = Some new ∧
    ∀ col row, 0 ≤ col < heightfieldCols cfg →
               1 ≤ row ≤ heightfieldRows cfg - 2 →
      getCell new col row =
      Some (waveValue cfg (heightfieldCurrent st) prev col row).
Proof.
  intros Hcols Hrows Hwf Htheta Hlast.
  destruct (addHeightfieldImpulse_spec cfg Hcols Hrows theta phi isFirstTouch
              st Hwf Htheta Hlast) as (prev & Hinj & Hwfp & _).
  unfold addHeightfieldImpulse in Hinj.
  destruct (impulsedBuffer cfg theta phi isFirstTouch _ _ _) as [prev' |] eqn:Hbuf;
    [| discriminate].
  simpl in Hinj. injection Hinj as ->.
  set (st1 := {| heightfieldCurrent := heightfieldCurrent st;
                 heightfieldPrevious := prev;
                 lastDrawTheta := theta; lastDrawPhi := phi |}).
  assert (Hwf1 : wfState cfg st1) by (split; [apply Hwf | exact Hwfp]).
  destruct (updateHeightfield_spec cfg st1 Hwf1) as (new & Hrun & _ & Hcells).
  unfold updateHeightfield in Hrun. simpl in Hrun.
  destruct (steppedBuffer cfg (heightfieldCurrent st) prev) as [new' |] eqn:Hnew;
    [| discriminate].
  simpl in Hrun. injection Hrun as ->.
  exists prev, new. split; [reflexivity |]. split; [exact Hnew |].
  intros col row Hcol Hrow. simpl in Hcells.
  rewrite Hcells by lia. unfold steppedCell.
  rewrite decide_True by lia. reflexivity.
Qed.

(** C5.  With the two buffers held by reference: an injection writes the
    object [heightfieldPrevious] refers to and nothing else; the step that
    follows computes every interior cell of a fresh current buffer from
    that written object, makes the old current object the new previous
    buffer by reassigning the reference, and copies no cell into any
    existing object. *)
Theorem injection_visible_to_next_step (cfg : Config) (theta phi : Q)
    (isFirstTouch : bool) (m : Refs.Memory) (st : State) :
  1 ≤ heightfieldCols cfg → 3 ≤ heightfieldRows cfg →
  Refs.view m = Some st → Refs.currentRef m ≠ Refs.previousRef m →
  wfState cfg st → validTheta cfg theta → validTheta cfg (lastDrawTheta st) →
  ∃ m1 m2 st1 st2,
    Refs.addHeightfieldImpulse cfg theta phi isFirstTouch m = Some m1 ∧
    Refs.view m1 = Some st1 ∧
    Refs.updateHeightfield cfg m1 = Some m2 ∧
    Refs.view m2 = Some st2 ∧
    (Refs.currentRef m1 = Refs.currentRef m ∧
     Refs.previousRef m1 = Refs.previousRef m ∧
     ∀ a, a ≠ Refs.previousRef m → Refs.objects m1 !! a = Refs.objects m !! a) ∧
    (Refs.previousRef m2 = Refs.currentRef m1 ∧
     Refs.currentRef m2 = length (Refs.objects m1) ∧
     ∀ a, (a < length (Refs.objects m1))%nat →
          Refs.objects m2 !! a = Refs.objects m1 !! a) ∧
    heightfieldCurrent st1 = heightfieldCurrent st ∧
    heightfieldPrevious st2 = heightfieldCurrent st ∧
    ∀ col row, 0 ≤ col < heightfieldCols cfg →
               1 ≤ row ≤ heightfieldRows cfg - 2 →
      getCell (heightfieldCurrent st2) col row =
      Some (waveValue cfg (heightfieldCurrent st) (heightfieldPrevious st1)
              col row).
Proof.
  intros Hcols Hrows Hview Hsep Hwf Htheta Hlast.
  destruct m as [objs c p dt dp]. unfold Refs.view in Hview. simpl in *.
  destruct (objs !! c) as [cur |] eqn:Hc; [| discriminate].
  destruct (objs !! p) as [prev |] eqn:Hp; [| discriminate].
  simpl in Hview. injection Hview as <-. simpl in *.
  destruct (injection_then_step cfg theta phi isFirstTouch
              {| heightfieldCurrent := cur; heightfieldPrevious := prev;
                 lastDrawTheta := dt; lastDrawPhi := dp |}
              Hcols Hrows Hwf Htheta Hlast)
    as (prev' & new & Hinj & Hstep & Hcells).
  simpl in Hinj, Hstep, Hcells.
  pose proof (lookup_lt_Some _ _ _ Hc) as Hclt.
  pose proof (lookup_lt_Some _ _ _ Hp) as Hplt.
  assert (Hc1 : <[p := prev']> objs !! c = Some cur)
    by (rewrite list_lookup_insert_ne by congruence; exact Hc).
  assert (Hp1 : <[p := prev']> objs !! p = Some prev')
    by (apply list_lookup_insert_eq; exact Hplt).
  eexists _, _, _, _.
  split; [unfold Refs.addHeightfieldImpulse; simpl;
          rewrite Hp; simpl; rewrite Hinj; reflexivity |].
  split; [unfold Refs.view; simpl; rewrite Hc1, Hp1; reflexivity |].
  split; [unfold Refs.updateHeightfield; simpl;
          rewrite Hc1, Hp1; simpl; rewrite Hstep; reflexivity |].
  assert (Hn2 : (<[p := prev']> objs ++ [new]) !! length (<[p := prev']> objs)
                = Some new)
    by (rewrite lookup_app_r, Nat.sub_diag by reflexivity; reflexivity).
  assert (Hc2 : (<[p := prev']> objs ++ [new]) !! c = Some cur)
    by (rewrite lookup_app_l by (rewrite length_insert; exact Hclt); exact Hc1).
  split; [unfold Refs.view; simpl; rewrite Hn2, Hc2; reflexivity |].
  simpl. split.
  { split; [reflexivity |]. split; [reflexivity |].
    intros a Ha. apply list_lookup_insert_ne. congruence. }
  split.
  { split; [reflexivity |]. split; [reflexivity |].
    intros a Ha. apply lookup_app_l. exact Ha. }
  split; [reflexivity |]. split; [reflexivity |]. exact Hcells.
Qed.

(** A tap on still water of the small grid is seen by the next frame: the
    eight neighbours of the tapped cell [(4, 2)] hold
    [impulseStrength * 0.7], so the new current value there is that
    average times the damping. *)
Example tap_then_frame_at_centre :
  ∃ v, (st ← run smallConfig [Impulse PI (PI / 2) true; Frame] (zeroState smallConfig);
        getCell (heightfieldCurrent st) 4 2) = Some v ∧
       (v == impulseStrength * 0.7 * damping smallConfig)%Q.
Proof. eexists. split; [vm_compute; reflexivity | reflexivity]. Qed.

(** ** Angles to indices *)

Section Angles.

Variable cfg : Config.

Let cols : Z := heightfieldCols cfg.
Let rows : Z := heightfieldRows cfg.

Hypothesis cols_pos : 1 ≤ cols.
Hypothesis rows_interior : 3 ≤ rows.

Lemma TWO_PI_pos : (0 < TWO_PI)%Q.
Proof. reflexivity. Qed.

(** Angles within one turn below and two turns above zero need at most
    one wrap-around. *)
Lemma validTheta_range (theta : Q) :
  (- TWO_PI <= theta)%Q → (theta < TWO_PI * 2)%Q → validTheta cfg theta.
Proof.
  intros Hlo Hhi. unfold validTheta, floor. fold cols.
  pose proof TWO_PI_pos as Hpos.
  assert (Hc : (1 <= inject_Z cols)%Q) by (rewrite <- (Zle_Qle 1); exact cols_pos).
  assert (Hq1 : (-1 <= theta / TWO_PI)%Q)
    by (apply Qle_shift_div_l; [exact Hpos | lra]).
  assert (Hq2 : (theta / TWO_PI < 2)%Q)
    by (apply Qlt_shift_div_r; [exact Hpos | lra]).
  set (y := (theta / TWO_PI)%Q) in *.
  assert (Hlo' : (inject_Z (- cols) <= y * inject_Z cols)%Q).
  { rewrite inject_Z_opp. nra. }
  assert (Hhi' : (y * inject_Z cols < inject_Z (2 * cols))%Q).
  { rewrite inject_Z_mult. change (inject_Z 2) with 2%Q. nra. }
  apply Qfloor_resp_le in Hlo'. rewrite Qfloor_Z in Hlo'.
  pose proof (Qfloor_le (y * inject_Z cols)) as Hfl.
  assert (Hlt : (inject_Z (Qfloor (y * inject_Z cols)) < inject_Z (2 * cols))%Q)
    by (eapply Qle_lt_trans; eassumption).
  rewrite <- Zlt_Qlt in Hlt. lia.
Qed.

Lemma constrain_clamp (x : Z) : constrain x 1 (rows - 2) = clamp x 1 (rows - 2).
Proof.
  unfold constrain, clamp.
  destruct (Z.ltb_spec x 1); [lia |].
  destruct (Z.ltb_spec (rows - 2) x); lia.
Qed.

(** The row index used for drawing is clamped into [[0, rows - 1]]. *)
Lemma phiIndexDrawn_clamp (phi : Q) :
  phiIndexDrawn cfg phi =
  clamp (floor ((phi / PI) * inject_Z rows)%Q) 0 (rows - 1) ∧
  0 ≤ phiIndexDrawn cfg phi ≤ rows - 1.
Proof.
  unfold phiIndexDrawn, constrain, clamp. fold rows.
  destruct (Z.ltb_spec (floor (phi / PI * inject_Z rows)) 0);
    [lia |].
  destruct (Z.ltb_spec (rows - 1) (floor (phi / PI * inject_Z rows))); lia.
Qed.

End Angles.

(** One wrap-around brings exactly the raw indices of [[-cols, 2 cols)]
    into the grid. *)
Lemma wrapTheta_range_iff (cfg : Config) (k : Z) :
  1 ≤ heightfieldCols cfg →
  0 ≤ wrapTheta cfg k < heightfieldCols cfg
  ↔ - heightfieldCols cfg ≤ k < 2 * heightfieldCols cfg.
Proof.
  intros Hcols. unfold wrapTheta.
  destruct (Z.ltb_spec k 0);
    [destruct (Z.leb_spec (heightfieldCols cfg) (k + heightfieldCols cfg))
    | destruct (Z.leb_spec (heightfieldCols cfg) k)]; lia.
Qed.

(** C7, as amended.  In binary64, as the sketch computes it: let [k] be
    [floor(theta / 2π * cols)], the floor of the rounded product.  The
    column is [k] wrapped once; it is [k mod cols] when [k] lies in
    [[-cols, 2 cols)], and it lies in [[0, cols)] for exactly those [k].
    The row of an impulse write is [floor(phi / π * rows)] clamped into
    [[1, rows - 2]], and every row the conversion yields, also for an
    infinite quotient, lies in that range.  The grid has at least one
    column and three rows, and its sizes are integers that a double holds
    exactly. *)
Theorem angle_to_index (cfg : Config) (theta phi : float) :
  1 ≤ heightfieldCols cfg ≤ 2 ^ 50 → 3 ≤ heightfieldRows cfg ≤ 2 ^ 50 →
  (∀ k, Double.rawIndex theta Double.TWO_PI (heightfieldCols cfg) = Some k →
     ∃ col, Double.thetaIndexOf cfg theta = Some col ∧
       (- heightfieldCols cfg ≤ k < 2 * heightfieldCols cfg →
        col = k mod heightfieldCols cfg) ∧
       (0 ≤ col < heightfieldCols cfg
        ↔ - heightfieldCols cfg ≤ k < 2 * heightfieldCols cfg)) ∧
  (∀ k, Double.rawIndex phi Double.PI (heightfieldRows cfg) = Some k →
     Double.phiIndexOf cfg phi = Some (clamp k 1 (heightfieldRows cfg - 2))) ∧
  (∀ row, Double.phiIndexOf cfg phi = Some row →
     1 ≤ row ≤ heightfieldRows cfg - 2).
Proof.
  intros [Hcols _] [Hrows _].
  split; [| split].
  - intros k Hk. exists (wrapTheta cfg k). unfold Double.thetaIndexOf.
    rewrite Hk. split; [reflexivity |].
    split; [apply (wrapTheta_mod cfg) | apply wrapTheta_range_iff, Hcols].
  - intros k. unfold Double.phiIndexOf, Double.rawIndex, Double.floor.
    destruct (Prim2SF _) as [s | s | | s m e]; try discriminate;
      intros [= <-]; cbn [fmap option_fmap option_map];
      rewrite (constrain_clamp cfg Hrows); reflexivity.
  - intros row. unfold Double.phiIndexOf, Double.rawIndex, Double.floor.
    destruct (Prim2SF _) as [s | [|] | | s m e]; try discriminate;
      cbn [fmap option_fmap option_map]; intros [= <-];
      try apply (constrain_interior cfg Hrows); lia.
Qed.

(** Rounding decides the cell.  The quotient of this angle by [2π], times
    [256], is below [17] and rounds to [17.0]: the sketch picks column
    [17], exact arithmetic column [16]; likewise for the row.  Two turns
    give column [256] in binary64 as in exact arithmetic. *)
Example rounding_moves_the_cell :
  Double.thetaIndexOf sketchConfig 0x1.ab41b09886fe9p-2 = Some 17 ∧
  thetaIndexOf sketchConfig (7516377611530217 # 18014398509481984) = 16 ∧
  Double.phiIndexOf sketchConfig 0x1.ab41b09886fe9p-2 = Some 17 ∧
  phiIndexOf sketchConfig (7516377611530217 # 18014398509481984) = 16 ∧
  Double.thetaIndexOf sketchConfig (Double.PI * 4) = Some 256.
Proof. repeat split; vm_compute; reflexivity. Qed.

(** The two ends of the range of [atan2], [-π] and [π], have the raw
    indices [-128] and [128] on the grid of the sketch and both land in
    column [128]. *)
Example half_turns_share_a_column :
  Double.rawIndex (- Double.PI) Double.TWO_PI (heightfieldCols sketchConfig)
  = Some (-128) ∧
  Double.rawIndex Double.PI Double.TWO_PI (heightfieldCols sketchConfig)
  = Some 128 ∧
  Double.thetaIndexOf sketchConfig (- Double.PI) = Some 128 ∧
  Double.thetaIndexOf sketchConfig Double.PI = Some 128.
Proof. repeat split; vm_compute; reflexivity. Qed.

(** ** Drag lines *)

Lemma forLoop_forEach {St : Type} (body : Z → St → option St) (n : nat) (lo : Z)
    (s : St) :
  forLoop n lo body s = forEach (seqZ lo (Z.of_nat n)) body s.
Proof.
  revert lo s. induction n as [| n IH]; intros lo s.
  - reflexivity.
  - rewrite seqZ_cons by lia. simpl.
    replace (Z.pred (Z.of_nat (S n))) with (Z.of_nat n) by lia.
    destruct (body lo s) as [s' |]; simpl; [| reflexivity].
    rewrite IH. reflexivity.
Qed.

Lemma forEach_fmap {St A B : Type} (f : A → B) (body : B → St → option St)
    (l : list A) (s : St) :
  forEach (f <$> l) body s = forEach l (λ x, body (f x)) s.
Proof.
  revert s. induction l as [| x l IH]; intros s; [reflexivity |].
  simpl. destruct (body (f x) s); simpl; [apply IH | reflexivity].
Qed.

Lemma forEach_ext {St A : Type} (body body' : A → St → option St) (l : list A)
    (s : St) :
  (∀ x t, body x t = body' x t) → forEach l body s = forEach l body' s.
Proof.
  intros Hext. revert s. induction l as [| x l IH]; intros s; [reflexivity |].
  simpl. rewrite Hext. destruct (body' x s); simpl; [apply IH | reflexivity].
Qed.

(** The drag loop stamps its centre cells one after the other. *)
Lemma pathImpulse_forEach (cfg : Config) (a pa b pb : Z) (prev : Grid) :
  pathImpulse cfg a pa b pb prev =
  forEach (pathCentres cfg a pa b pb) (pathStamp cfg) prev.
Proof.
  unfold pathImpulse, pathCentres, forLe, forLt.
  rewrite forLoop_forEach, forEach_fmap.
  assert (0 ≤ pathSteps a pa b pb) by (unfold pathSteps; lia).
  replace (Z.of_nat (Z.to_nat (pathSteps a pa b pb + 1 - 0)))
    with (pathSteps a pa b pb + 1) by lia.
  apply forEach_ext. intros s t. unfold pathStamp.
  destruct (pathCell cfg a pa b pb s). reflexivity.
Qed.

Lemma pathCell_along_row (cfg : Config) (k r s : Z) :
  0 ≤ k < heightfieldCols cfg → 1 ≤ r ≤ heightfieldRows cfg - 2 → 0 ≤ s ≤ k →
  pathCell cfg 0 r k r s = (s, r).
Proof.
  intros Hk Hr Hs.
  assert (Hsteps : pathSteps 0 r k r = k) by (unfold pathSteps; lia).
  unfold pathCell. rewrite Hsteps. unfold floor, lerp.
  assert (Hm : ¬ (inject_Z (Z.max k 1) == 0)%Q).
  { change 0%Q with (inject_Z 0). rewrite inject_Z_injective. lia. }
  assert (Hcol : (inject_Z s / inject_Z (Z.max k 1) * (inject_Z k - inject_Z 0)
                  + inject_Z 0 == inject_Z s)%Q).
  { destruct (Z.eq_dec k 0) as [-> | Hne].
    - replace s with 0 by lia. reflexivity.
    - rewrite Z.max_l in * by lia. change (inject_Z 0) with 0%Q. field. exact Hm. }
  assert (Hrow : (inject_Z s / inject_Z (Z.max k 1) * (inject_Z r - inject_Z r)
                  + inject_Z r == inject_Z r)%Q) by (field; exact Hm).
  rewrite (Qfloor_comp _ _ Hcol), (Qfloor_comp _ _ Hrow), !Qfloor_Z.
  f_equal.
  - unfold wrapTheta.
    destruct (Z.ltb_spec s 0); [lia |].
    destruct (Z.leb_spec (heightfieldCols cfg) s); [lia | reflexivity].
  - unfold constrain. lia.
Qed.

(** In exact arithmetic a drag line from index [(0, r)] to index [(k, r)],
    [r] an interior row, takes [steps = k] and stamps its centre impulse at
    exactly the [k + 1] cells [(0, r), (1, r), ..., (k, r)], in that
    order. *)
Lemma path_along_row_exact (cfg : Config) (k r : Z) :
  0 ≤ k < heightfieldCols cfg → 1 ≤ r ≤ heightfieldRows cfg - 2 →
  pathSteps 0 r k r = k ∧
  pathCentres cfg 0 r k r = (λ s, (s, r)) <$> seqZ 0 (k + 1) ∧
  ∀ prev, pathImpulse cfg 0 r k r prev =
          forEach ((λ s, (s, r)) <$> seqZ 0 (k + 1)) (pathStamp cfg) prev.
Proof.
  intros Hk Hr.
  assert (Hsteps : pathSteps 0 r k r = k) by (unfold pathSteps; lia).
  assert (Hcentres : pathCentres cfg 0 r k r = (λ s, (s, r)) <$> seqZ 0 (k + 1)).
  { unfold pathCentres. rewrite Hsteps.
    apply list_fmap_ext. intros i s Hlook.
    apply lookup_seqZ in Hlook as [-> Hi].
    apply pathCell_along_row; [exact Hk | exact Hr | lia]. }
  split; [exact Hsteps |]. split; [exact Hcentres |].
  intros prev. rewrite pathImpulse_forEach, Hcentres. reflexivity.
Qed.

(** ** Finite sums *)

Lemma sumZ_le (f g : Z → Q) (lo : Z) (n : nat) :
  (∀ k, lo ≤ k < lo + Z.of_nat n → (f k <= g k)%Q) →
  (sumZ f lo n <= sumZ g lo n)%Q.
Proof.
  revert lo. induction n as [| n IH]; intros lo Hle; simpl.
  - lra.
  - apply Qplus_le_compat; [apply Hle; lia | apply IH; intros k Hk; apply Hle; lia].
Qed.

Lemma sumZ_ext (f g : Z → Q) (lo : Z) (n : nat) :
  (∀ k, lo ≤ k < lo + Z.of_nat n → (f k == g k)%Q) →
  (sumZ f lo n == sumZ g lo n)%Q.
Proof.
  intros Heq. apply Qle_antisym; apply sumZ_le; intros k Hk;
    rewrite (Heq k Hk); lra.
Qed.

Lemma sumZ_nonneg (f : Z → Q) (lo : Z) (n : nat) :
  (∀ k, lo ≤ k < lo + Z.of_nat n → (0 <= f k)%Q) → (0 <= sumZ f lo n)%Q.
Proof.
  revert lo. induction n as [| n IH]; intros lo Hle; simpl.
  - lra.
  - assert (0 <= f lo)%Q by (apply Hle; lia).
    assert (0 <= sumZ f (lo + 1) n)%Q by (apply IH; intros k Hk; apply Hle; lia).
    lra.
Qed.

Lemma sumZ_plus (f g : Z → Q) (lo : Z) (n : nat) :
  (sumZ (λ k, f k + g k)%Q lo n == sumZ f lo n + sumZ g lo n)%Q.
Proof.
  revert lo. induction n as [| n IH]; intros lo; simpl.
  - lra.
  - rewrite IH. lra.
Qed.

Lemma sumZ_scale (c : Q) (f : Z → Q) (lo : Z) (n : nat) :
  (sumZ (λ k, c * f k)%Q lo n == c * sumZ f lo n)%Q.
Proof.
  revert lo. induction n as [| n IH]; intros lo; simpl.
  - lra.
  - rewrite IH. lra.
Qed.

Lemma sumZ_shift (f : Z → Q) (c lo : Z) (n : nat) :
  sumZ (λ k, f (k + c)) lo n = sumZ f (lo + c) n.
Proof.
  revert lo. induction n as [| n IH]; intros lo; simpl.
  - reflexivity.
  - rewrite IH. do 2 f_equal. lia.
Qed.

Lemma sumZ_snoc (f : Z → Q) (lo : Z) (n : nat) :
  (sumZ f lo (S n) == sumZ f lo n + f (lo + Z.of_nat n)%Z)%Q.
Proof.
  revert lo. induction n as [| n IH]; intros lo.
  - simpl. replace (lo + Z.of_nat 0) with lo by lia. lra.
  - change (sumZ f lo (S (S n))) with (f lo + sumZ f (lo + 1) (S n))%Q.
    rewrite IH. simpl.
    replace (lo + 1 + Z.of_nat n) with (lo + Z.of_nat (S n)) by lia. lra.
Qed.

Lemma sumZ_rot_next (f : Z → Q) (n : nat) :
  (sumZ (λ k, f ((k + 1) mod Z.of_nat n)) 0 n == sumZ f 0 n)%Q.
Proof.
  destruct n as [| m]; [reflexivity |].
  rewrite sumZ_snoc.
  rewrite (sumZ_ext _ (λ k, f (k + 1)) 0 m).
  2:{ intros k Hk. rewrite Z.mod_small by lia. reflexivity. }
  rewrite sumZ_shift. simpl sumZ at 2.
  replace ((0 + Z.of_nat m + 1) mod Z.of_nat (S m)) with 0.
  2:{ replace (0 + Z.of_nat m + 1) with (Z.of_nat (S m)) by lia.
      rewrite Z_mod_same_full. reflexivity. }
  simpl. lra.
Qed.

Lemma sumZ_rot_prev (f : Z → Q) (n : nat) :
  (sumZ (λ k, f ((k - 1) mod Z.of_nat n)) 0 n == sumZ f 0 n)%Q.
Proof.
  destruct n as [| m]; [reflexivity |].
  rewrite (sumZ_snoc f).
  simpl sumZ at 1.
  rewrite (sumZ_ext _ (λ k, f (k + -1)) (0 + 1) m).
  2:{ intros k Hk. replace (k + -1) with (k - 1) by lia.
      rewrite Z.mod_small by lia. reflexivity. }
  rewrite sumZ_shift.
  replace ((0 - 1) mod Z.of_nat (S m)) with (0 + Z.of_nat m).
  2:{ apply Z.mod_unique with (q := -1); lia. }
  replace (0 + 1 + -1) with 0 by lia. lra.
Qed.

Lemma Qsquare_nonneg (x : Q) : (0 <= x * x)%Q.
Proof. destruct x as [a b]. unfold Qle, Qmult. simpl. nia. Qed.

Lemma jensen2 (x y : Q) :
  (((x + y) * (1 # 2)) * ((x + y) * (1 # 2)) <= (x * x + y * y) * (1 # 2))%Q.
Proof.
  pose proof (Qsquare_nonneg (x - y)) as Hsq.
  assert (Heq : ((x * x + y * y) * (1 # 2) - ((x + y) * (1 # 2)) * ((x + y) * (1 # 2))
                 == (x - y) * (x - y) * (1 # 4))%Q) by ring.
  lra.
Qed.

Lemma jensen8 (a b c d e f g h : Q) :
  (((a + b + c + d + e + f + g + h) / 8) * ((a + b + c + d + e + f + g + h) / 8)
   <= (a * a + b * b + c * c + d * d + e * e + f * f + g * g + h * h) / 8)%Q.
Proof.
  set (ab := ((a + b) * (1 # 2))%Q). set (cd := ((c + d) * (1 # 2))%Q).
  set (ef := ((e + f) * (1 # 2))%Q). set (gh := ((g + h) * (1 # 2))%Q).
  set (abcd := ((ab + cd) * (1 # 2))%Q). set (efgh := ((ef + gh) * (1 # 2))%Q).
  pose proof (jensen2 a b) as H1. pose proof (jensen2 c d) as H2.
  pose proof (jensen2 e f) as H3. pose proof (jensen2 g h) as H4.
  pose proof (jensen2 ab cd) as H5. pose proof (jensen2 ef gh) as H6.
  pose proof (jensen2 abcd efgh) as H7.
  fold ab in H1. fold cd in H2. fold ef in H3. fold gh in H4.
  fold abcd in H5. fold efgh in H6.
  assert (Hl : ((a + b + c + d + e + f + g + h) / 8 == (abcd + efgh) * (1 # 2))%Q)
    by (unfold abcd, efgh, ab, cd, ef, gh; field).
  assert (Hr : ((a * a + b * b + c * c + d * d + e * e + f * f + g * g + h * h) / 8
                == (a * a + b * b + c * c + d * d + e * e + f * f + g * g + h * h)
                   * (1 # 8))%Q) by field.
  rewrite Hl, Hr.
  generalize dependent (ab * ab)%Q. generalize dependent (cd * cd)%Q.
  generalize dependent (ef * ef)%Q. generalize dependent (gh * gh)%Q.
  generalize dependent (abcd * abcd)%Q. generalize dependent (efgh * efgh)%Q.
  generalize dependent ((abcd + efgh) * (1 # 2) * ((abcd + efgh) * (1 # 2)))%Q.
  intros. lra.
Qed.

(** ** Energy of a step from rest *)

Section Energy.

Variable cfg : Config.

Let cols : Z := heightfieldCols cfg.
Let rows : Z := heightfieldRows cfg.

Lemma sumGrid_le (f g : Z → Z → Q) :
  (∀ i j, 0 ≤ i < cols → 0 ≤ j < rows → (f i j <= g i j)%Q) →
  (sumGrid cfg f <= sumGrid cfg g)%Q.
Proof.
  intros Hle. unfold sumGrid. fold cols rows.
  apply sumZ_le. intros i Hi. apply sumZ_le. intros j Hj. apply Hle; lia.
Qed.

Lemma sumGrid_plus (f g : Z → Z → Q) :
  (sumGrid cfg (λ i j, f i j + g i j)%Q == sumGrid cfg f + sumGrid cfg g)%Q.
Proof.
  unfold sumGrid. rewrite <- sumZ_plus.
  apply sumZ_ext. intros i _. apply sumZ_plus.
Qed.

Lemma sumGrid_scale (c : Q) (f : Z → Z → Q) :
  (sumGrid cfg (λ i j, c * f i j)%Q == c * sumGrid cfg f)%Q.
Proof.
  unfold sumGrid. rewrite <- sumZ_scale.
  apply sumZ_ext. intros i _. apply sumZ_scale.
Qed.

(** A cell outside the rows of a well-formed grid reads as zero. *)
Lemma cellAt_outside (g : Grid) (i j : Z) :
  wfGrid cfg g → j < 0 ∨ rows ≤ j → cellAt g i j = 0%Q.
Proof.
  intros [Hlen Hall] Hj. unfold cellAt, getCell.
  destruct (JsArray.get g i) as [col |] eqn:Hcol; simpl; [| reflexivity].
  unfold JsArray.get in *.
  destruct (Z.ltb_spec i 0); [discriminate |].
  destruct (Z.ltb_spec j 0); [reflexivity |].
  assert (Hc : length col = Z.to_nat rows)
    by exact (proj1 (Forall_lookup _ _) Hall _ _ Hcol).
  rewrite lookup_ge_None_2 by lia. reflexivity.
Qed.

(** A window of [n] rows shifted by one row holds no more than rows
    [0] to [n - 1] do, when nothing lies outside them. *)
Lemma sumZ_window (h : Z → Q) (dj : Z) (n : nat) :
  (∀ k, (0 <= h k)%Q) → (h (-1)%Z == 0)%Q → (h (Z.of_nat n) == 0)%Q →
  -1 ≤ dj ≤ 1 →
  (sumZ (λ j, h (j + dj)%Z) 0 n <= sumZ h 0 n)%Q.
Proof.
  intros Hpos Hbelow Habove Hdj. rewrite sumZ_shift.
  destruct n as [| m]; [simpl; lra |].
  assert (dj = -1 ∨ dj = 0 ∨ dj = 1) as [-> | [-> | ->]] by lia.
  - rewrite (sumZ_snoc h 0). simpl.
    change (0 + -1 + 1) with 0. change (0 + -1) with (-1).
    pose proof (Hpos (0 + Z.of_nat m)). lra.
  - change (0 + 0) with 0. lra.
  - rewrite (sumZ_snoc h (0 + 1)). simpl.
    replace (0 + 1 + Z.of_nat m) with (Z.of_nat (S m)) by lia.
    pose proof (Hpos 0). lra.
Qed.

Lemma sumZ_columnShift (F : Z → Q) (rot : Z → Z) :
  columnShift cfg rot →
  (sumZ (λ i, F (rot i)) 0 (Z.to_nat cols) == sumZ F 0 (Z.to_nat cols))%Q.
Proof.
  intros [Hrot | [Hrot | Hrot]].
  - destruct (Z.le_gt_cases 0 cols) as [Hc | Hc].
    + rewrite <- (sumZ_rot_prev F (Z.to_nat cols)).
      apply sumZ_ext. intros i _. rewrite Hrot, Z2Nat.id by lia. reflexivity.
    + replace (Z.to_nat cols) with O by lia. reflexivity.
  - apply sumZ_ext. intros i Hi. rewrite Hrot by lia. reflexivity.
  - destruct (Z.le_gt_cases 0 cols) as [Hc | Hc].
    + rewrite <- (sumZ_rot_next F (Z.to_nat cols)).
      apply sumZ_ext. intros i _. rewrite Hrot, Z2Nat.id by lia. reflexivity.
    + replace (Z.to_nat cols) with O by lia. reflexivity.
Qed.

(** One neighbour direction contributes at most the energy of the whole
    buffer. *)
Lemma neighbour_energy (g : Grid) (rot : Z → Z) (dj : Z) :
  wfGrid cfg g → columnShift cfg rot → -1 ≤ dj ≤ 1 →
  (sumGrid cfg (λ i j, cellAt g (rot i) (j + dj)%Z * cellAt g (rot i) (j + dj)%Z)%Q
   <= energy cfg g)%Q.
Proof.
  intros Hwf Hrot Hdj. unfold energy, sumGrid. fold cols rows.
  rewrite (sumZ_columnShift
    (λ i', sumZ (λ j, cellAt g i' (j + dj)%Z * cellAt g i' (j + dj)%Z)%Q
                0 (Z.to_nat rows)) rot Hrot).
  apply sumZ_le. intros i _.
  apply (sumZ_window (λ j, cellAt g i j * cellAt g i j)%Q dj (Z.to_nat rows)).
  - intros k. apply Qsquare_nonneg.
  - rewrite (cellAt_outside g i (-1) Hwf) by lia. reflexivity.
  - rewrite (cellAt_outside g i _ Hwf) by lia. reflexivity.
  - exact Hdj.
Qed.

Lemma energy_nonneg (g : Grid) : (0 <= energy cfg g)%Q.
Proof.
  unfold energy, sumGrid. apply sumZ_nonneg. intros i _.
  apply sumZ_nonneg. intros j _. apply Qsquare_nonneg.
Qed.

Lemma sumGrid_plus8 (f1 f2 f3 f4 f5 f6 f7 f8 : Z → Z → Q) :
  (sumGrid cfg (λ i j, f1 i j + f2 i j + f3 i j + f4 i j
                       + f5 i j + f6 i j + f7 i j + f8 i j)%Q
   == sumGrid cfg f1 + sumGrid cfg f2 + sumGrid cfg f3 + sumGrid cfg f4
      + sumGrid cfg f5 + sumGrid cfg f6 + sumGrid cfg f7 + sumGrid cfg f8)%Q.
Proof.
  rewrite <- (sumGrid_plus f1 f2).
  rewrite <- (sumGrid_plus (λ i j, f1 i j + f2 i j)%Q f3).
  rewrite <- (sumGrid_plus (λ i j, f1 i j + f2 i j + f3 i j)%Q f4).
  rewrite <- (sumGrid_plus (λ i j, f1 i j + f2 i j + f3 i j + f4 i j)%Q f5).
  rewrite <- (sumGrid_plus
    (λ i j, f1 i j + f2 i j + f3 i j + f4 i j + f5 i j)%Q f6).
  rewrite <- (sumGrid_plus
    (λ i j, f1 i j + f2 i j + f3 i j + f4 i j + f5 i j + f6 i j)%Q f7).
  rewrite <- (sumGrid_plus
    (λ i j, f1 i j + f2 i j + f3 i j + f4 i j + f5 i j + f6 i j + f7 i j)%Q f8).
  reflexivity.
Qed.

Lemma Qmult_le_nonneg_l (x y z : Q) :
  (0 <= z)%Q → (x <= y)%Q → (z * x <= z * y)%Q.
Proof.
  intros Hz Hxy. rewrite (Qmult_comm z x), (Qmult_comm z y).
  apply Qmult_le_compat_r; assumption.
Qed.

Lemma sumZ_zero (f : Z → Q) (lo : Z) (n : nat) :
  (∀ k, lo ≤ k < lo + Z.of_nat n → (f k == 0)%Q) → (sumZ f lo n == 0)%Q.
Proof.
  revert lo. induction n as [| n IH]; intros lo Hz; simpl.
  - reflexivity.
  - rewrite (Hz lo) by lia. rewrite IH by (intros k Hk; apply Hz; lia). lra.
Qed.

Lemma sumZ_ge_term (f : Z → Q) (lo : Z) (n : nat) (k : Z) :
  (∀ k, lo ≤ k < lo + Z.of_nat n → (0 <= f k)%Q) →
  lo ≤ k < lo + Z.of_nat n → (f k <= sumZ f lo n)%Q.
Proof.
  revert lo. induction n as [| n IH]; intros lo Hpos Hk; [lia |]. simpl.
  assert (H0 : (0 <= f lo)%Q) by (apply Hpos; lia).
  assert (Hrest : (0 <= sumZ f (lo + 1) n)%Q)
    by (apply sumZ_nonneg; intros k' Hk'; apply Hpos; lia).
  destruct (Z.eq_dec k lo) as [-> | Hne]; [lra |].
  assert (f k <= sumZ f (lo + 1) n)%Q
    by (apply IH; [intros k' Hk'; apply Hpos; lia | lia]).
  lra.
Qed.

Lemma Qsquare_pos (x : Q) : ¬ (x == 0)%Q → (0 < x * x)%Q.
Proof.
  intros Hne. destruct x as [a b]. unfold Qeq, Qlt, Qmult in *. simpl in *. nia.
Qed.

Lemma energy_zero (g : Grid) :
  (∀ i j, (cellAt g i j == 0)%Q) → (energy cfg g == 0)%Q.
Proof.
  intros Hz. unfold energy, sumGrid. apply sumZ_zero. intros i _.
  apply sumZ_zero. intros j _. rewrite (Hz i j). lra.
Qed.

Lemma energy_pos (g : Grid) (i j : Z) :
  0 ≤ i < cols → 0 ≤ j < rows → ¬ (cellAt g i j == 0)%Q →
  (0 < energy cfg g)%Q.
Proof.
  intros Hi Hj Hne. unfold energy, sumGrid. fold cols rows.
  pose proof (Qsquare_pos _ Hne) as Hcell.
  assert (Hrow : (cellAt g i j * cellAt g i j
                  <= sumZ (λ j, cellAt g i j * cellAt g i j) 0 (Z.to_nat rows))%Q).
  { apply (sumZ_ge_term (λ j, cellAt g i j * cellAt g i j)%Q);
      [intros k _; apply Qsquare_nonneg | lia]. }
  assert (Hcol : (sumZ (λ j, cellAt g i j * cellAt g i j) 0 (Z.to_nat rows)
                  <= sumZ (λ i, sumZ (λ j, cellAt g i j * cellAt g i j)
                                     0 (Z.to_nat rows)) 0 (Z.to_nat cols))%Q).
  { apply (sumZ_ge_term
      (λ i, sumZ (λ j, cellAt g i j * cellAt g i j) 0 (Z.to_nat rows))%Q);
      [| lia].
    intros k _. apply sumZ_nonneg. intros k' _. apply Qsquare_nonneg. }
  lra.
Qed.

(** The square of a stepped cell, when the current buffer is at rest, is
    at most [damping² / 8] times the squares of the eight neighbours. *)
Lemma steppedCell_square (cur prev : Grid) (i j : Z) :
  (∀ i j, (cellAt cur i j == 0)%Q) →
  (steppedCell cfg cur prev i j * steppedCell cfg cur prev i j
   <= damping cfg * damping cfg * (1 # 8)
      * (cellAt prev ((i - 1) mod cols) (j + 0) * cellAt prev ((i - 1) mod cols) (j + 0)
         + cellAt prev ((i + 1) mod cols) (j + 0) * cellAt prev ((i + 1) mod cols) (j + 0)
         + cellAt prev i (j + -1) * cellAt prev i (j + -1)
         + cellAt prev i (j + 1) * cellAt prev i (j + 1)
         + cellAt prev ((i - 1) mod cols) (j + -1) * cellAt prev ((i - 1) mod cols) (j + -1)
         + cellAt prev ((i - 1) mod cols) (j + 1) * cellAt prev ((i - 1) mod cols) (j + 1)
         + cellAt prev ((i + 1) mod cols) (j + -1) * cellAt prev ((i + 1) mod cols) (j + -1)
         + cellAt prev ((i + 1) mod cols) (j + 1) * cellAt prev ((i + 1) mod cols) (j + 1)))%Q.
Proof.
  intros Hrest. rewrite !Z.add_0_r. change (j + -1) with (j - 1).
  set (a := cellAt prev ((i - 1) mod cols) j).
  set (b := cellAt prev ((i + 1) mod cols) j).
  set (c := cellAt prev i (j - 1)). set (d := cellAt prev i (j + 1)).
  set (e := cellAt prev ((i - 1) mod cols) (j - 1)).
  set (f := cellAt prev ((i - 1) mod cols) (j + 1)).
  set (g := cellAt prev ((i + 1) mod cols) (j - 1)).
  set (h := cellAt prev ((i + 1) mod cols) (j + 1)).
  pose proof (Qsquare_nonneg (damping cfg)) as Hd.
  pose proof (Qsquare_nonneg a). pose proof (Qsquare_nonneg b).
  pose proof (Qsquare_nonneg c). pose proof (Qsquare_nonneg d).
  pose proof (Qsquare_nonneg e). pose proof (Qsquare_nonneg f).
  pose proof (Qsquare_nonneg g). pose proof (Qsquare_nonneg h).
  assert (Hsum : (0 <= a * a + b * b + c * c + d * d
                       + e * e + f * f + g * g + h * h)%Q) by lra.
  unfold steppedCell. case_decide.
  - unfold waveValue, neighbourSum. fold cols.
    fold a b c d e f g h. rewrite (Hrest i j).
    pose proof (jensen8 a b c d e f g h) as Hj.
    set (u := ((a + b + c + d + e + f + g + h) / 8)%Q) in *.
    assert (Hl : (damping cfg * (u - 0) * (damping cfg * (u - 0))
                  == (u * u) * (damping cfg * damping cfg))%Q) by ring.
    assert (Hr : (damping cfg * damping cfg * (1 # 8)
                  * (a * a + b * b + c * c + d * d + e * e + f * f + g * g + h * h)
                  == (a * a + b * b + c * c + d * d + e * e + f * f + g * g + h * h) / 8
                     * (damping cfg * damping cfg))%Q) by field.
    rewrite Hl, Hr. apply Qmult_le_compat_r; assumption.
  - rewrite Qmult_0_l.
    apply Qmult_le_0_compat; [| exact Hsum].
    apply Qmult_le_0_compat; [exact Hd | discriminate].
Qed.

Lemma stepped_energy (cur prev : Grid) :
  wfGrid cfg prev → (∀ i j, (cellAt cur i j == 0)%Q) →
  (sumGrid cfg (λ i j, steppedCell cfg cur prev i j * steppedCell cfg cur prev i j)
   <= damping cfg * damping cfg * energy cfg prev)%Q.
Proof.
  intros Hwf Hrest.
  pose (sq := λ (rot : Z → Z) (dj i j : Z),
          (cellAt prev (rot i) (j + dj) * cellAt prev (rot i) (j + dj))%Q).
  pose (prv := λ i, (i - 1) mod cols). pose (nxt := λ i, (i + 1) mod cols).
  pose (same := λ i : Z, i).
  assert (Hprv : columnShift cfg prv) by (left; reflexivity).
  assert (Hnxt : columnShift cfg nxt) by (right; right; reflexivity).
  assert (Hsame : columnShift cfg same) by (right; left; reflexivity).
  assert (Hterm : ∀ rot dj, columnShift cfg rot → -1 ≤ dj ≤ 1 →
            (sumGrid cfg (sq rot dj) <= energy cfg prev)%Q)
    by (intros rot dj Hrot Hdj; apply (neighbour_energy prev rot dj Hwf Hrot Hdj)).
  pose proof (Hterm prv 0 Hprv ltac:(lia)) as H1.
  pose proof (Hterm nxt 0 Hnxt ltac:(lia)) as H2.
  pose proof (Hterm same (-1) Hsame ltac:(lia)) as H3.
  pose proof (Hterm same 1 Hsame ltac:(lia)) as H4.
  pose proof (Hterm prv (-1) Hprv ltac:(lia)) as H5.
  pose proof (Hterm prv 1 Hprv ltac:(lia)) as H6.
  pose proof (Hterm nxt (-1) Hnxt ltac:(lia)) as H7.
  pose proof (Hterm nxt 1 Hnxt ltac:(lia)) as H8.
  pose proof (sumGrid_plus8 (sq prv 0) (sq nxt 0) (sq same (-1)) (sq same 1)
                (sq prv (-1)) (sq prv 1) (sq nxt (-1)) (sq nxt 1)) as Hsplit.
  pose proof (sumGrid_scale (damping cfg * damping cfg * (1 # 8))
    (λ i j, sq prv 0%Z i j + sq nxt 0%Z i j + sq same (-1)%Z i j + sq same 1%Z i j
            + sq prv (-1)%Z i j + sq prv 1%Z i j + sq nxt (-1)%Z i j
            + sq nxt 1%Z i j)%Q)
    as Hscale.
  rewrite Hsplit in Hscale.
  assert (Hcells :
    (sumGrid cfg (λ i j, steppedCell cfg cur prev i j * steppedCell cfg cur prev i j)
     <= sumGrid cfg (λ i j, damping cfg * damping cfg * (1 # 8)
          * (sq prv 0%Z i j + sq nxt 0%Z i j + sq same (-1)%Z i j
             + sq same 1%Z i j + sq prv (-1)%Z i j + sq prv 1%Z i j
             + sq nxt (-1)%Z i j + sq nxt 1%Z i j)))%Q).
  { apply sumGrid_le. intros i j _ _. apply (steppedCell_square cur prev i j Hrest). }
  pose proof (Qsquare_nonneg (damping cfg)) as Hd.
  set (E := energy cfg prev) in *.
  set (dd := (damping cfg * damping cfg)%Q) in *.
  assert (Hbound : (dd * (1 # 8)
            * (sumGrid cfg (sq prv 0%Z) + sumGrid cfg (sq nxt 0%Z)
               + sumGrid cfg (sq same (-1)%Z) + sumGrid cfg (sq same 1%Z)
               + sumGrid cfg (sq prv (-1)%Z) + sumGrid cfg (sq prv 1%Z)
               + sumGrid cfg (sq nxt (-1)%Z) + sumGrid cfg (sq nxt 1%Z))
            <= dd * (1 # 8) * (8 * E))%Q).
  { apply Qmult_le_nonneg_l; [| lra].
    apply Qmult_le_0_compat; [exact Hd | discriminate]. }
  assert (Hfin : (dd * (1 # 8) * (8 * E) == dd * E)%Q) by ring.
  lra.
Qed.

End Energy.

(** C3, as amended.  When the current buffer is at rest (all zero, as right
    after an impulse on still water) and [0 <= damping < 1], a step succeeds
    and does not increase the total squared energy of the two buffers, and
    strictly decreases it when some cell of the previous buffer is
    non-zero. *)
Theorem step_from_rest_loses_energy (cfg : Config) (st : State) :
  wfState cfg st → (0 <= damping cfg)%Q → (damping cfg < 1)%Q →
  (∀ i j, (cellAt (heightfieldCurrent st) i j == 0)%Q) →
  ∃ st', updateHeightfield cfg st = Some st' ∧
         (totalEnergy cfg st' <= totalEnergy cfg st)%Q ∧
         ((∃ i j, 0 ≤ i < heightfieldCols cfg ∧ 0 ≤ j < heightfieldRows cfg ∧
                  ¬ (cellAt (heightfieldPrevious st) i j == 0)%Q) →
          (totalEnergy cfg st' < totalEnergy cfg st)%Q).
Proof.
  intros Hwf Hd0 Hd1 Hrest.
  destruct (updateHeightfield_spec cfg st Hwf) as (new & Hrun & _ & Hcells).
  eexists. split; [exact Hrun |]. unfold totalEnergy. simpl.
  set (cur := heightfieldCurrent st) in *.
  set (prev := heightfieldPrevious st) in *.
  assert (Hnew : (energy cfg new
                  == sumGrid cfg (λ i j, steppedCell cfg cur prev i j
                                         * steppedCell cfg cur prev i j))%Q).
  { unfold energy, sumGrid. apply sumZ_ext. intros i Hi.
    apply sumZ_ext. intros j Hj.
    unfold cellAt at 1 2. rewrite Hcells by lia. reflexivity. }
  pose proof (stepped_energy cfg cur prev (proj2 Hwf) Hrest) as Hstep.
  pose proof (energy_zero cfg cur Hrest) as Hzero.
  pose proof (energy_nonneg cfg prev) as Hpos.
  assert (Hdd : (damping cfg * damping cfg <= damping cfg)%Q).
  { rewrite <- (Qmult_1_r (damping cfg)) at 3.
    apply Qmult_le_nonneg_l; [exact Hd0 | lra]. }
  set (E := energy cfg prev) in *. set (d := damping cfg) in *.
  assert (Hmono : (d * d * E <= d * E)%Q)
    by (apply Qmult_le_compat_r; assumption).
  assert (Hmono' : (d * E <= 1 * E)%Q)
    by (apply Qmult_le_compat_r; [lra | assumption]).
  split; [lra |].
  intros (i & j & Hi & Hj & Hne).
  pose proof (energy_pos cfg prev i j Hi Hj Hne) as Hstrict. fold E in Hstrict.
  assert (Hlt : (d * E < 1 * E)%Q) by (apply Qmult_lt_compat_r; assumption).
  lra.
Qed.

(** ** The centre cell of an impulse *)

Section Centre.

Variable cfg : Config.

Let cols : Z := heightfieldCols cfg.
Let rows : Z := heightfieldRows cfg.

Hypothesis cols_pos : 1 ≤ cols.
Hypothesis rows_interior : 3 ≤ rows.

Lemma offsets_range :
  Forall (λ o : Z * Z, -1 ≤ o.1 ≤ 1 ∧ -1 ≤ o.2 ≤ 1 ∧ o ≠ (0, 0)) offsets.
Proof. unfold offsets. repeat constructor; simpl; (lia || congruence). Qed.

(** On rows [1] and [rows - 2] the clamped neighbour above or below the
    centre is the centre itself. *)
Lemma centre_is_target_on_edge_rows (ti pi : Z) :
  0 ≤ ti < cols → pi = 1 ∨ pi = rows - 2 →
  (ti, pi) ∈ neighbourTargets cfg ti pi.
Proof.
  intros Hi Hrow. unfold neighbourTargets, offsets. fold cols rows. simpl.
  assert (Hcol : Z.rem (ti + 0 + cols) cols = ti).
  { rewrite (wrap_offset cfg cols_pos) by (fold cols; lia).
    fold cols. rewrite Z.add_0_r. apply Z.mod_small. lia. }
  rewrite Hcol. destruct Hrow as [-> | ->].
  - do 3 apply list_elem_of_further.
    replace (constrain (1 + -1) 1 (rows - 2)) with 1 by (unfold constrain; lia).
    apply list_elem_of_here.
  - do 4 apply list_elem_of_further.
    replace (constrain (rows - 2 + 1) 1 (rows - 2)) with (rows - 2)
      by (unfold constrain; lia).
    apply list_elem_of_here.
Qed.

(** A point impulse on row [1] or [rows - 2] leaves the neighbour value,
    not the full strength, in its centre cell. *)
Lemma pointImpulse_edge_row (ti pi : Z) (g : Grid) :
  wfGrid cfg g → 0 ≤ ti < cols → pi = 1 ∨ pi = rows - 2 →
  ∃ g', pointImpulse cfg ti pi g = Some g' ∧
        getCell g' ti pi = Some (impulseStrength * 0.7)%Q.
Proof.
  intros Hwf Hi Hrow.
  destruct (stamp_spec cfg cols_pos rows_interior ti pi impulseStrength
              (impulseStrength * 0.7)%Q g Hwf Hi) as (g' & Hrun & _ & Hget);
    [fold rows; lia |].
  exists g'. split; [exact Hrun |].
  rewrite Hget, decide_True; [reflexivity |].
  apply centre_is_target_on_edge_rows; assumption.
Qed.

Lemma neighbour_column_differs (ti di : Z) :
  2 ≤ cols → 0 ≤ ti < cols → di = -1 ∨ di = 1 → (ti + di) mod cols ≠ ti.
Proof.
  intros Hc Hi [-> | ->].
  - destruct (Z.eq_dec ti 0) as [-> | Hne].
    + replace ((0 + -1) mod cols) with (cols - 1);
        [lia | apply Z.mod_unique with (q := -1); lia].
    + rewrite Z.mod_small by lia. lia.
  - destruct (Z.eq_dec ti (cols - 1)) as [-> | Hne].
    + replace (cols - 1 + 1) with cols by lia. rewrite Z_mod_same_full. lia.
    + rewrite Z.mod_small by lia. lia.
Qed.

(** Off the two edge rows the targets are the eight neighbours. *)
Lemma neighbourTargets_inner (ti pi : Z) :
  0 ≤ ti < cols → 2 ≤ pi ≤ rows - 3 →
  neighbourTargets cfg ti pi =
  (λ o : Z * Z, ((ti + o.1) mod cols, pi + o.2)) <$> offsets.
Proof.
  intros Hi Hj. unfold neighbourTargets. fold cols rows.
  apply Forall_fmap_ext_1. unfold offsets.
  repeat constructor; simpl;
    (rewrite (wrap_offset cfg cols_pos) by (fold cols; lia)); fold cols;
    f_equal; unfold constrain; lia.
Qed.

(** Off the edge rows, and with at least two columns, no neighbour write
    lands on the centre. *)
Lemma centre_not_target_inner (ti pi : Z) :
  2 ≤ cols → 0 ≤ ti < cols → 2 ≤ pi ≤ rows - 3 →
  (ti, pi) ∉ neighbourTargets cfg ti pi.
Proof.
  intros Hc Hi Hj. rewrite (neighbourTargets_inner ti pi Hi Hj).
  intros Hin. apply list_elem_of_fmap in Hin as ([di dj] & Heq & Ho).
  pose proof offsets_range as Hall. rewrite Forall_forall in Hall.
  apply list_elem_of_In, Hall in Ho as (Hdi & Hdj & Hne).
  simpl in *. inversion Heq as [[Hcol Hrow]].
  assert (dj = 0) by lia. subst dj.
  assert (di = -1 ∨ di = 1) as Hd
    by (destruct (Z.eq_dec di 0); [congruence | lia]).
  symmetry in Hcol. exact (neighbour_column_differs ti di Hc Hi Hd Hcol).
Qed.

(** Off the edge rows, and with at least two columns, a point impulse
    leaves the full strength in its centre cell, [strength * 0.7] in the
    eight neighbours, and every other cell as it was. *)
Lemma pointImpulse_inner_row (ti pi : Z) (g : Grid) :
  2 ≤ cols → wfGrid cfg g → 0 ≤ ti < cols → 2 ≤ pi ≤ rows - 3 →
  ∃ g', pointImpulse cfg ti pi g = Some g' ∧
        getCell g' ti pi = Some impulseStrength ∧
        (∀ o, o ∈ offsets →
           getCell g' ((ti + o.1) mod cols) (pi + o.2)
           = Some (impulseStrength * 0.7)%Q) ∧
        (∀ i j, (i, j) ≠ (ti, pi) →
           (∀ o, o ∈ offsets → (i, j) ≠ ((ti + o.1) mod cols, pi + o.2)) →
           getCell g' i j = getCell g i j).
Proof.
  intros Hc Hwf Hi Hj.
  destruct (stamp_spec cfg cols_pos rows_interior ti pi impulseStrength
              (impulseStrength * 0.7)%Q g Hwf Hi) as (g' & Hrun & _ & Hget);
    [fold rows; lia |].
  rewrite (neighbourTargets_inner ti pi Hi Hj) in Hget.
  exists g'. split; [exact Hrun |]. split; [| split].
  - rewrite Hget, decide_False.
    + rewrite decide_True by (split; reflexivity). reflexivity.
    + rewrite <- (neighbourTargets_inner ti pi Hi Hj).
      apply centre_not_target_inner; assumption.
  - intros o Ho. rewrite Hget, decide_True; [reflexivity |].
    apply list_elem_of_fmap. exists o. split; [reflexivity | exact Ho].
  - intros i j Hcentre Hothers. rewrite Hget, decide_False, decide_False.
    + reflexivity.
    + intros [-> ->]. apply Hcentre. reflexivity.
    + intros Hin. apply list_elem_of_fmap in Hin as (o & Heq & Ho).
      exact (Hothers o Ho Heq).
Qed.

End Centre.

(** ** Drag lines in exact arithmetic *)

(** Numbers at most one apart have floors at most one apart. *)
Lemma floor_near (x y : Q) :
  (x - 1 <= y)%Q → (y <= x + 1)%Q → -1 ≤ floor y - floor x ≤ 1.
Proof.
  intros Hlo Hhi. unfold floor.
  pose proof (Qfloor_le x) as Hx1. pose proof (Qlt_floor x) as Hx2.
  pose proof (Qfloor_le y) as Hy1. pose proof (Qlt_floor y) as Hy2.
  rewrite inject_Z_plus in Hx2, Hy2. change (inject_Z 1) with 1%Q in Hx2, Hy2.
  assert (H1 : (inject_Z (Qfloor y) < inject_Z (Qfloor x + 2))%Q).
  { rewrite inject_Z_plus. change (inject_Z 2) with 2%Q. lra. }
  assert (H2 : (inject_Z (Qfloor x) < inject_Z (Qfloor y + 2))%Q).
  { rewrite inject_Z_plus. change (inject_Z 2) with 2%Q. lra. }
  rewrite <- Zlt_Qlt in H1, H2. lia.
Qed.

(** One more iteration moves the interpolated value by [(b - a) / steps]. *)
Lemma lerp_step (a b s n : Z) :
  1 ≤ n → Z.abs (b - a) ≤ n →
  (lerp (inject_Z a) (inject_Z b) (inject_Z s / inject_Z n) - 1
   <= lerp (inject_Z a) (inject_Z b) (inject_Z (s + 1) / inject_Z n))%Q ∧
  (lerp (inject_Z a) (inject_Z b) (inject_Z (s + 1) / inject_Z n)
   <= lerp (inject_Z a) (inject_Z b) (inject_Z s / inject_Z n) + 1)%Q.
Proof.
  intros Hn Hd. unfold lerp.
  assert (HN : (0 < inject_Z n)%Q) by (rewrite <- (Zlt_Qlt 0); lia).
  assert (Hne : ¬ (inject_Z n == 0)%Q) by lra.
  assert (Hd' : (inject_Z b - inject_Z a == inject_Z (b - a))%Q).
  { unfold Z.sub, Qminus. rewrite inject_Z_plus, inject_Z_opp. reflexivity. }
  assert (Hlo : (- inject_Z n <= inject_Z b - inject_Z a)%Q).
  { rewrite Hd', <- inject_Z_opp, <- Zle_Qle. lia. }
  assert (Hhi : (inject_Z b - inject_Z a <= inject_Z n)%Q).
  { rewrite Hd', <- Zle_Qle. lia. }
  set (r := ((inject_Z b - inject_Z a) / inject_Z n)%Q).
  assert (Hr1 : (-1 <= r)%Q) by (apply Qle_shift_div_l; [exact HN | lra]).
  assert (Hr2 : (r <= 1)%Q) by (apply Qle_shift_div_r; [exact HN | lra]).
  assert (Heq : (inject_Z (s + 1) / inject_Z n * (inject_Z b - inject_Z a)
                 + inject_Z a
                 == inject_Z s / inject_Z n * (inject_Z b - inject_Z a)
                    + inject_Z a + r)%Q).
  { unfold r. rewrite inject_Z_plus. change (inject_Z 1) with 1%Q.
    field. exact Hne. }
  rewrite Heq. split; lra.
Qed.

Section DragLine.

Variable cfg : Config.

Let cols : Z := heightfieldCols cfg.
Let rows : Z := heightfieldRows cfg.

Hypothesis cols_pos : 1 ≤ cols.
Hypothesis rows_interior : 3 ≤ rows.

(** Between valid end points the interpolated cell needs no wrap-around
    and no clamping. *)
Lemma pathCell_raw (a pa b pb s : Z) :
  0 ≤ a < cols → 0 ≤ b < cols → 1 ≤ pa ≤ rows - 2 → 1 ≤ pb ≤ rows - 2 →
  0 ≤ s ≤ pathSteps a pa b pb →
  pathCell cfg a pa b pb s =
  (floor (lerp (inject_Z a) (inject_Z b)
            (inject_Z s / inject_Z (Z.max (pathSteps a pa b pb) 1))),
   floor (lerp (inject_Z pa) (inject_Z pb)
            (inject_Z s / inject_Z (Z.max (pathSteps a pa b pb) 1)))).
Proof.
  intros Ha Hb Hpa Hpb Hs. unfold pathCell. fold cols rows.
  assert (Ht : (0 <= inject_Z s / inject_Z (Z.max (pathSteps a pa b pb) 1) <= 1)%Q)
    by (apply unit_fraction; lia).
  pose proof (floor_lerp_between a b _ Ht) as Hcol.
  pose proof (floor_lerp_between pa pb _ Ht) as Hrow.
  f_equal.
  - apply (wrapTheta_id cfg cols_pos). fold cols. lia.
  - unfold constrain. lia.
Qed.

(** Consecutive centre cells are at most one column and one row apart. *)
Lemma pathCell_adjacent (a pa b pb s : Z) :
  0 ≤ a < cols → 0 ≤ b < cols → 1 ≤ pa ≤ rows - 2 → 1 ≤ pb ≤ rows - 2 →
  0 ≤ s < pathSteps a pa b pb →
  -1 ≤ (pathCell cfg a pa b pb (s + 1)).1 - (pathCell cfg a pa b pb s).1 ≤ 1 ∧
  -1 ≤ (pathCell cfg a pa b pb (s + 1)).2 - (pathCell cfg a pa b pb s).2 ≤ 1.
Proof.
  intros Ha Hb Hpa Hpb Hs.
  rewrite !pathCell_raw by (assumption || lia). cbn [fst snd].
  assert (Hn : 1 ≤ pathSteps a pa b pb) by lia.
  rewrite Z.max_l by lia.
  assert (Hda : Z.abs (b - a) ≤ pathSteps a pa b pb) by (unfold pathSteps; lia).
  assert (Hdp : Z.abs (pb - pa) ≤ pathSteps a pa b pb) by (unfold pathSteps; lia).
  destruct (lerp_step a b s _ Hn Hda) as [H1 H2].
  destruct (lerp_step pa pb s _ Hn Hdp) as [H3 H4].
  split; apply floor_near; assumption.
Qed.

(** The last centre cell is the end point of the drag. *)
Lemma pathCell_last (a pa b pb : Z) :
  0 ≤ b < cols → 1 ≤ pb ≤ rows - 2 →
  pathCell cfg a pa b pb (pathSteps a pa b pb) = (b, pb).
Proof.
  intros Hb Hpb. unfold pathCell. fold cols rows.
  set (n := pathSteps a pa b pb).
  assert (Hn : 0 ≤ n) by (unfold n, pathSteps; lia).
  assert (Hval : ∀ x y : Z, Z.abs (y - x) ≤ n →
            floor (lerp (inject_Z x) (inject_Z y)
                     (inject_Z n / inject_Z (Z.max n 1))) = y).
  { intros x y Hxy. unfold floor, lerp.
    assert (Hm : ¬ (inject_Z (Z.max n 1) == 0)%Q).
    { change 0%Q with (inject_Z 0). rewrite inject_Z_injective. lia. }
    assert (Heq : (inject_Z n / inject_Z (Z.max n 1) * (inject_Z y - inject_Z x)
                   + inject_Z x == inject_Z y)%Q).
    { destruct (Z.eq_dec n 0) as [H0 | Hne].
      - assert (y = x) by lia. subst y. field. exact Hm.
      - rewrite Z.max_l in * by lia. field. exact Hm. }
    rewrite (Qfloor_comp _ _ Heq). apply Qfloor_Z. }
  rewrite !Hval by (unfold n, pathSteps; lia).
  f_equal.
  - apply (wrapTheta_id cfg cols_pos). exact Hb.
  - unfold constrain. lia.
Qed.

(** Adjacent interior cells are linked. *)
Lemma adjacent_linked (c c' : Z * Z) :
  interiorCell cfg c → interiorCell cfg c' →
  -1 ≤ c'.1 - c.1 ≤ 1 → -1 ≤ c'.2 - c.2 ≤ 1 → linked cfg c c'.
Proof.
  destruct c as [i j], c' as [i' j']. unfold interiorCell, linked. simpl.
  fold cols rows. intros [Hi Hj] [Hi' Hj'] Hdi Hdj.
  destruct (decide (i = i' ∧ j = j')) as [[-> ->] | Hne]; [left; reflexivity |].
  right. unfold neighbourTargets. fold cols rows.
  apply list_elem_of_fmap. exists (i - i', j - j'). split.
  - cbn beta iota.
    rewrite (wrap_offset cfg cols_pos) by (fold cols; lia). fold cols.
    replace (i' + (i - i')) with i by lia. rewrite Z.mod_small by lia.
    f_equal. unfold constrain. lia.
  - assert (Hdi' : i - i' = -1 ∨ i - i' = 0 ∨ i - i' = 1) by lia.
    assert (Hdj' : j - j' = -1 ∨ j - j' = 0 ∨ j - j' = 1) by lia.
    unfold offsets. rewrite !elem_of_cons.
    destruct Hdi' as [-> | [Hz | ->]], Hdj' as [-> | [Hz' | ->]];
      try rewrite Hz; try rewrite Hz'; try tauto.
    exfalso. apply Hne. lia.
Qed.

Lemma forEach_app {St A : Type} (body : A → St → option St) (l1 l2 : list A)
    (s : St) :
  forEach (l1 ++ l2) body s = s' ← forEach l1 body s; forEach l2 body s'.
Proof.
  revert s. induction l1 as [| x l1 IH]; intros s; simpl.
  - reflexivity.
  - destruct (body x s); simpl; [apply IH | reflexivity].
Qed.

(** Stamping a chain of linked interior cells. *)
Lemma forEach_pathStamp (cs : list (Z * Z)) :
  ∀ (c : Z * Z) (g : Grid),
    wfGrid cfg g → Forall (interiorCell cfg) (cs ++ [c]) →
    (∀ k c1 c2, (cs ++ [c]) !! k = Some c1 → (cs ++ [c]) !! S k = Some c2 →
                linked cfg c1 c2) →
    ∃ g', forEach (cs ++ [c]) (pathStamp cfg) g = Some g' ∧ wfGrid cfg g' ∧
          stampedBy cfg cs c g g'.
Proof.
  induction cs as [| c0 cs IH] using rev_ind; intros c g Hwf Hall Hchain.
  - simpl. apply Forall_inv in Hall. destruct Hall as [Hi Hj].
    destruct (stamp_spec cfg cols_pos rows_interior c.1 c.2 impulseStrength
                (impulseStrength * 0.6)%Q g Hwf Hi Hj) as (g' & Hrun & Hwf' & Hget).
    exists g'. split; [unfold pathStamp; rewrite Hrun; reflexivity |].
    split; [exact Hwf' |]. intros [i j]. simpl.
    repeat split.
    + intros Hin. rewrite Hget, decide_True by exact Hin. reflexivity.
    + intros Hnin Heq. subst c. simpl in *.
      rewrite Hget, decide_False by exact Hnin.
      rewrite decide_True by (split; reflexivity). reflexivity.
    + intros _ _ (c' & Hin & _). apply elem_of_nil in Hin. contradiction.
    + intros Hnin Hne _. rewrite Hget, decide_False by exact Hnin.
      rewrite decide_False; [reflexivity |].
      intros [-> ->]. apply Hne. destruct c; reflexivity.
  - assert (Hall0 : Forall (interiorCell cfg) (cs ++ [c0]))
      by (apply Forall_app in Hall; tauto).
    assert (Hc : interiorCell cfg c).
    { apply Forall_app in Hall as [_ Hc]. apply Forall_inv in Hc. exact Hc. }
    assert (Hchain0 : ∀ k c1 c2, (cs ++ [c0]) !! k = Some c1 →
              (cs ++ [c0]) !! S k = Some c2 → linked cfg c1 c2).
    { intros k c1 c2 H1 H2. apply (Hchain k).
      - apply lookup_app_l_Some. exact H1.
      - apply lookup_app_l_Some. exact H2. }
    assert (Hlink : linked cfg c0 c).
    { apply (Hchain (length cs)).
      - rewrite lookup_app_l by (rewrite length_app; simpl; lia).
        rewrite lookup_app_r by lia. rewrite Nat.sub_diag. reflexivity.
      - rewrite lookup_app_r by (rewrite length_app; simpl; lia).
        rewrite length_app. simpl.
        replace (S (length cs) - (length cs + 1))%nat with O by lia. reflexivity. }
    destruct (IH c0 g Hwf Hall0 Hchain0) as (g1 & Hrun1 & Hwf1 & Hspec1).
    destruct Hc as [Hi Hj].
    destruct (stamp_spec cfg cols_pos rows_interior c.1 c.2 impulseStrength
                (impulseStrength * 0.6)%Q g1 Hwf1 Hi Hj) as (g' & Hrun & Hwf' & Hget).
    exists g'. split.
    { rewrite forEach_app, Hrun1. simpl. unfold pathStamp. rewrite Hrun. reflexivity. }
    split; [exact Hwf' |]. intros [i j]. simpl.
    destruct (Hspec1 (i, j)) as (S1 & S2 & S3 & S4). simpl in S1, S2, S3, S4.
    repeat split.
    + intros Hin. rewrite Hget, decide_True by exact Hin. reflexivity.
    + intros Hnin Heq. subst c. simpl in *.
      rewrite Hget, decide_False by exact Hnin.
      rewrite decide_True by (split; reflexivity). reflexivity.
    + intros Hnin Hne (c' & Hin & Hx).
      rewrite Hget, decide_False by exact Hnin.
      rewrite decide_False by (intros [-> ->]; apply Hne; destruct c; reflexivity).
      destruct (decide ((i, j) ∈ neighbourTargets cfg c0.1 c0.2)) as [Ht | Hnt];
        [exact (S1 Ht) |].
      destruct (decide ((i, j) = c0)) as [Heq | Hne0].
      * exfalso. destruct Hlink as [Hl | Hl].
        -- apply Hne. congruence.
        -- apply Hnin. rewrite Heq. exact Hl.
      * apply (S3 Hnt Hne0). apply elem_of_app in Hin as [Hin | Hin].
        -- exists c'. split; assumption.
        -- apply list_elem_of_singleton in Hin. subst c'.
           destruct Hx as [Hx | Hx]; contradiction.
    + intros Hnin Hne Hnt.
      rewrite Hget, decide_False by exact Hnin.
      rewrite decide_False by (intros [-> ->]; apply Hne; destruct c; reflexivity).
      apply S4.
      * intros Hin. apply Hnt. exists c0. split; [| right; exact Hin].
        apply elem_of_app. right. apply list_elem_of_singleton. reflexivity.
      * intros Heq. apply Hnt. exists c0. split; [| left; exact Heq].
        apply elem_of_app. right. apply list_elem_of_singleton. reflexivity.
      * intros (c' & Hin & Hx). apply Hnt. exists c'. split; [| exact Hx].
        apply elem_of_app. left. exact Hin.
Qed.

(** A drag between valid end points, in exact arithmetic: every centre
    cell but the end point is left with the neighbour value, and the end
    point holds the full strength unless its own neighbour loop lands on
    it. *)
Lemma pathImpulse_exact (a pa b pb : Z) (g : Grid) :
  wfGrid cfg g →
  0 ≤ a < cols → 0 ≤ b < cols → 1 ≤ pa ≤ rows - 2 → 1 ≤ pb ≤ rows - 2 →
  ∃ g', pathImpulse cfg a pa b pb g = Some g' ∧ wfGrid cfg g' ∧
        (∀ s, 0 ≤ s < pathSteps a pa b pb →
              pathCell cfg a pa b pb s ≠ (b, pb) →
              getCell g' (pathCell cfg a pa b pb s).1 (pathCell cfg a pa b pb s).2
              = Some (impulseStrength * 0.6)%Q) ∧
        ((b, pb) ∉ neighbourTargets cfg b pb →
         getCell g' b pb = Some impulseStrength) ∧
        ((b, pb) ∈ neighbourTargets cfg b pb →
         getCell g' b pb = Some (impulseStrength * 0.6)%Q).
Proof.
  intros Hwf Ha Hb Hpa Hpb.
  set (n := pathSteps a pa b pb).
  assert (Hn : 0 ≤ n) by (unfold n, pathSteps; lia).
  assert (Hlist : pathCentres cfg a pa b pb =
            (pathCell cfg a pa b pb <$> seqZ 0 n) ++ [pathCell cfg a pa b pb n]).
  { unfold pathCentres. fold n. rewrite seqZ_app by lia. rewrite fmap_app.
    change (0 + n) with n. rewrite (seqZ_cons n 1) by lia.
    rewrite (seqZ_nil (Z.succ n)) by lia. reflexivity. }
  assert (Hcell : ∀ k c, pathCentres cfg a pa b pb !! k = Some c →
            c = pathCell cfg a pa b pb (Z.of_nat k) ∧ Z.of_nat k ≤ n).
  { intros k c Hk. unfold pathCentres in Hk. fold n in Hk.
    rewrite list_lookup_fmap in Hk.
    destruct (seqZ 0 (n + 1) !! k) as [s |] eqn:Hs; [| discriminate].
    apply lookup_seqZ in Hs as [-> Hlt]. simpl in Hk.
    injection Hk as <-. split; [reflexivity | lia]. }
  destruct (forEach_pathStamp (pathCell cfg a pa b pb <$> seqZ 0 n)
              (pathCell cfg a pa b pb n) g Hwf) as (g' & Hrun & Hwf' & Hspec).
  - rewrite <- Hlist. apply Forall_lookup. intros k c Hk.
    apply Hcell in Hk as [-> Hle].
    apply (pathCell_interior cfg cols_pos rows_interior); (assumption || (fold n; lia)).
  - rewrite <- Hlist. intros k c1 c2 H1 H2.
    apply Hcell in H1 as [-> Hle1]. apply Hcell in H2 as [-> Hle2].
    replace (Z.of_nat (S k)) with (Z.of_nat k + 1) in * by lia.
    destruct (pathCell_adjacent a pa b pb (Z.of_nat k) Ha Hb Hpa Hpb) as [Hc1 Hc2];
      [fold n; lia |].
    apply adjacent_linked; try assumption;
      apply (pathCell_interior cfg cols_pos rows_interior);
      (assumption || (fold n; lia)).
  - rewrite <- Hlist, <- pathImpulse_forEach in Hrun.
    pose proof (pathCell_last a pa b pb Hb Hpb) as Hlast. fold n in Hlast.
    rewrite Hlast in Hspec.
    exists g'. split; [exact Hrun |]. split; [exact Hwf' |]. split; [| split].
    + intros s Hs Hne.
      destruct (Hspec (pathCell cfg a pa b pb s)) as (S1 & _ & S3 & _).
      destruct (decide (pathCell cfg a pa b pb s ∈ neighbourTargets cfg b pb))
        as [Hin | Hnin]; [exact (S1 Hin) |].
      apply (S3 Hnin Hne). exists (pathCell cfg a pa b pb s). split; [| left; reflexivity].
      apply list_elem_of_fmap. exists s. split; [reflexivity |].
      apply elem_of_seqZ. lia.
    + intros Hnin. destruct (Hspec (b, pb)) as (_ & S2 & _).
      apply (S2 Hnin). reflexivity.
    + intros Hin. destruct (Hspec (b, pb)) as (S1 & _).
      apply (S1 Hin).
Qed.

(** The end point of a drag keeps the full strength off the two edge rows
    (with at least two columns), and ends with the neighbour value on
    them. *)
Lemma pathImpulse_end_point (a pa b pb : Z) (g : Grid) :
  wfGrid cfg g →
  0 ≤ a < cols → 0 ≤ b < cols → 1 ≤ pa ≤ rows - 2 → 1 ≤ pb ≤ rows - 2 →
  ∃ g', pathImpulse cfg a pa b pb g = Some g' ∧
        (2 ≤ cols → 2 ≤ pb ≤ rows - 3 → getCell g' b pb = Some impulseStrength) ∧
        (pb = 1 ∨ pb = rows - 2 →
         getCell g' b pb = Some (impulseStrength * 0.6)%Q).
Proof.
  intros Hwf Ha Hb Hpa Hpb.
  destruct (pathImpulse_exact a pa b pb g Hwf Ha Hb Hpa Hpb)
    as (g' & Hrun & _ & _ & Hfull & Hdim).
  exists g'. split; [exact Hrun |]. split.
  - intros Hc Hinner. apply Hfull.
    apply (centre_not_target_inner cfg cols_pos); assumption.
  - intros Hedge. apply Hdim.
    apply (centre_is_target_on_edge_rows cfg cols_pos rows_interior); assumption.
Qed.

End DragLine.

(** C4, at a tap next to the pole.  With the configuration of the sketch,
    a first touch at [theta = 1/4], [phi = 3/100] on the freshly set-up grid
    targets cell [(10, 1)], and after the call that centre cell holds
    [impulseStrength * 0.7], not [impulseStrength]: the neighbour at offset
    [(0, -1)] is clamped back onto the centre and overwrites it. *)
Theorem point_impulse_next_to_pole :
  thetaIndexOf sketchConfig (1 # 4) = 10 ∧
  phiIndexOf sketchConfig (3 # 100) = 1 ∧
  (st0 ← setup sketchConfig initialState;
   st ← addHeightfieldImpulse sketchConfig (1 # 4) (3 # 100) true st0;
   getCell (heightfieldPrevious st) 10 1) = Some (impulseStrength * 0.7)%Q.
Proof. vm_compute. repeat split. Qed.

(** C10, at a drag next to the pole.  With the configuration of the
    sketch, a first touch at [theta = 1/4], [phi = 3/100] followed by a drag
    to [theta = 3/10], [phi = 3/100] stamps the cells [(10, 1)], [(11, 1)],
    [(12, 1)], and the final cell [(12, 1)] ends with
    [impulseStrength * 0.6], not [impulseStrength]. *)
Theorem drag_next_to_pole :
  pathCentres sketchConfig 10 1 12 1 = [(10, 1); (11, 1); (12, 1)] ∧
  (st0 ← setup sketchConfig initialState;
   st ← run sketchConfig
          [Impulse (1 # 4) (3 # 100) true; Impulse (3 # 10) (3 # 100) false] st0;
   getCell (heightfieldPrevious st) 12 1) = Some (impulseStrength * 0.6)%Q.
Proof. vm_compute. repeat split. Qed.

(** ** Drag lines in binary64 arithmetic *)

(** C8, at a drag over 22 columns.  In the arithmetic of doubles a drag
    line from index [(0, 3)] to index [(22, 3)] takes [steps = 22], but
    [lerp(0, 22, 15 / 22)] rounds to [14.999999999999998], whose floor is
    [14]: the loop stamps column [14] twice and never stamps column [15]
    as a centre, where exact arithmetic gives [15]. *)
Theorem drag_along_row_in_doubles :
  pathSteps 0 3 22 3 = 22 ∧
  Double.pathCell sketchConfig 0 3 22 3 15 = Some (14, 3) ∧
  pathCell sketchConfig 0 3 22 3 15 = (15, 3) ∧
  Double.pathCentres sketchConfig 0 3 22 3 =
  Some <$> ((λ c : Z, (c, 3)) <$> (seqZ 0 15 ++ [14] ++ seqZ 16 7)).
Proof. vm_compute. repeat split. Qed.

(** Rounding also breaks the adjacency of consecutive centre cells: on the
    drag line from [(0, 27)] to [(5, 2)] all centre cells are distinct, yet
    row [13] is skipped between two consecutive ones. *)
Example drag_skips_a_row_in_doubles :
  Double.pathCell sketchConfig 0 27 5 2 13 = Some (2, 14) ∧
  Double.pathCell sketchConfig 0 27 5 2 14 = Some (2, 12) ∧
  NoDup (Double.pathCentres sketchConfig 0 27 5 2).
Proof.
  split; [vm_compute; reflexivity |]. split; [vm_compute; reflexivity |].
  refine (bool_decide_unpack _ _). vm_compute. exact I.
Qed.

(** The defect is common: of the drag lines from [(0, 3)] to [(k, 3)] with
    [1 <= k <= 255], those of 167 values of [k] miss a column, and no
    centre column is off by more than one. *)
Example drags_along_row_in_doubles :
  length (filter (λ k, Double.pathCentres sketchConfig 0 3 k 3
                       ≠ Some <$> ((λ s, (s, 3)) <$> seqZ 0 (k + 1)))
                 (seqZ 1 255)) = 167%nat ∧
  Forall (λ k, Forall (λ s, Double.pathCell sketchConfig 0 3 k 3 s = Some (s, 3)
                            ∨ Double.pathCell sketchConfig 0 3 k 3 s
                              = Some (s - 1, 3))
                      (seqZ 0 (k + 1)))
         (seqZ 1 255).
Proof.
  split; [vm_compute; reflexivity |].
  refine (bool_decide_unpack _ _). vm_compute. exact I.
Qed.

(** ** Buffer references *)

(** A step keeps the two references apart. *)
Lemma Refs_updateHeightfield_apart (cfg : Config) (m m' : Refs.Memory) :
  Refs.updateHeightfield cfg m = Some m' →
  Refs.currentRef m' ≠ Refs.previousRef m'.
Proof.
  unfold Refs.updateHeightfield. intros Hrun.
  destruct (Refs.objects m !! Refs.currentRef m) as [cur |] eqn:Hc;
    [| discriminate].
  destruct (Refs.objects m !! Refs.previousRef m) as [prev |]; [| discriminate].
  simpl in Hrun. destruct (steppedBuffer cfg cur prev); [| discriminate].
  simpl in Hrun. injection Hrun as <-. simpl.
  apply lookup_lt_Some in Hc. lia.
Qed.

(** Were the two references the same object, an injection would change the
    current buffer too. *)
Example aliased_buffers_share_writes :
  let m := {| Refs.objects := [zeroGrid smallConfig];
              Refs.currentRef := 0; Refs.previousRef := 0;
              Refs.drawTheta := 0%Q; Refs.drawPhi := 0%Q |} in
  (st ← Refs.view m; getCell (heightfieldCurrent st) 4 2) = Some 0%Q ∧
  (m' ← Refs.addHeightfieldImpulse smallConfig PI (PI / 2) true m;
   st ← Refs.view m'; getCell (heightfieldCurrent st) 4 2)
  = Some impulseStrength.
Proof. split; vm_compute; reflexivity. Qed.

(** ** Grids are determined by their cells *)

Lemma grid_ext (cfg : Config) (g g' : Grid) :
  wfGrid cfg g → wfGrid cfg g' →
  (∀ i j, 0 ≤ i < heightfieldCols cfg → 0 ≤ j < heightfieldRows cfg →
          getCell g i j = getCell g' i j) →
  g = g'.
Proof.
  intros [Hlen Hall] [Hlen' Hall'] Hcells.
  apply list_eq. intros k.
  destruct (decide (k < length g)%nat) as [Hk | Hk].
  2:{ rewrite !lookup_ge_None_2 by lia. reflexivity. }
  destruct (lookup_lt_is_Some_2 g k Hk) as [col Hcol].
  destruct (lookup_lt_is_Some_2 g' k ltac:(lia)) as [col' Hcol'].
  rewrite Hcol, Hcol'. f_equal.
  assert (Hc : length col = Z.to_nat (heightfieldRows cfg))
    by exact (proj1 (Forall_lookup _ _) Hall _ _ Hcol).
  assert (Hc' : length col' = Z.to_nat (heightfieldRows cfg))
    by exact (proj1 (Forall_lookup _ _) Hall' _ _ Hcol').
  apply list_eq. intros m.
  destruct (decide (m < length col)%nat) as [Hm | Hm].
  2:{ rewrite !lookup_ge_None_2 by lia. reflexivity. }
  specialize (Hcells (Z.of_nat k) (Z.of_nat m) ltac:(lia) ltac:(lia)).
  unfold getCell in Hcells.
  rewrite !(JsArray_get_lookup _ (Z.of_nat k)) in Hcells by lia.
  rewrite Nat2Z.id, Hcol, Hcol' in Hcells. simpl in Hcells.
  rewrite !JsArray_get_lookup in Hcells by lia.
  rewrite Nat2Z.id in Hcells. exact Hcells.
Qed.

Lemma cellAt_getCell (g g' : Grid) (i j : Z) :
  getCell g i j = getCell g' i j → cellAt g i j = cellAt g' i j.
Proof. unfold cellAt. intros ->. reflexivity. Qed.

(** ** Water at rest *)

Lemma waveValue_still (cfg : Config) (cur prev : Grid) (i j : Z) :
  (∀ i j, (cellAt cur i j == 0)%Q) → (∀ i j, (cellAt prev i j == 0)%Q) →
  (waveValue cfg cur prev i j == 0)%Q.
Proof.
  intros Hcur Hprev. unfold waveValue, neighbourSum.
  rewrite !Hprev, Hcur. field.
Qed.

Lemma steppedCell_still (cfg : Config) (cur prev : Grid) (i j : Z) :
  (∀ i j, (cellAt cur i j == 0)%Q) → (∀ i j, (cellAt prev i j == 0)%Q) →
  (steppedCell cfg cur prev i j == 0)%Q.
Proof.
  intros Hcur Hprev. unfold steppedCell.
  case_decide; [apply waveValue_still; assumption | reflexivity].
Qed.

(** The cells of a well-formed grid, inside and outside its columns. *)
Lemma cellAt_outside_columns (cfg : Config) (g : Grid) (i j : Z) :
  wfGrid cfg g → i < 0 ∨ heightfieldCols cfg ≤ i → cellAt g i j = 0%Q.
Proof.
  intros [Hlen _] Hi. unfold cellAt, getCell, JsArray.get.
  destruct (Z.ltb_spec i 0); [reflexivity |].
  rewrite lookup_ge_None_2 by lia. reflexivity.
Qed.

Lemma frame_keeps_still (cfg : Config) (st : State) :
  stillGrid cfg (heightfieldCurrent st) → stillGrid cfg (heightfieldPrevious st) →
  ∃ st', updateHeightfield cfg st = Some st' ∧
         stillGrid cfg (heightfieldCurrent st') ∧
         stillGrid cfg (heightfieldPrevious st').
Proof.
  intros [Hwc Hc] [Hwp Hp].
  destruct (updateHeightfield_spec cfg st (conj Hwc Hwp)) as (new & Hrun & Hwn & Hcells).
  eexists. split; [exact Hrun |]. simpl. split; [| split; assumption].
  split; [exact Hwn |]. intros i j.
  destruct (decide (0 ≤ i < heightfieldCols cfg)) as [Hi | Hi].
  - destruct (decide (0 ≤ j < heightfieldRows cfg)) as [Hj | Hj].
    + unfold cellAt. rewrite (Hcells i j Hi Hj). simpl.
      apply steppedCell_still; assumption.
    + rewrite (cellAt_outside cfg new i j Hwn) by lia. reflexivity.
  - rewrite (cellAt_outside_columns cfg new i j Hwn) by lia. reflexivity.
Qed.

(** X1.  Water at rest stays at rest: from a state whose two buffers are
    all zero, any number of frames without an impulse runs through and
    leaves both buffers all zero. *)
Theorem still_water_stays_still (cfg : Config) (n : nat) (st : State) :
  stillGrid cfg (heightfieldCurrent st) → stillGrid cfg (heightfieldPrevious st) →
  ∃ st', run cfg (replicate n Frame) st = Some st' ∧
         stillGrid cfg (heightfieldCurrent st') ∧
         stillGrid cfg (heightfieldPrevious st').
Proof.
  revert st. induction n as [| n IH]; intros st Hc Hp.
  - exists st. split; [reflexivity | split; assumption].
  - destruct (frame_keeps_still cfg st Hc Hp) as (st1 & Hrun & Hc1 & Hp1).
    destruct (IH st1 Hc1 Hp1) as (st' & Hrun' & Hstill).
    exists st'. split; [| exact Hstill].
    simpl. rewrite Hrun. simpl. exact Hrun'.
Qed.

(** ** Ripples travel one cell per frame *)

Lemma mod_shift (cols i d e : Z) :
  ((i + d) mod cols + e) mod cols = (i + (d + e)) mod cols.
Proof. rewrite Zplus_mod_idemp_l. f_equal. lia. Qed.

Lemma frame_agreeAround (cfg : Config) (i j r : Z) (st1 st2 : State) :
  1 ≤ heightfieldCols cfg → 0 ≤ r →
  wfState cfg st1 → wfState cfg st2 →
  agreeAround cfg i j (r + 1) st1 st2 →
  ∃ st1' st2', updateHeightfield cfg st1 = Some st1' ∧
               updateHeightfield cfg st2 = Some st2' ∧
               wfState cfg st1' ∧ wfState cfg st2' ∧
               agreeAround cfg i j r st1' st2'.
Proof.
  intros Hcols Hr Hwf1 Hwf2 Hagree.
  destruct (updateHeightfield_spec cfg st1 Hwf1) as (new1 & Hrun1 & Hwn1 & Hcells1).
  destruct (updateHeightfield_spec cfg st2 Hwf2) as (new2 & Hrun2 & Hwn2 & Hcells2).
  eexists _, _. split; [exact Hrun1 |]. split; [exact Hrun2 |].
  split; [split; [exact Hwn1 | apply Hwf1] |].
  split; [split; [exact Hwn2 | apply Hwf2] |].
  intros di dj Hdi Hdj. simpl. split; [| apply Hagree; lia].
  set (c := (i + di) mod heightfieldCols cfg).
  assert (Hc : 0 ≤ c < heightfieldCols cfg) by (apply Z.mod_pos_bound; lia).
  destruct (decide (0 ≤ j + dj < heightfieldRows cfg)) as [Hj | Hj].
  2:{ rewrite (cellAt_outside cfg new1), (cellAt_outside cfg new2)
        by (assumption || lia). reflexivity. }
  unfold cellAt at 1 2. rewrite (Hcells1 c _ Hc Hj), (Hcells2 c _ Hc Hj). simpl.
  unfold steppedCell. case_decide; [| reflexivity].
  unfold waveValue, neighbourSum, c.
  replace ((i + di) mod heightfieldCols cfg - 1)
    with ((i + di) mod heightfieldCols cfg + -1) by lia.
  rewrite !mod_shift.
  assert (Hn : ∀ e f, -1 ≤ e ≤ 1 → -1 ≤ f ≤ 1 →
    cellAt (heightfieldPrevious st1) ((i + (di + e)) mod heightfieldCols cfg)
      (j + dj + f)
    = cellAt (heightfieldPrevious st2) ((i + (di + e)) mod heightfieldCols cfg)
      (j + dj + f)).
  { intros e f He Hf. replace (j + dj + f) with (j + (dj + f)) by lia.
    apply Hagree; lia. }
  assert (Hsame : ∀ f, -1 ≤ f ≤ 1 →
    cellAt (heightfieldPrevious st1) ((i + di) mod heightfieldCols cfg) (j + dj + f)
    = cellAt (heightfieldPrevious st2) ((i + di) mod heightfieldCols cfg)
        (j + dj + f)).
  { intros f Hf. replace (i + di) with (i + (di + 0)) by lia. apply Hn; lia. }
  replace (j + dj - 1) with (j + dj + -1) by lia.
  rewrite !(Hn (-1)), !(Hn 1) by lia.
  rewrite (Hsame (-1)), (Hsame 1) by lia.
  replace (j + dj) with (j + dj + 0) at 1 2 by lia.
  rewrite (Hn (-1) 0), (Hn 1 0) by lia.
  replace (j + dj + 0) with (j + dj) by lia.
  destruct (Hagree di dj ltac:(lia) ltac:(lia)) as [-> _].
  reflexivity.
Qed.

(** X2.  Ripples travel at most one cell per frame: two states that hold
    the same values on the cells at most [n] columns and [n] rows away
    from a cell [(i, j)] still agree at [(i, j)], in both buffers, after
    [n] frames, whatever they hold further away. *)
Theorem ripples_travel_one_cell_per_frame (cfg : Config) (n : nat) (i j : Z)
    (st1 st2 : State) :
  1 ≤ heightfieldCols cfg → wfState cfg st1 → wfState cfg st2 →
  agreeAround cfg i j (Z.of_nat n) st1 st2 →
  ∃ st1' st2', run cfg (replicate n Frame) st1 = Some st1' ∧
               run cfg (replicate n Frame) st2 = Some st2' ∧
               cellAt (heightfieldCurrent st1') (i mod heightfieldCols cfg) j
               = cellAt (heightfieldCurrent st2') (i mod heightfieldCols cfg) j ∧
               cellAt (heightfieldPrevious st1') (i mod heightfieldCols cfg) j
               = cellAt (heightfieldPrevious st2') (i mod heightfieldCols cfg) j.
Proof.
  intros Hcols. revert st1 st2. induction n as [| n IH]; intros st1 st2 Hwf1 Hwf2 Hagree.
  - exists st1, st2. split; [reflexivity |]. split; [reflexivity |].
    specialize (Hagree 0 0 ltac:(lia) ltac:(lia)).
    rewrite !Z.add_0_r in Hagree. exact Hagree.
  - replace (Z.of_nat (S n)) with (Z.of_nat n + 1) in Hagree by lia.
    destruct (frame_agreeAround cfg i j (Z.of_nat n) st1 st2 Hcols ltac:(lia)
                Hwf1 Hwf2 Hagree)
      as (s1 & s2 & Hrun1 & Hrun2 & Hw1 & Hw2 & Hagree').
    destruct (IH s1 s2 Hw1 Hw2 Hagree') as (t1 & t2 & Hr1 & Hr2 & Hsame).
    exists t1, t2. simpl. rewrite Hrun1, Hrun2. simpl.
    split; [exact Hr1 |]. split; [exact Hr2 | exact Hsame].
Qed.

(** ** The update has no distinguished meridian *)

Lemma rotateColumns_wf (cfg : Config) (g : Grid) :
  wfGrid cfg g → wfGrid cfg (rotateColumns g).
Proof.
  intros [Hlen Hall]. unfold rotateColumns. split.
  - rewrite length_app, length_drop, length_take. lia.
  - apply Forall_app. split; [apply Forall_drop | apply Forall_take]; exact Hall.
Qed.

Lemma getCell_rotateColumns (cfg : Config) (g : Grid) (i j : Z) :
  wfGrid cfg g → 0 ≤ i < heightfieldCols cfg →
  getCell (rotateColumns g) i j = getCell g ((i + 1) mod heightfieldCols cfg) j.
Proof.
  intros [Hlen _] Hi. unfold getCell, rotateColumns.
  assert (Hm : 0 ≤ (i + 1) mod heightfieldCols cfg < heightfieldCols cfg)
    by (apply Z.mod_pos_bound; lia).
  rewrite !JsArray_get_lookup by lia.
  destruct (decide (i + 1 < heightfieldCols cfg)) as [Hlt | Hge].
  - rewrite Z.mod_small by lia.
    rewrite lookup_app_l by (rewrite length_drop; lia).
    rewrite lookup_drop. replace (1 + Z.to_nat i)%nat with (Z.to_nat (i + 1)) by lia.
    reflexivity.
  - replace (i + 1) with (heightfieldCols cfg) by lia.
    rewrite Z_mod_same_full.
    rewrite lookup_app_r by (rewrite length_drop; lia).
    rewrite length_drop.
    replace (Z.to_nat i - (length g - 1))%nat with O by lia.
    rewrite lookup_take_lt by lia. reflexivity.
Qed.

Lemma cellAt_rotateColumns (cfg : Config) (g : Grid) (i j : Z) :
  wfGrid cfg g → 0 ≤ i < heightfieldCols cfg →
  cellAt (rotateColumns g) i j = cellAt g ((i + 1) mod heightfieldCols cfg) j.
Proof.
  intros Hwf Hi. unfold cellAt.
  rewrite (getCell_rotateColumns cfg) by assumption. reflexivity.
Qed.

(** X3.  The update has no distinguished meridian: rotating both buffers
    by one column and then stepping gives the same buffers as stepping and
    then rotating.  The seam between the last and the first column is as
    any other place to the simulation. *)
Theorem updateHeightfield_rotateColumns (cfg : Config) (st : State) :
  1 ≤ heightfieldCols cfg → wfState cfg st →
  ∃ st', updateHeightfield cfg st = Some st' ∧
         updateHeightfield cfg (rotateState st) = Some (rotateState st').
Proof.
  intros Hcols [Hwc Hwp].
  destruct (updateHeightfield_spec cfg st (conj Hwc Hwp)) as (new & Hrun & Hwn & Hcells).
  assert (Hwr : wfState cfg (rotateState st))
    by (split; apply rotateColumns_wf; assumption).
  destruct (updateHeightfield_spec cfg _ Hwr) as (new' & Hrun' & Hwn' & Hcells').
  eexists. split; [exact Hrun |]. rewrite Hrun'. f_equal.
  unfold rotateState. cbn [heightfieldCurrent heightfieldPrevious
                            lastDrawTheta lastDrawPhi].
  f_equal. apply (grid_ext cfg); [exact Hwn' | apply rotateColumns_wf, Hwn |].
  intros i j Hi Hj.
  assert (Hm : ∀ k, 0 ≤ k mod heightfieldCols cfg < heightfieldCols cfg)
    by (intros k; apply Z.mod_pos_bound; lia).
  rewrite (getCell_rotateColumns cfg new i j Hwn Hi).
  rewrite (Hcells' i j Hi Hj), (Hcells _ j (Hm _) Hj). f_equal.
  unfold steppedCell. case_decide; [| reflexivity].
  unfold waveValue, neighbourSum.
  change (heightfieldPrevious (rotateState st))
    with (rotateColumns (heightfieldPrevious st)).
  change (heightfieldCurrent (rotateState st))
    with (rotateColumns (heightfieldCurrent st)).
  rewrite !(cellAt_rotateColumns cfg) by (assumption || apply Hm).
  assert (H1 : ((i - 1) mod heightfieldCols cfg + 1) mod heightfieldCols cfg
               = ((i + 1) mod heightfieldCols cfg - 1) mod heightfieldCols cfg).
  { rewrite Zplus_mod_idemp_l, Zminus_mod_idemp_l. f_equal. lia. }
  rewrite H1. reflexivity.
Qed.

(** ** Calls before [setup] *)

Lemma getCell_nil (i j : Z) : getCell [] i j = None.
Proof. unfold getCell, JsArray.get. destruct (i <? 0); reflexivity. Qed.

Lemma setCell_nil (i j : Z) (v : Q) : setCell [] i j v = None.
Proof. unfold setCell, JsArray.get. destruct (i <? 0); reflexivity. Qed.

(** X4.  Before [setup] has filled the buffers, a simulation step throws
    exactly when the grid has an interior cell to compute (at least one
    column and three rows), and an impulse always throws: both index into
    columns that do not exist yet. *)
Theorem calls_before_setup_fail (cfg : Config) (theta phi : Q)
    (isFirstTouch : bool) :
  (updateHeightfield cfg initialState = None ↔
   1 ≤ heightfieldCols cfg ∧ 3 ≤ heightfieldRows cfg) ∧
  addHeightfieldImpulse cfg theta phi isFirstTouch initialState = None.
Proof.
  split.
  - unfold updateHeightfield, steppedBuffer. rewrite newBuffer_zero. simpl.
    split.
    + intros Hnone.
      destruct (decide (1 ≤ heightfieldCols cfg ∧ 3 ≤ heightfieldRows cfg))
        as [Hyes | Hno]; [exact Hyes | exfalso].
      destruct (forLt_preserves (λ _ : Grid, True)
                  (λ i new, forLt 1 (heightfieldRows cfg - 1)
                     (λ j new, updateCell cfg [] [] i j new) new)
                  0 (heightfieldCols cfg) (zeroGrid cfg) I) as (g & Hg & _).
      * intros k t Hk _. exists t. split; [| exact I].
        apply forLt_empty. lia.
      * rewrite Hg in Hnone. discriminate.
    + intros [Hcols Hrows]. unfold forLt.
      destruct (Z.to_nat (heightfieldCols cfg - 0)) as [| n] eqn:Hn; [lia |].
      simpl. unfold forLt.
      destruct (Z.to_nat (heightfieldRows cfg - 1 - 1)) as [| m] eqn:Hm; [lia |].
      simpl. unfold updateCell. rewrite !getCell_nil. reflexivity.
  - unfold addHeightfieldImpulse, impulsedBuffer. simpl.
    destruct isFirstTouch; simpl.
    + unfold pointImpulse. rewrite setCell_nil. reflexivity.
    + unfold pathImpulse, forLe, forLt.
      set (steps := pathSteps _ _ _ _).
      assert (0 ≤ steps) by (unfold steps, pathSteps; lia).
      destruct (Z.to_nat (steps + 1 - 0)) as [| n] eqn:Hn; [lia |].
      cbn [forLoop]. destruct (pathCell cfg _ _ _ _ 0) as [ti pi].
      rewrite setCell_nil. reflexivity.
Qed.

(** ** The footprint of a tap *)

Lemma neighbourTargets_elem (cfg : Config) (ti pi i j : Z) :
  1 ≤ heightfieldCols cfg → 0 ≤ ti < heightfieldCols cfg →
  (i, j) ∈ neighbourTargets cfg ti pi ↔
  ∃ di dj, -1 ≤ di ≤ 1 ∧ -1 ≤ dj ≤ 1 ∧ (di, dj) ≠ (0, 0) ∧
           i = (ti + di) mod heightfieldCols cfg ∧
           j = constrain (pi + dj) 1 (heightfieldRows cfg - 2).
Proof.
  intros Hcols Hti. unfold neighbourTargets. rewrite list_elem_of_fmap. split.
  - intros ([di dj] & Heq & Hin).
    pose proof (offsets_range cfg) as Hall. rewrite Forall_forall in Hall.
    apply list_elem_of_In, Hall in Hin as (Hdi & Hdj & Hne). simpl in *.
    inversion Heq as [[Hi Hj]]. exists di, dj.
    repeat split; try lia; [exact Hne |].
    apply (wrap_offset cfg Hcols); lia.
  - intros (di & dj & Hdi & Hdj & Hne & -> & ->). exists (di, dj). split.
    + cbn beta iota. rewrite (wrap_offset cfg Hcols) by lia. reflexivity.
    + assert (Hdi' : di = -1 ∨ di = 0 ∨ di = 1) by lia.
      assert (Hdj' : dj = -1 ∨ dj = 0 ∨ dj = 1) by lia.
      unfold offsets. rewrite !elem_of_cons.
      destruct Hdi' as [-> | [-> | ->]], Hdj' as [-> | [-> | ->]];
        try tauto.
Qed.

(** With two columns or more, the centre is among the cells its own
    neighbour loop writes exactly on the two edge rows. *)
Lemma centre_is_target_iff (cfg : Config) (ti pi : Z) :
  2 ≤ heightfieldCols cfg → 3 ≤ heightfieldRows cfg →
  0 ≤ ti < heightfieldCols cfg → 1 ≤ pi ≤ heightfieldRows cfg - 2 →
  (ti, pi) ∈ neighbourTargets cfg ti pi ↔ pi = 1 ∨ pi = heightfieldRows cfg - 2.
Proof.
  intros Hcols Hrows Hti Hpi. split.
  - intros Hin.
    destruct (decide (pi = 1 ∨ pi = heightfieldRows cfg - 2)) as [Hedge | Hinner];
      [exact Hedge | exfalso].
    apply (centre_not_target_inner cfg ltac:(lia) ti pi Hcols Hti ltac:(lia)).
    exact Hin.
  - apply (centre_is_target_on_edge_rows cfg ltac:(lia) Hrows); assumption.
Qed.

(** X5.  The footprint of a tap.  A first touch leaves the current buffer
    alone, remembers the angle pair, and writes the previous buffer as
    follows: [strength * 0.7] into the eight cells around the target
    (column wrapped, row clamped into the interior), the full strength
    into the target itself unless the target lies on row [1] or
    [rows - 2], where the clamped neighbour write lands on it and leaves
    [strength * 0.7] there too; every cell more than one column or one row
    away keeps its value.  The grid has at least two columns and three
    rows. *)
Theorem tap_footprint (cfg : Config) (theta phi : Q) (st : State) :
  2 ≤ heightfieldCols cfg → 3 ≤ heightfieldRows cfg →
  wfState cfg st → validTheta cfg theta →
  ∃ st', addHeightfieldImpulse cfg theta phi true st = Some st' ∧
    heightfieldCurrent st' = heightfieldCurrent st ∧
    lastDrawTheta st' = theta ∧ lastDrawPhi st' = phi ∧
    getCell (heightfieldPrevious st') (thetaIndexOf cfg theta) (phiIndexOf cfg phi)
    = Some (if decide (phiIndexOf cfg phi = 1
                       ∨ phiIndexOf cfg phi = heightfieldRows cfg - 2)
            then (impulseStrength * 0.7)%Q else impulseStrength) ∧
    (∀ di dj, -1 ≤ di ≤ 1 → -1 ≤ dj ≤ 1 → (di, dj) ≠ (0, 0) →
       getCell (heightfieldPrevious st')
         ((thetaIndexOf cfg theta + di) mod heightfieldCols cfg)
         (constrain (phiIndexOf cfg phi + dj) 1 (heightfieldRows cfg - 2))
       = Some (impulseStrength * 0.7)%Q) ∧
    (∀ i j, 1 < (i - thetaIndexOf cfg theta) mod heightfieldCols cfg
                < heightfieldCols cfg - 1
            ∨ j < phiIndexOf cfg phi - 1 ∨ phiIndexOf cfg phi + 1 < j →
       getCell (heightfieldPrevious st') i j = getCell (heightfieldPrevious st) i j).
Proof.
  intros Hcols Hrows [_ Hwp] Hvalid.
  assert (Hcols1 : 1 ≤ heightfieldCols cfg) by lia.
  pose proof (thetaIndexOf_range cfg Hcols1 theta Hvalid) as Hti.
  pose proof (phiIndexOf_range cfg Hrows phi) as Hpi.
  set (ti := thetaIndexOf cfg theta) in *. set (pi := phiIndexOf cfg phi) in *.
  destruct (stamp_spec cfg Hcols1 Hrows ti pi impulseStrength
              (impulseStrength * 0.7)%Q _ Hwp Hti Hpi) as (g' & Hrun & _ & Hget).
  unfold addHeightfieldImpulse, impulsedBuffer. simpl. fold ti pi.
  unfold pointImpulse. rewrite Hrun. simpl.
  eexists. split; [reflexivity |]. simpl.
  split; [reflexivity |]. split; [reflexivity |]. split; [reflexivity |].
  split; [| split].
  - rewrite Hget.
    pose proof (centre_is_target_iff cfg ti pi Hcols Hrows Hti Hpi) as Hiff.
    destruct (decide (pi = 1 ∨ pi = heightfieldRows cfg - 2)) as [Hedge | Hinner].
    + rewrite decide_True by (apply Hiff; exact Hedge). reflexivity.
    + rewrite decide_False by (intros Hin; apply Hinner, Hiff; exact Hin).
      rewrite decide_True by (split; reflexivity). reflexivity.
  - intros di dj Hdi Hdj Hne. rewrite Hget, decide_True; [reflexivity |].
    apply (neighbourTargets_elem cfg ti pi _ _ Hcols1 Hti).
    exists di, dj. repeat split; (lia || assumption).
  - intros i j Hfar. rewrite Hget.
    rewrite decide_False.
    + rewrite decide_False; [reflexivity |].
      intros [-> ->]. rewrite Z.sub_diag, Z.mod_0_l in Hfar by lia. lia.
    + intros Hin.
      apply (neighbourTargets_elem cfg ti pi _ _ Hcols1 Hti) in Hin
        as (di & dj & Hdi & Hdj & _ & -> & ->).
      destruct Hfar as [Hcol | Hrow]; [| unfold constrain in Hrow; lia].
      rewrite Zminus_mod_idemp_l in Hcol.
      replace (ti + di - ti) with di in Hcol by lia.
      assert (Hd : di = -1 ∨ di = 0 ∨ di = 1) by lia.
      destruct Hd as [-> | [-> | ->]].
      * replace (-1 mod heightfieldCols cfg) with (heightfieldCols cfg - 1)
          in Hcol by (apply Z.mod_unique with (q := -1); lia).
        lia.
      * rewrite Z.mod_0_l in Hcol by lia. lia.
      * destruct (decide (heightfieldCols cfg = 1)); [lia |].
        rewrite Z.mod_small in Hcol by lia. lia.
Qed.

(** ** Repeating an impulse *)

(** Stamping a cell twice is stamping it once. *)
Lemma stamp_idempotent (cfg : Config) (ti pi : Z) (centre v : Q) (g g' : Grid) :
  1 ≤ heightfieldCols cfg → 3 ≤ heightfieldRows cfg →
  wfGrid cfg g → 0 ≤ ti < heightfieldCols cfg → 1 ≤ pi ≤ heightfieldRows cfg - 2 →
  (g1 ← setCell g ti pi centre; writeNeighbours cfg ti pi v g1) = Some g' →
  (g1 ← setCell g' ti pi centre; writeNeighbours cfg ti pi v g1) = Some g'.
Proof.
  intros Hcols Hrows Hwf Hti Hpi Hrun.
  destruct (stamp_spec cfg Hcols Hrows ti pi centre v g Hwf Hti Hpi)
    as (g0 & Hrun0 & Hwf0 & Hget0).
  rewrite Hrun in Hrun0. injection Hrun0 as <-.
  destruct (stamp_spec cfg Hcols Hrows ti pi centre v g' Hwf0 Hti Hpi)
    as (g2 & Hrun2 & Hwf2 & Hget2).
  rewrite Hrun2. f_equal. apply (grid_ext cfg); [exact Hwf2 | exact Hwf0 |].
  intros i j _ _. rewrite Hget2, Hget0.
  repeat case_decide; reflexivity.
Qed.

(** A drag that ends in the cell where it starts runs its loop once, with
    [t = 0 / max(0, 1)], and stamps that cell. *)
Lemma pathImpulse_same_cell (cfg : Config) (a pa : Z) (g : Grid) :
  pathImpulse cfg a pa a pa g =
  pathStamp cfg (wrapTheta cfg a, constrain pa 1 (heightfieldRows cfg - 2)) g.
Proof.
  unfold pathImpulse, pathStamp, pathCell.
  assert (Hsteps : pathSteps a pa a pa = 0) by (unfold pathSteps; lia).
  rewrite Hsteps. unfold forLe, forLt.
  change (Z.to_nat (0 + 1 - 0)) with 1%nat. cbn [forLoop].
  assert (Hval : ∀ x : Z,
            floor (lerp (inject_Z x) (inject_Z x) (inject_Z 0 / inject_Z (Z.max 0 1)))
            = x).
  { intros x. unfold floor, lerp.
    assert (Heq : (inject_Z 0 / inject_Z (Z.max 0 1) * (inject_Z x - inject_Z x)
                   + inject_Z x == inject_Z x)%Q).
    { change (inject_Z 0 / inject_Z (Z.max 0 1))%Q with (0 / 1)%Q. field. }
    rewrite (Qfloor_comp _ _ Heq). apply Qfloor_Z. }
  rewrite !Hval. cbn [fst snd].
  destruct (setCell g _ _ _) as [g1 |]; simpl; [| reflexivity].
  destruct (writeNeighbours cfg _ _ _ g1); reflexivity.
Qed.

Lemma forEach_pathStamp_wf (cfg : Config) (cs : list (Z * Z)) (g g' : Grid) :
  1 ≤ heightfieldCols cfg → 3 ≤ heightfieldRows cfg →
  wfGrid cfg g → Forall (interiorCell cfg) cs →
  forEach cs (pathStamp cfg) g = Some g' → wfGrid cfg g'.
Proof.
  intros Hcols Hrows. revert g. induction cs as [| c cs IH]; intros g Hwf Hall Hrun.
  - simpl in Hrun. injection Hrun as <-. exact Hwf.
  - inversion Hall as [| ? ? [Hci Hcj] Hall']; subst.
    destruct (stamp_spec cfg Hcols Hrows c.1 c.2 impulseStrength
                (impulseStrength * 0.6)%Q g Hwf Hci Hcj) as (g1 & Hrun1 & Hwf1 & _).
    assert (Hs : pathStamp cfg c g = Some g1) by exact Hrun1.
    cbn [forEach] in Hrun. rewrite Hs in Hrun.
    exact (IH g1 Hwf1 Hall' Hrun).
Qed.

(** X6.  Impulses overwrite, they do not add up: an impulse call repeated
    with the same angles, tap or drag, leaves the state exactly as the
    first call left it.  (The repeated drag starts from the angles the
    first call remembered, so it is a drag within one cell.) *)
Theorem repeated_impulse_changes_nothing (cfg : Config) (theta phi : Q)
    (isFirstTouch : bool) (st st' : State) :
  1 ≤ heightfieldCols cfg → 3 ≤ heightfieldRows cfg →
  wfState cfg st → validTheta cfg theta → validTheta cfg (lastDrawTheta st) →
  addHeightfieldImpulse cfg theta phi isFirstTouch st = Some st' →
  addHeightfieldImpulse cfg theta phi isFirstTouch st' = Some st'.
Proof.
  intros Hcols Hrows [_ Hwp] Hvalid Hlast Hrun.
  pose proof (thetaIndexOf_range cfg Hcols theta Hvalid) as Hti.
  pose proof (thetaIndexOf_range cfg Hcols _ Hlast) as Hlti.
  pose proof (phiIndexOf_range cfg Hrows phi) as Hpi.
  unfold addHeightfieldImpulse, impulsedBuffer in *.
  destruct isFirstTouch; simpl in *.
  - destruct (pointImpulse cfg _ _ (heightfieldPrevious st)) as [g' |] eqn:Hg;
      [| discriminate].
    simpl in Hrun. injection Hrun as <-. simpl.
    unfold pointImpulse in *.
    rewrite (stamp_idempotent cfg _ _ _ _ _ g' Hcols Hrows Hwp Hti Hpi Hg).
    reflexivity.
  - destruct (pathImpulse cfg _ _ _ _ (heightfieldPrevious st)) as [g' |] eqn:Hg;
      [| discriminate].
    simpl in Hrun. injection Hrun as <-. simpl.
    rewrite pathImpulse_same_cell.
    rewrite (wrapTheta_id cfg Hcols) by exact Hti.
    replace (constrain (phiIndexOf cfg phi) 1 (heightfieldRows cfg - 2))
      with (phiIndexOf cfg phi) by (unfold constrain; lia).
    rewrite pathImpulse_forEach in Hg.
    set (a := thetaIndexOf cfg (lastDrawTheta st)) in *.
    set (pa := phiIndexOf cfg (lastDrawPhi st)) in *.
    set (b := thetaIndexOf cfg theta) in *. set (pb := phiIndexOf cfg phi) in *.
    set (n := pathSteps a pa b pb).
    assert (Hn : 0 ≤ n) by (unfold n, pathSteps; lia).
    assert (Hlist : pathCentres cfg a pa b pb =
              (pathCell cfg a pa b pb <$> seqZ 0 n) ++ [(b, pb)]).
    { unfold pathCentres. fold n. rewrite seqZ_app by lia. rewrite fmap_app.
      change (0 + n) with n. rewrite (seqZ_cons n 1) by lia.
      rewrite (seqZ_nil (Z.succ n)) by lia. simpl.
      unfold n. rewrite (pathCell_last cfg Hcols Hrows) by assumption.
      reflexivity. }
    rewrite Hlist, forEach_app in Hg.
    destruct (forEach (pathCell cfg a pa b pb <$> seqZ 0 n) (pathStamp cfg)
                (heightfieldPrevious st)) as [gm |] eqn:Hgm; [| discriminate].
    simpl in Hg.
    destruct (pathStamp cfg (b, pb) gm) as [g1 |] eqn:Hstamp; [| discriminate].
    simpl in Hg. injection Hg as ->.
    assert (Hwm : wfGrid cfg gm).
    { apply (forEach_pathStamp_wf cfg _ _ gm Hcols Hrows Hwp) in Hgm; [exact Hgm |].
      apply Forall_fmap, Forall_forall. intros s Hs.
      apply list_elem_of_In, elem_of_seqZ in Hs.
      apply (pathCell_interior cfg Hcols Hrows); (assumption || (fold n; lia)). }
    unfold pathStamp in *. cbn [fst snd] in *.
    rewrite (stamp_idempotent cfg _ _ _ _ _ g' Hcols Hrows Hwm Hti Hpi Hstamp).
    reflexivity.
Qed.

(** X7.  A drag within one cell: when the remembered angles and the new
    ones fall into the same cell, the loop of the drag line runs once and
    the call stamps that one cell, the full strength at the centre and
    [strength * 0.6] around it. *)
Theorem drag_within_one_cell (cfg : Config) (theta phi : Q) (st : State) :
  1 ≤ heightfieldCols cfg → 3 ≤ heightfieldRows cfg → validTheta cfg theta →
  thetaIndexOf cfg (lastDrawTheta st) = thetaIndexOf cfg theta →
  phiIndexOf cfg (lastDrawPhi st) = phiIndexOf cfg phi →
  pathSteps (thetaIndexOf cfg (lastDrawTheta st)) (phiIndexOf cfg (lastDrawPhi st))
    (thetaIndexOf cfg theta) (phiIndexOf cfg phi) = 0 ∧
  addHeightfieldImpulse cfg theta phi false st =
  (prev ← setCell (heightfieldPrevious st) (thetaIndexOf cfg theta)
             (phiIndexOf cfg phi) impulseStrength;
   prev ← writeNeighbours cfg (thetaIndexOf cfg theta) (phiIndexOf cfg phi)
             (impulseStrength * 0.6)%Q prev;
   Some {| heightfieldCurrent := heightfieldCurrent st;
           heightfieldPrevious := prev;
           lastDrawTheta := theta; lastDrawPhi := phi |}).
Proof.
  intros Hcols Hrows Hvalid Hsame_theta Hsame_phi.
  pose proof (thetaIndexOf_range cfg Hcols theta Hvalid) as Hti.
  pose proof (phiIndexOf_range cfg Hrows phi) as Hpi.
  rewrite Hsame_theta, Hsame_phi.
  split; [unfold pathSteps; lia |].
  unfold addHeightfieldImpulse, impulsedBuffer. simpl.
  rewrite Hsame_theta, Hsame_phi, pathImpulse_same_cell.
  rewrite (wrapTheta_id cfg Hcols) by exact Hti.
  replace (constrain (phiIndexOf cfg phi) 1 (heightfieldRows cfg - 2))
    with (phiIndexOf cfg phi) by (unfold constrain; lia).
  unfold pathStamp. cbn [fst snd].
  destruct (setCell _ _ _ _) as [g1 |]; simpl; [| reflexivity].
  reflexivity.
Qed.

(** ** Drag lines and the seam *)

(** The interpolated index moves from [a] towards [b] and never turns
    back. *)
Lemma floor_lerp_monotone (a b : Z) (t t' : Q) :
  (0 <= t)%Q → (t <= t')%Q → (t' <= 1)%Q →
  (a ≤ b →
   a ≤ floor (lerp (inject_Z a) (inject_Z b) t)
   ∧ floor (lerp (inject_Z a) (inject_Z b) t)
     ≤ floor (lerp (inject_Z a) (inject_Z b) t')
   ∧ floor (lerp (inject_Z a) (inject_Z b) t') ≤ b) ∧
  (b ≤ a →
   b ≤ floor (lerp (inject_Z a) (inject_Z b) t')
   ∧ floor (lerp (inject_Z a) (inject_Z b) t')
     ≤ floor (lerp (inject_Z a) (inject_Z b) t)
   ∧ floor (lerp (inject_Z a) (inject_Z b) t) ≤ a).
Proof.
  intros H0 Hle H1.
  pose proof (floor_lerp_between a b t ltac:(split; lra)) as Hb.
  pose proof (floor_lerp_between a b t' ltac:(split; lra)) as Hb'.
  split; intros Hab.
  - split; [lia |]. split; [| lia].
    unfold floor, lerp. apply Qfloor_resp_le.
    rewrite Zle_Qle in Hab. nra.
  - split; [lia |]. split; [| lia].
    unfold floor, lerp. apply Qfloor_resp_le.
    rewrite Zle_Qle in Hab. nra.
Qed.

Lemma fraction_monotone (s s' n : Z) :
  1 ≤ n → 0 ≤ s → s ≤ s' → s' ≤ n →
  (0 <= inject_Z s / inject_Z n)%Q ∧
  (inject_Z s / inject_Z n <= inject_Z s' / inject_Z n)%Q ∧
  (inject_Z s' / inject_Z n <= 1)%Q.
Proof.
  intros Hn H0 Hle H1.
  assert (HN : (0 < inject_Z n)%Q) by (rewrite <- (Zlt_Qlt 0); lia).
  destruct (unit_fraction s n ltac:(lia) Hn) as [Hs0 _].
  destruct (unit_fraction s' n ltac:(lia) Hn) as [_ Hs1].
  split; [exact Hs0 |]. split; [| exact Hs1].
  unfold Qdiv. apply Qmult_le_compat_r.
  - rewrite <- Zle_Qle. exact Hle.
  - apply Qlt_le_weak, Qinv_lt_0_compat, HN.
Qed.

(** X20.  A drag never crosses the seam.  Between two cells of the grid
    the line takes [max(|Δcol|, |Δrow|)] steps, the column difference
    taken as it is and not around the sphere; it starts in the first cell,
    ends in the second, and the columns of its centre cells run from one
    to the other without turning back and without leaving the columns
    between them.  A drag from the last column to the first therefore
    stamps its way through every column of the grid, where the way across
    the seam is one column long. *)
Theorem drag_never_crosses_the_seam (cfg : Config) (a pa b pb : Z) (g : Grid) :
  1 ≤ heightfieldCols cfg → 3 ≤ heightfieldRows cfg →
  0 ≤ a < heightfieldCols cfg → 0 ≤ b < heightfieldCols cfg →
  1 ≤ pa ≤ heightfieldRows cfg - 2 → 1 ≤ pb ≤ heightfieldRows cfg - 2 →
  pathImpulse cfg a pa b pb g
  = forEach (pathCell cfg a pa b pb <$> seqZ 0 (pathSteps a pa b pb + 1))
      (pathStamp cfg) g ∧
  pathSteps a pa b pb = Z.max (Z.abs (b - a)) (Z.abs (pb - pa)) ∧
  pathCell cfg a pa b pb 0 = (a, pa) ∧
  pathCell cfg a pa b pb (pathSteps a pa b pb) = (b, pb) ∧
  (∀ s s', 0 ≤ s → s ≤ s' → s' ≤ pathSteps a pa b pb →
     (a ≤ b →
      a ≤ (pathCell cfg a pa b pb s).1
      ∧ (pathCell cfg a pa b pb s).1 ≤ (pathCell cfg a pa b pb s').1
      ∧ (pathCell cfg a pa b pb s').1 ≤ b) ∧
     (b ≤ a →
      b ≤ (pathCell cfg a pa b pb s').1
      ∧ (pathCell cfg a pa b pb s').1 ≤ (pathCell cfg a pa b pb s).1
      ∧ (pathCell cfg a pa b pb s).1 ≤ a)) ∧
  (a = heightfieldCols cfg - 1 → b = 0 → pa = pb →
   pathSteps a pa b pb + 1 = heightfieldCols cfg).
Proof.
  intros Hcols Hrows Ha Hb Hpa Hpb.
  split; [apply pathImpulse_forEach |]. split; [reflexivity |].
  assert (Hn : 0 ≤ pathSteps a pa b pb) by (unfold pathSteps; lia).
  split; [| split; [apply (pathCell_last cfg Hcols Hrows); assumption |]].
  - rewrite (pathCell_raw cfg Hcols Hrows) by (assumption || lia).
    assert (Hval : ∀ x y : Z,
              floor (lerp (inject_Z x) (inject_Z y)
                       (inject_Z 0 / inject_Z (Z.max (pathSteps a pa b pb) 1)))
              = x).
    { intros x y. unfold floor, lerp.
      assert (Heq : (inject_Z 0 / inject_Z (Z.max (pathSteps a pa b pb) 1)
                     * (inject_Z y - inject_Z x) + inject_Z x == inject_Z x)%Q).
      { change (inject_Z 0) with 0%Q. unfold Qdiv. rewrite !Qmult_0_l. ring. }
      rewrite (Qfloor_comp _ _ Heq). apply Qfloor_Z. }
    rewrite !Hval. reflexivity.
  - split.
    + intros s s' H0 Hle H1.
      rewrite !(pathCell_raw cfg Hcols Hrows) by (assumption || lia).
      cbn [fst].
      destruct (fraction_monotone s s' (Z.max (pathSteps a pa b pb) 1))
        as (Ht0 & Htt & Ht1); try lia.
      apply floor_lerp_monotone; assumption.
    + intros -> -> ->. unfold pathSteps. lia.
Qed.

(** ** Loops that collect *)

(** A loop whose every iteration adds one item to its state folds the
    items into the state, in order. *)
Lemma forLoop_fold {St A : Type} (body : Z → St → option St) (F : Z → A)
    (add : St → A → St) (n : nat) (lo : Z) (s : St) :
  (∀ k t, lo ≤ k < lo + Z.of_nat n → body k t = Some (add t (F k))) →
  forLoop n lo body s = Some (foldl add s (F <$> seqZ lo (Z.of_nat n))).
Proof.
  revert lo s. induction n as [| n IH]; intros lo s Hbody.
  - reflexivity.
  - rewrite seqZ_cons by lia. cbn [forLoop fmap list_fmap foldl].
    rewrite Hbody by lia. cbn [mbind option_bind].
    replace (Z.pred (Z.of_nat (S n))) with (Z.of_nat n) by lia.
    replace (Z.succ lo) with (lo + 1) by lia.
    apply IH. intros k t Hk. apply Hbody. lia.
Qed.

Lemma forLe_fold {St A : Type} (body : Z → St → option St) (F : Z → A)
    (add : St → A → St) (hi : Z) (s : St) :
  -1 ≤ hi →
  (∀ k t, 0 ≤ k ≤ hi → body k t = Some (add t (F k))) →
  forLe 0 hi body s = Some (foldl add s (F <$> seqZ 0 (hi + 1))).
Proof.
  intros Hhi Hbody. unfold forLe, forLt.
  rewrite (forLoop_fold body F add) by (intros k t Hk; apply Hbody; lia).
  replace (Z.of_nat (Z.to_nat (hi + 1 - 0))) with (hi + 1) by lia. reflexivity.
Qed.

Lemma forLt_fold {St A : Type} (body : Z → St → option St) (F : Z → A)
    (add : St → A → St) (hi : Z) (s : St) :
  0 ≤ hi →
  (∀ k t, 0 ≤ k < hi → body k t = Some (add t (F k))) →
  forLt 0 hi body s = Some (foldl add s (F <$> seqZ 0 hi)).
Proof.
  intros Hhi Hbody. unfold forLt.
  rewrite (forLoop_fold body F add) by (intros k t Hk; apply Hbody; lia).
  replace (Z.of_nat (Z.to_nat (hi - 0))) with hi by lia. reflexivity.
Qed.

Lemma foldl_snoc {A : Type} (s l : list A) :
  foldl (λ s x, s ++ [x]) s l = s ++ l.
Proof.
  revert s. induction l as [| x l IH]; intros s; simpl.
  - rewrite app_nil_r. reflexivity.
  - rewrite IH, <- app_assoc. reflexivity.
Qed.

Lemma foldl_app_join {A : Type} (s : list A) (ls : list (list A)) :
  foldl (λ s l, s ++ l) s ls = s ++ mjoin ls.
Proof.
  revert s. induction ls as [| l ls IH]; intros s; simpl.
  - rewrite app_nil_r. reflexivity.
  - rewrite IH, <- app_assoc. reflexivity.
Qed.

Lemma foldl_foldl_join {St A : Type} (add : St → A → St) (s : St)
    (ls : list (list A)) :
  foldl (foldl add) s ls = foldl add s (mjoin ls).
Proof.
  revert s. induction ls as [| l ls IH]; intros s; simpl.
  - reflexivity.
  - rewrite IH, foldl_app. reflexivity.
Qed.

(** Pushing onto three arrays in step. *)
Lemma foldl_push3 {A B C : Type} (s : list A * list B * list C)
    (l : list (A * B * C)) :
  foldl (λ (s : list A * list B * list C) (x : A * B * C),
           (s.1.1 ++ [x.1.1], s.1.2 ++ [x.1.2], s.2 ++ [x.2])) s l
  = (s.1.1 ++ l.*1.*1, s.1.2 ++ l.*1.*2, s.2 ++ l.*2).
Proof.
  revert s. induction l as [| x l IH]; intros [[a b] c]; simpl.
  - rewrite !app_nil_r. reflexivity.
  - rewrite IH. simpl. rewrite <- !app_assoc. reflexivity.
Qed.

(** Pieces of a list of rows of one length. *)
Lemma take_drop_join {A : Type} (m : nat) (ls : list (list A)) (k : nat)
    (x : list A) :
  Forall (λ l, length l = m) ls → ls !! k = Some x →
  take m (drop (k * m) (mjoin ls)) = x.
Proof.
  intros Hall. revert k. induction Hall as [| l ls Hl Hall IH]; intros k Hk.
  - discriminate.
  - destruct k as [| k]; simpl in *.
    + injection Hk as ->. rewrite <- Hl. apply take_app_length.
    + rewrite drop_app_ge by lia.
      replace (m + k * m - length l)%nat with (k * m)%nat by lia.
      apply IH, Hk.
Qed.

Lemma length_join_rows {A : Type} (m : nat) (ls : list (list A)) :
  Forall (λ l, length l = m) ls → length (mjoin ls) = (length ls * m)%nat.
Proof.
  induction 1 as [| l ls Hl Hall IH]; simpl; [reflexivity |].
  rewrite length_app, IH, Hl. reflexivity.
Qed.

Lemma take_drop_take {A : Type} (l : list A) (n m p : nat) :
  (m + n ≤ p)%nat → take n (drop m (take p l)) = take n (drop m l).
Proof.
  intros Hle. rewrite !take_drop_commute, take_take.
  replace ((m + n) `min` p)%nat with (m + n)%nat by lia. reflexivity.
Qed.

Lemma length_seqZ_fmap {A : Type} (f : Z → A) (lo n : Z) :
  length (f <$> seqZ lo n) = Z.to_nat n.
Proof. rewrite length_fmap, length_seqZ. reflexivity. Qed.

Lemma lookup_seqZ_fmap {A : Type} (f : Z → A) (n k : Z) :
  0 ≤ k < n → (f <$> seqZ 0 n) !! Z.to_nat k = Some (f k).
Proof.
  intros Hk. rewrite list_lookup_fmap.
  assert (Hl : seqZ 0 n !! Z.to_nat k = Some k).
  { apply lookup_seqZ. split; lia. }
  rewrite Hl. reflexivity.
Qed.

(** ** Clamping *)

Lemma constrainQ_range (n low high : Q) :
  (low <= high)%Q → (low <= constrainQ n low high <= high)%Q.
Proof.
  intros Hle. unfold constrainQ. split.
  - apply Q.le_max_r.
  - apply Q.max_lub; [apply Q.le_min_r | exact Hle].
Qed.

Lemma constrain_range (n low high : Z) :
  low ≤ high → low ≤ constrain n low high ≤ high.
Proof. unfold constrain. lia. Qed.

(** ** Sampling the heightfield along the mesh *)

(** The angle of mesh line [k] of [d] lies within one turn. *)
Lemma mesh_fraction (k d : Z) (turn : Q) :
  1 ≤ d → 0 ≤ k ≤ d → (0 <= turn)%Q →
  (0 <= inject_Z k / inject_Z d * turn <= turn)%Q.
Proof.
  intros Hd Hk Hturn.
  destruct (unit_fraction k d Hk Hd) as [H0 H1].
  set (u := (inject_Z k / inject_Z d)%Q) in *. split; nra.
Qed.

Lemma PI_pos : (0 < PI)%Q.
Proof. reflexivity. Qed.

Lemma PI_nonzero : ¬ (PI == 0)%Q.
Proof. intros H. vm_compute in H. discriminate H. Qed.

Lemma TWO_PI_nonzero : ¬ (TWO_PI == 0)%Q.
Proof. intros H. vm_compute in H. discriminate H. Qed.

Lemma floor_ratio_zero (turn scale : Q) :
  floor (0 / turn * scale) = 0.
Proof.
  unfold floor.
  assert (H : (0 / turn * scale == inject_Z 0)%Q)
    by (unfold Qdiv; rewrite !Qmult_0_l; reflexivity).
  rewrite (Qfloor_comp _ _ H). apply Qfloor_Z.
Qed.

Lemma floor_ratio_one (turn : Q) (n : Z) :
  (0 < turn)%Q → floor (turn / turn * inject_Z n) = n.
Proof.
  intros Hpos. unfold floor.
  assert (H : (turn / turn * inject_Z n == inject_Z n)%Q) by (field; lra).
  rewrite (Qfloor_comp _ _ H). apply Qfloor_Z.
Qed.

Section Sampling.

Variable cfg : Config.

Hypothesis cols_pos : 1 ≤ heightfieldCols cfg.
Hypothesis rows_pos : 1 ≤ heightfieldRows cfg.

Lemma phiIndexDrawn_range (phi : Q) :
  0 ≤ phiIndexDrawn cfg phi < heightfieldRows cfg.
Proof.
  unfold phiIndexDrawn.
  pose proof (constrain_range (floor (phi / PI * inject_Z (heightfieldRows cfg)))
                0 (heightfieldRows cfg - 1)).
  lia.
Qed.

Lemma mesh_theta_range (j d : Z) :
  1 ≤ d → 0 ≤ j ≤ d →
  0 ≤ thetaIndexOf cfg (inject_Z j / inject_Z d * TWO_PI) < heightfieldCols cfg.
Proof.
  intros Hd Hj.
  destruct (mesh_fraction j d TWO_PI Hd Hj) as [H0 H1]; [vm_compute; discriminate |].
  apply (thetaIndexOf_range cfg cols_pos), (validTheta_range cfg cols_pos).
  - assert (- TWO_PI <= 0)%Q by (vm_compute; discriminate). lra.
  - assert (TWO_PI < TWO_PI * 2)%Q by reflexivity. lra.
Qed.

Lemma heightAt_wf (cur : Grid) (i j : Z) :
  wfGrid cfg cur → 0 ≤ i < heightfieldCols cfg → 0 ≤ j < heightfieldRows cfg →
  heightAt cur i j = Some (constrainQ (cellAt cur i j) (-400) 400 / 400)%Q.
Proof.
  intros Hwf Hi Hj. unfold heightAt.
  rewrite (getCell_wf cfg cur i j Hwf Hi Hj). reflexivity.
Qed.

(** The seam and the poles of the mesh.  Mesh lines [j = 0] and
    [j = d] both sample column [0]; ring [i = 0] samples row [0] and ring
    [i = d] the last row. *)
Lemma mesh_seam (d : Z) :
  1 ≤ d →
  thetaIndexOf cfg (inject_Z 0 / inject_Z d * TWO_PI) = 0 ∧
  thetaIndexOf cfg (inject_Z d / inject_Z d * TWO_PI) = 0.
Proof.
  intros Hd. unfold thetaIndexOf.
  assert (Hd' : ¬ (inject_Z d == 0)%Q).
  { change 0%Q with (inject_Z 0). rewrite inject_Z_injective. lia. }
  split.
  - assert (H : (inject_Z 0 / inject_Z d * TWO_PI / TWO_PI
                 * inject_Z (heightfieldCols cfg) == inject_Z 0)%Q).
    { change (inject_Z 0) with 0%Q. field. auto using PI_nonzero, TWO_PI_nonzero. }
    unfold floor. rewrite (Qfloor_comp _ _ H), Qfloor_Z.
    unfold wrapTheta. simpl.
    destruct (Z.leb_spec (heightfieldCols cfg) 0); [lia | reflexivity].
  - assert (H : (inject_Z d / inject_Z d * TWO_PI / TWO_PI
                 * inject_Z (heightfieldCols cfg)
                 == inject_Z (heightfieldCols cfg))%Q).
    { field. auto using PI_nonzero, TWO_PI_nonzero. }
    unfold floor. rewrite (Qfloor_comp _ _ H), Qfloor_Z.
    unfold wrapTheta.
    destruct (Z.ltb_spec (heightfieldCols cfg) 0); [lia |].
    destruct (Z.leb_spec (heightfieldCols cfg) (heightfieldCols cfg)); lia.
Qed.

Lemma mesh_poles (d : Z) :
  1 ≤ d →
  phiIndexDrawn cfg (inject_Z 0 / inject_Z d * PI) = 0 ∧
  phiIndexDrawn cfg (inject_Z d / inject_Z d * PI) = heightfieldRows cfg - 1.
Proof.
  intros Hd. unfold phiIndexDrawn.
  assert (Hd' : ¬ (inject_Z d == 0)%Q).
  { change 0%Q with (inject_Z 0). rewrite inject_Z_injective. lia. }
  split.
  - assert (H : (inject_Z 0 / inject_Z d * PI / PI
                 * inject_Z (heightfieldRows cfg) == inject_Z 0)%Q).
    { change (inject_Z 0) with 0%Q. field. auto using PI_nonzero, TWO_PI_nonzero. }
    unfold floor. rewrite (Qfloor_comp _ _ H), Qfloor_Z.
    unfold constrain. lia.
  - assert (H : (inject_Z d / inject_Z d * PI / PI
                 * inject_Z (heightfieldRows cfg)
                 == inject_Z (heightfieldRows cfg))%Q).
    { field. auto using PI_nonzero, TWO_PI_nonzero. }
    unfold floor. rewrite (Qfloor_comp _ _ H), Qfloor_Z.
    unfold constrain. lia.
Qed.

End Sampling.

(** X8.  Every cell the renderer samples exists.  For mesh line [j] of
    [detailX] and ring [i] of [detailY], the column index computed from
    [theta = j / detailX * TWO_PI] lies in [[0, cols)] and the row index
    computed from [phi = i / detailY * PI] in [[0, rows)]; the two ends of
    the seam, [j = 0] and [j = detailX], both sample column [0], and the
    two poles, [i = 0] and [i = detailY], sample the boundary rows [0] and
    [rows - 1]. *)
Theorem mesh_samples_in_bounds (cfg : Config) (detailX detailY i j : Z) :
  1 ≤ heightfieldCols cfg → 1 ≤ heightfieldRows cfg →
  1 ≤ detailX → 1 ≤ detailY → 0 ≤ i ≤ detailY → 0 ≤ j ≤ detailX →
  0 ≤ thetaIndexOf cfg (inject_Z j / inject_Z detailX * TWO_PI)
    < heightfieldCols cfg ∧
  0 ≤ phiIndexDrawn cfg (inject_Z i / inject_Z detailY * PI)
    < heightfieldRows cfg ∧
  (j = 0 ∨ j = detailX →
   thetaIndexOf cfg (inject_Z j / inject_Z detailX * TWO_PI) = 0) ∧
  (i = 0 → phiIndexDrawn cfg (inject_Z i / inject_Z detailY * PI) = 0) ∧
  (i = detailY →
   phiIndexDrawn cfg (inject_Z i / inject_Z detailY * PI)
   = heightfieldRows cfg - 1).
Proof.
  intros Hcols Hrows HdX HdY Hi Hj.
  split; [apply mesh_theta_range; assumption |].
  split; [apply phiIndexDrawn_range; assumption |].
  split; [| split].
  - intros [-> | ->]; apply (mesh_seam cfg Hcols); assumption.
  - intros ->. apply (mesh_poles cfg Hrows). assumption.
  - intros ->. apply (mesh_poles cfg Hrows). assumption.
Qed.

(** ** The mesh of the sphere *)

(** On a set-up grid the iteration for ring [i] and mesh line [j] reads
    three cells that exist. *)
Lemma sphereVertex_total (sin cos sqrt : Q → Q) (cfg : Config) (radius : Q)
    (detailX detailY : Z) (time : Q) (cur : Grid) (i j : Z) :
  1 ≤ heightfieldCols cfg → 1 ≤ heightfieldRows cfg →
  1 ≤ detailX → 1 ≤ detailY → wfGrid cfg cur →
  0 ≤ i ≤ detailY → 0 ≤ j ≤ detailX →
  is_Some (sphereVertex sin cos sqrt cfg radius detailX detailY time cur i j).
Proof.
  intros cols_pos rows_pos detailX_pos detailY_pos cur_wf Hi Hj.
  unfold sphereVertex.
  pose proof (mesh_theta_range cfg cols_pos j detailX detailX_pos Hj) as Hti.
  pose proof (phiIndexDrawn_range cfg rows_pos (inject_Z i / inject_Z detailY * PI))
    as Hpi.
  set (ti := thetaIndexOf cfg _) in *. set (pi := phiIndexDrawn cfg _) in *.
  rewrite (heightAt_wf cfg cur ti pi cur_wf Hti Hpi). cbn [mbind option_bind].
  assert (Hnt : 0 ≤ Z.rem (ti + 1) (heightfieldCols cfg) < heightfieldCols cfg).
  { rewrite Z.rem_mod_nonneg by lia. apply Z.mod_pos_bound. lia. }
  rewrite (heightAt_wf cfg cur _ pi cur_wf Hnt Hpi). cbn [mbind option_bind].
  rewrite (heightAt_wf cfg cur ti _ cur_wf Hti) by lia. cbn [mbind option_bind].
  eexists. reflexivity.
Qed.

Section Mesh.

Variables sin cos sqrt : Q → Q.
Variable cfg : Config.
Variables (radius : Q) (detailX detailY : Z) (time : Q) (cur : Grid).

Hypothesis cols_pos : 1 ≤ heightfieldCols cfg.
Hypothesis rows_pos : 1 ≤ heightfieldRows cfg.
Hypothesis detailX_pos : 1 ≤ detailX.
Hypothesis detailY_pos : 1 ≤ detailY.
Hypothesis cur_wf : wfGrid cfg cur.

(** The entries of the three arrays for ring [i] and mesh line [j]. *)
Let entry (i j : Z) : Vector.t * Vector.t * Colour :=
  default (Vector.create 0 0 0, Vector.create 0 0 0, rgba 0 0 0 0)
    (sphereVertex sin cos sqrt cfg radius detailX detailY time cur i j).

Lemma sphereVertex_entry (i j : Z) :
  0 ≤ i ≤ detailY → 0 ≤ j ≤ detailX →
  sphereVertex sin cos sqrt cfg radius detailX detailY time cur i j
  = Some (entry i j).
Proof.
  intros Hi Hj. unfold entry.
  destruct (sphereVertex_total sin cos sqrt cfg radius detailX detailY time cur i j
              cols_pos rows_pos detailX_pos detailY_pos cur_wf Hi Hj) as [x ->].
  reflexivity.
Qed.

Let entries : list (Vector.t * Vector.t * Colour) :=
  mjoin ((λ i, entry i <$> seqZ 0 (detailX + 1)) <$> seqZ 0 (detailY + 1)).

Lemma sphereArrays_entries :
  sphereArrays sin cos sqrt cfg radius detailX detailY time cur
  = Some (entries.*1.*1, entries.*1.*2, entries.*2).
Proof.
  unfold sphereArrays.
  rewrite (forLe_fold _ (λ i, entry i <$> seqZ 0 (detailX + 1))
             (foldl (λ (s : list Vector.t * list Vector.t * list Colour)
                       (x : Vector.t * Vector.t * Colour),
                       (s.1.1 ++ [x.1.1], s.1.2 ++ [x.1.2], s.2 ++ [x.2])))).
  - rewrite foldl_foldl_join, foldl_push3. reflexivity.
  - lia.
  - intros i arrays Hi. apply forLe_fold; [lia |].
    intros j [[vertices normals] colors] Hj.
    rewrite (sphereVertex_entry i j Hi Hj). destruct (entry i j) as [[p n] c].
    reflexivity.
Qed.

Lemma entries_rows :
  Forall (λ l : list (Vector.t * Vector.t * Colour),
            length l = Z.to_nat (detailX + 1))
    ((λ i, entry i <$> seqZ 0 (detailX + 1)) <$> seqZ 0 (detailY + 1)).
Proof.
  apply Forall_fmap, Forall_forall. intros i _. apply length_seqZ_fmap.
Qed.

Lemma length_entries :
  length entries = Z.to_nat ((detailX + 1) * (detailY + 1)).
Proof.
  unfold entries. rewrite (length_join_rows _ _ entries_rows), length_seqZ_fmap.
  lia.
Qed.

Lemma lookup_entries (i j : Z) :
  0 ≤ i ≤ detailY → 0 ≤ j ≤ detailX →
  entries !! Z.to_nat (i * (detailX + 1) + j) = Some (entry i j).
Proof.
  intros Hi Hj.
  replace (Z.to_nat (i * (detailX + 1) + j))
    with (Z.to_nat i * Z.to_nat (detailX + 1) + Z.to_nat j)%nat by lia.
  apply (join_lookup_Some_same_length' _ _ _ _ _ entries_rows); [lia |].
  exists (entry i <$> seqZ 0 (detailX + 1)). split.
  - apply (lookup_seqZ_fmap (λ i, entry i <$> seqZ 0 (detailX + 1))). lia.
  - apply lookup_seqZ_fmap. lia.
Qed.

Lemma get_entries (i j : Z) :
  0 ≤ i ≤ detailY → 0 ≤ j ≤ detailX →
  JsArray.get (entries.*1.*1) (i * (detailX + 1) + j) = Some (entry i j).1.1 ∧
  JsArray.get (entries.*1.*2) (i * (detailX + 1) + j) = Some (entry i j).1.2 ∧
  JsArray.get (entries.*2) (i * (detailX + 1) + j) = Some (entry i j).2.
Proof.
  intros Hi Hj. rewrite !JsArray_get_lookup by lia.
  rewrite !list_lookup_fmap, (lookup_entries i j Hi Hj). repeat split.
Qed.

(** The twelve calls of the quad between rings [i], [i + 1] and mesh
    lines [j], [j + 1]. *)
Let quad (i j : Z) : list DrawCall :=
  [fill (entry i j).2; vertex (entry i j).1.1;
   fill (entry (i + 1) j).2; vertex (entry (i + 1) j).1.1;
   fill (entry i (j + 1)).2; vertex (entry i (j + 1)).1.1;
   fill (entry (i + 1) j).2; vertex (entry (i + 1) j).1.1;
   fill (entry i (j + 1)).2; vertex (entry i (j + 1)).1.1;
   fill (entry (i + 1) (j + 1)).2; vertex (entry (i + 1) (j + 1)).1.1].

Lemma quadCalls_quad (i j : Z) :
  0 ≤ i < detailY → 0 ≤ j < detailX →
  quadCalls detailX (entries.*1.*1) (entries.*2) i j = Some (quad i j).
Proof.
  intros Hi Hj. unfold quadCalls.
  destruct (get_entries i j ltac:(lia) ltac:(lia)) as (Ha & _ & Hca).
  destruct (get_entries (i + 1) j ltac:(lia) ltac:(lia)) as (Hb & _ & Hcb).
  destruct (get_entries i (j + 1) ltac:(lia) ltac:(lia)) as (Hc & _ & Hcc).
  destruct (get_entries (i + 1) (j + 1) ltac:(lia) ltac:(lia)) as (Hd & _ & Hcd).
  replace (i * (detailX + 1) + j + detailX + 1)
    with ((i + 1) * (detailX + 1) + j) by lia.
  replace (i * (detailX + 1) + j + 1) with (i * (detailX + 1) + (j + 1)) by lia.
  replace ((i + 1) * (detailX + 1) + j + 1)
    with ((i + 1) * (detailX + 1) + (j + 1)) by lia.
  rewrite Ha, Hb, Hc, Hd, Hca, Hcb, Hcc, Hcd. reflexivity.
Qed.

Let strips : list (list DrawCall) :=
  (λ i, mjoin (quad i <$> seqZ 0 detailX)) <$> seqZ 0 detailY.

Lemma triangleCalls_quads :
  triangleCalls detailX detailY (entries.*1.*1) (entries.*2) = Some (mjoin strips).
Proof.
  unfold triangleCalls.
  rewrite (forLt_fold _ (λ i, mjoin (quad i <$> seqZ 0 detailX))
             (λ s l, s ++ l)).
  - rewrite foldl_app_join. reflexivity.
  - lia.
  - intros i calls Hi.
    rewrite (forLt_fold _ (quad i) (λ s l, s ++ l)).
    + rewrite foldl_app_join. reflexivity.
    + lia.
    + intros j calls' Hj. rewrite (quadCalls_quad i j Hi Hj). reflexivity.
Qed.

Lemma quad_rows (i : Z) :
  Forall (λ l : list DrawCall, length l = 12%nat) (quad i <$> seqZ 0 detailX).
Proof. apply Forall_fmap, Forall_forall. intros j _. reflexivity. Qed.

Lemma strips_rows :
  Forall (λ l : list DrawCall, length l = (Z.to_nat detailX * 12)%nat) strips.
Proof.
  apply Forall_fmap, Forall_forall. intros i _. unfold compose.
  rewrite (length_join_rows _ _ (quad_rows i)), length_seqZ_fmap. reflexivity.
Qed.

Lemma quads_piece (i j : Z) :
  0 ≤ i < detailY → 0 ≤ j < detailX →
  take 12 (drop (Z.to_nat (12 * (i * detailX + j))) (mjoin strips)) = quad i j.
Proof.
  intros Hi Hj.
  replace (Z.to_nat (12 * (i * detailX + j)))
    with (Z.to_nat i * (Z.to_nat detailX * 12) + Z.to_nat j * 12)%nat by lia.
  rewrite <- (drop_drop _ (Z.to_nat j * 12) (Z.to_nat i * (Z.to_nat detailX * 12))).
  rewrite <- (take_drop_take _ 12 (Z.to_nat j * 12) (Z.to_nat detailX * 12))
    by nia.
  rewrite (take_drop_join _ strips (Z.to_nat i)
             (mjoin (quad i <$> seqZ 0 detailX)) strips_rows).
  - apply (take_drop_join 12 _ _ _ (quad_rows i)).
    apply lookup_seqZ_fmap. lia.
  - apply (lookup_seqZ_fmap (λ i, mjoin (quad i <$> seqZ 0 detailX))). lia.
Qed.

Lemma length_quads : length (mjoin strips) = Z.to_nat (12 * detailX * detailY).
Proof.
  rewrite (length_join_rows _ _ strips_rows). unfold strips.
  rewrite length_seqZ_fmap. lia.
Qed.

(** The vertex loops fill three arrays of [(detailX + 1) * (detailY + 1)]
    entries, row by row: entry [i * (detailX + 1) + j] of each is what the
    iteration for ring [i] and mesh line [j] pushed. *)
Lemma sphereArrays_spec :
  ∃ vertices normals colors,
    sphereArrays sin cos sqrt cfg radius detailX detailY time cur
    = Some (vertices, normals, colors) ∧
    length vertices = Z.to_nat ((detailX + 1) * (detailY + 1)) ∧
    length normals = Z.to_nat ((detailX + 1) * (detailY + 1)) ∧
    length colors = Z.to_nat ((detailX + 1) * (detailY + 1)) ∧
    ∀ i j, 0 ≤ i ≤ detailY → 0 ≤ j ≤ detailX →
      sphereVertex sin cos sqrt cfg radius detailX detailY time cur i j
      = (position ← JsArray.get vertices (i * (detailX + 1) + j);
         adjustedNormal ← JsArray.get normals (i * (detailX + 1) + j);
         colour ← JsArray.get colors (i * (detailX + 1) + j);
         Some (position, adjustedNormal, colour)).
Proof.
  eexists _, _, _. split; [exact sphereArrays_entries |].
  rewrite !length_fmap, length_entries.
  split; [reflexivity |]. split; [reflexivity |]. split; [reflexivity |].
  intros i j Hi Hj.
  destruct (get_entries i j Hi Hj) as (-> & -> & ->). simpl.
  rewrite (sphereVertex_entry i j Hi Hj).
  destruct (entry i j) as [[p n] c]. reflexivity.
Qed.

(** The mesh: the call succeeds, and the twelve calls for the quad
    between rings [i], [i + 1] and mesh lines [j], [j + 1] draw the
    triangle over the vertices of [(i, j)], [(i + 1, j)], [(i, j + 1)] and
    then the one over [(i + 1, j)], [(i, j + 1)], [(i + 1, j + 1)], each
    vertex after a [fill] with its own colour. *)
Lemma drawHeightfieldSphere_spec :
  ∃ calls,
    drawHeightfieldSphere sin cos sqrt cfg radius detailX detailY time cur
    = Some calls ∧
    length calls = Z.to_nat (12 * detailX * detailY) ∧
    ∀ i j, 0 ≤ i < detailY → 0 ≤ j < detailX →
      ∃ p00 n00 c00 p10 n10 c10 p01 n01 c01 p11 n11 c11,
        sphereVertex sin cos sqrt cfg radius detailX detailY time cur i j
        = Some (p00, n00, c00) ∧
        sphereVertex sin cos sqrt cfg radius detailX detailY time cur (i + 1) j
        = Some (p10, n10, c10) ∧
        sphereVertex sin cos sqrt cfg radius detailX detailY time cur i (j + 1)
        = Some (p01, n01, c01) ∧
        sphereVertex sin cos sqrt cfg radius detailX detailY time cur
          (i + 1) (j + 1)
        = Some (p11, n11, c11) ∧
        take 12 (drop (Z.to_nat (12 * (i * detailX + j))) calls)
        = [fill c00; vertex p00; fill c10; vertex p10; fill c01; vertex p01;
           fill c10; vertex p10; fill c01; vertex p01; fill c11; vertex p11].
Proof.
  exists (mjoin strips). split; [| split].
  - unfold drawHeightfieldSphere. rewrite sphereArrays_entries.
    cbn [mbind option_bind]. apply triangleCalls_quads.
  - apply length_quads.
  - intros i j Hi Hj.
    pose proof (sphereVertex_entry i j ltac:(lia) ltac:(lia)) as H00.
    pose proof (sphereVertex_entry (i + 1) j ltac:(lia) ltac:(lia)) as H10.
    pose proof (sphereVertex_entry i (j + 1) ltac:(lia) ltac:(lia)) as H01.
    pose proof (sphereVertex_entry (i + 1) (j + 1) ltac:(lia) ltac:(lia)) as H11.
    pose proof (quads_piece i j Hi Hj) as Hpiece. unfold quad in Hpiece.
    destruct (entry i j) as [[p00 n00] c00].
    destruct (entry (i + 1) j) as [[p10 n10] c10].
    destruct (entry i (j + 1)) as [[p01 n01] c01].
    destruct (entry (i + 1) (j + 1)) as [[p11 n11] c11].
    exists p00, n00, c00, p10, n10, c10, p01, n01, c01, p11, n11, c11.
    repeat (split; [assumption |]). exact Hpiece.
Qed.

End Mesh.

(** X9.  The vertex loops of [drawHeightfieldSphere] never read outside a
    set-up grid, and they fill the three arrays row by row: each has
    [(detailX + 1) * (detailY + 1)] entries, and entry
    [i * (detailX + 1) + j] is what the iteration for ring [i] and mesh
    line [j] pushed. *)
Theorem sphere_mesh_arrays (sin cos sqrt : Q → Q) (cfg : Config) (radius : Q)
    (detailX detailY : Z) (time : Q) (cur : Grid) :
  1 ≤ heightfieldCols cfg → 1 ≤ heightfieldRows cfg →
  1 ≤ detailX → 1 ≤ detailY → wfGrid cfg cur →
  ∃ vertices normals colors,
    sphereArrays sin cos sqrt cfg radius detailX detailY time cur
    = Some (vertices, normals, colors) ∧
    length vertices = Z.to_nat ((detailX + 1) * (detailY + 1)) ∧
    length normals = Z.to_nat ((detailX + 1) * (detailY + 1)) ∧
    length colors = Z.to_nat ((detailX + 1) * (detailY + 1)) ∧
    ∀ i j, 0 ≤ i ≤ detailY → 0 ≤ j ≤ detailX →
      sphereVertex sin cos sqrt cfg radius detailX detailY time cur i j
      = (position ← JsArray.get vertices (i * (detailX + 1) + j);
         adjustedNormal ← JsArray.get normals (i * (detailX + 1) + j);
         colour ← JsArray.get colors (i * (detailX + 1) + j);
         Some (position, adjustedNormal, colour)).
Proof. intros. apply sphereArrays_spec; assumption. Qed.

(** X10.  The triangle loops of [drawHeightfieldSphere] never read an
    undefined vertex or colour.  The call issues [12 * detailX * detailY]
    calls, and the twelve for the quad between rings [i], [i + 1] and mesh
    lines [j], [j + 1] draw the triangle over the vertices of [(i, j)],
    [(i + 1, j)], [(i, j + 1)] and then the one over [(i + 1, j)],
    [(i, j + 1)], [(i + 1, j + 1)], each vertex after a [fill] with its own
    colour. *)
Theorem sphere_mesh_quads (sin cos sqrt : Q → Q) (cfg : Config) (radius : Q)
    (detailX detailY : Z) (time : Q) (cur : Grid) :
  1 ≤ heightfieldCols cfg → 1 ≤ heightfieldRows cfg →
  1 ≤ detailX → 1 ≤ detailY → wfGrid cfg cur →
  ∃ calls,
    drawHeightfieldSphere sin cos sqrt cfg radius detailX detailY time cur
    = Some calls ∧
    length calls = Z.to_nat (12 * detailX * detailY) ∧
    ∀ i j, 0 ≤ i < detailY → 0 ≤ j < detailX →
      ∃ p00 n00 c00 p10 n10 c10 p01 n01 c01 p11 n11 c11,
        sphereVertex sin cos sqrt cfg radius detailX detailY time cur i j
        = Some (p00, n00, c00) ∧
        sphereVertex sin cos sqrt cfg radius detailX detailY time cur (i + 1) j
        = Some (p10, n10, c10) ∧
        sphereVertex sin cos sqrt cfg radius detailX detailY time cur i (j + 1)
        = Some (p01, n01, c01) ∧
        sphereVertex sin cos sqrt cfg radius detailX detailY time cur
          (i + 1) (j + 1)
        = Some (p11, n11, c11) ∧
        take 12 (drop (Z.to_nat (12 * (i * detailX + j))) calls)
        = [fill c00; vertex p00; fill c10; vertex p10; fill c01; vertex p01;
           fill c10; vertex p10; fill c01; vertex p01; fill c11; vertex p11].
Proof. intros. apply drawHeightfieldSphere_spec; assumption. Qed.

(** ** The poles of the drawn sphere *)

(** A vertex that samples a cell holding zero stays on the sphere. *)
Lemma sphereVertex_on_zero_cell (sin cos sqrt : Q → Q) (cfg : Config)
    (radius : Q) (detailX detailY : Z) (time : Q) (cur : Grid) (i j : Z) :
  1 ≤ heightfieldCols cfg → 1 ≤ heightfieldRows cfg →
  1 ≤ detailX → 1 ≤ detailY → wfGrid cfg cur →
  0 ≤ i ≤ detailY → 0 ≤ j ≤ detailX →
  getCell cur (thetaIndexOf cfg (inject_Z j / inject_Z detailX * TWO_PI))
    (phiIndexDrawn cfg (inject_Z i / inject_Z detailY * PI)) = Some 0%Q →
  ∃ position adjustedNormal colour,
    sphereVertex sin cos sqrt cfg radius detailX detailY time cur i j
    = Some (position, adjustedNormal, colour) ∧
    (Vector.x position
     == radius * sin (inject_Z i / inject_Z detailY * PI)
        * cos (inject_Z j / inject_Z detailX * TWO_PI))%Q ∧
    (Vector.y position == radius * cos (inject_Z i / inject_Z detailY * PI))%Q ∧
    (Vector.z position
     == radius * sin (inject_Z i / inject_Z detailY * PI)
        * sin (inject_Z j / inject_Z detailX * TWO_PI))%Q.
Proof.
  intros Hcols Hrows HdX HdY Hwf Hi Hj Hzero.
  destruct (sphereVertex_total sin cos sqrt cfg radius detailX detailY time cur
              i j Hcols Hrows HdX HdY Hwf Hi Hj) as [[[p n] c] Hrun].
  exists p, n, c. split; [exact Hrun |].
  unfold sphereVertex in Hrun. cbv zeta in Hrun.
  set (phi := (inject_Z i / inject_Z detailY * PI)%Q) in *.
  set (theta := (inject_Z j / inject_Z detailX * TWO_PI)%Q) in *.
  assert (Hh : heightAt cur (thetaIndexOf cfg theta) (phiIndexDrawn cfg phi)
               = Some (constrainQ 0 (-400) 400 / 400)%Q)
    by (unfold heightAt; rewrite Hzero; reflexivity).
  rewrite Hh in Hrun. cbn [mbind option_bind] in Hrun.
  destruct (heightAt cur (Z.rem _ _) _) as [hx |]; [| discriminate Hrun].
  cbn [mbind option_bind] in Hrun.
  destruct (heightAt cur _ (Z.min _ _)) as [hy |]; [| discriminate Hrun].
  cbn [mbind option_bind] in Hrun.
  injection Hrun as <- _ _. cbn [Vector.x Vector.y Vector.z].
  assert (H0 : (constrainQ 0 (-400) 400 / 400 * 50 == 0)%Q) by reflexivity.
  rewrite !H0. repeat split; ring.
Qed.

(** X12.  The poles of the drawn sphere never move.  From the grid that
    [setup] builds, after any sequence of frames and impulses, every
    vertex of the first and of the last ring of the mesh ([i = 0] and
    [i = detailY]) is drawn at its place on the undistorted sphere: those
    rings sample the boundary rows [0] and [rows - 1], which no step and
    no impulse ever makes non-zero. *)
Theorem poles_never_move (sin cos sqrt : Q → Q) (cfg : Config)
    (es : list Event) (radius : Q) (detailX detailY : Z) (time : Q) (i j : Z) :
  1 ≤ heightfieldCols cfg → 3 ≤ heightfieldRows cfg →
  Forall (validEvent cfg) es →
  1 ≤ detailX → 1 ≤ detailY → i = 0 ∨ i = detailY → 0 ≤ j ≤ detailX →
  ∃ st0 st position adjustedNormal colour,
    setup cfg initialState = Some st0 ∧ run cfg es st0 = Some st ∧
    sphereVertex sin cos sqrt cfg radius detailX detailY time
      (heightfieldCurrent st) i j
    = Some (position, adjustedNormal, colour) ∧
    (Vector.x position
     == radius * sin (inject_Z i / inject_Z detailY * PI)
        * cos (inject_Z j / inject_Z detailX * TWO_PI))%Q ∧
    (Vector.y position == radius * cos (inject_Z i / inject_Z detailY * PI))%Q ∧
    (Vector.z position
     == radius * sin (inject_Z i / inject_Z detailY * PI)
        * sin (inject_Z j / inject_Z detailX * TWO_PI))%Q.
Proof.
  intros Hcols Hrows Hall HdX HdY Hi Hj.
  destruct (run_inv cfg Hcols Hrows es (zeroState cfg)
              (zeroState_inv cfg Hcols Hrows) Hall)
    as (st & Hrun & [Hwf _] & Hbc & _).
  assert (Hrows1 : 1 ≤ heightfieldRows cfg) by lia.
  pose proof (mesh_theta_range cfg Hcols j detailX HdX Hj) as Hti.
  destruct (mesh_poles cfg Hrows1 detailY HdY) as [Hnorth Hsouth].
  destruct (Hbc _ Hti) as [Hrow0 Hrow1].
  destruct (sphereVertex_on_zero_cell sin cos sqrt cfg radius detailX detailY time
              (heightfieldCurrent st) i j Hcols Hrows1 HdX HdY Hwf
              ltac:(lia) Hj) as (p & n & c & Hv & Hpos).
  { destruct Hi as [-> | ->]; [rewrite Hnorth | rewrite Hsouth]; assumption. }
  exists (zeroState cfg), st, p, n, c.
  split; [apply setup_zero |]. split; [exact Hrun |]. split; assumption.
Qed.

(** ** The caustic pattern *)

Section Caustics.

Variables sin cos sqrt : Q → Q.
Variable cfg : Config.
Variables (sphereRadius time : Q) (cur : Grid).

Hypothesis cols_pos : 1 ≤ heightfieldCols cfg.
Hypothesis rows_pos : 1 ≤ heightfieldRows cfg.
Hypothesis cur_wf : wfGrid cfg cur.

Lemma causticPoint_total (i j : Z) :
  0 ≤ i ≤ detail → 0 ≤ j ≤ detail * 2 →
  is_Some (causticPoint sin cos sqrt cfg sphereRadius time cur i j).
Proof.
  intros Hi Hj. unfold causticPoint.
  pose proof (mesh_theta_range cfg cols_pos j (detail * 2) ltac:(unfold detail; lia) Hj)
    as Hti.
  pose proof (phiIndexDrawn_range cfg rows_pos (inject_Z i / inject_Z detail * PI))
    as Hpi.
  cbv zeta.
  rewrite (heightAt_wf cfg cur _ _ cur_wf Hti Hpi). cbn [mbind option_bind].
  eexists. reflexivity.
Qed.

Let point (i j : Z) : Vector.t :=
  default (Vector.create 0 0 0)
    (causticPoint sin cos sqrt cfg sphereRadius time cur i j).

Lemma causticPoint_point (i j : Z) :
  0 ≤ i ≤ detail → 0 ≤ j ≤ detail * 2 →
  causticPoint sin cos sqrt cfg sphereRadius time cur i j = Some (point i j).
Proof.
  intros Hi Hj. unfold point.
  destruct (causticPoint_total i j Hi Hj) as [p ->]. reflexivity.
Qed.

Let rings : list (list Vector.t) :=
  (λ i, point i <$> seqZ 0 (detail * 2 + 1)) <$> seqZ 0 (detail + 1).

Let meridians : list (list Vector.t) :=
  (λ j, (λ i, point i j) <$> seqZ 0 (detail + 1)) <$> seqZ 0 (detail * 2 + 1).

Lemma drawCausticsOnSphere_shapes :
  drawCausticsOnSphere sin cos sqrt cfg sphereRadius time cur
  = Some (rings ++ meridians).
Proof.
  unfold drawCausticsOnSphere.
  rewrite (forLe_fold _ (λ i, point i <$> seqZ 0 (detail * 2 + 1))
             (λ s x, s ++ [x])).
  - cbn [mbind option_bind].
    rewrite (forLe_fold _ (λ j, (λ i, point i j) <$> seqZ 0 (detail + 1))
               (λ s x, s ++ [x])).
    + rewrite !foldl_snoc. reflexivity.
    + unfold detail. lia.
    + intros j shapes Hj.
      rewrite (forLe_fold _ (λ i, point i j) (λ s x, s ++ [x]));
        [| unfold detail; lia |].
      * rewrite foldl_snoc. reflexivity.
      * intros i strip Hi. rewrite (causticPoint_point i j Hi Hj). reflexivity.
  - unfold detail. lia.
  - intros i shapes Hi.
    rewrite (forLe_fold _ (point i) (λ s x, s ++ [x]));
      [| unfold detail; lia |].
    + rewrite foldl_snoc. reflexivity.
    + intros j strip Hj. rewrite (causticPoint_point i j Hi Hj). reflexivity.
Qed.

Lemma drawCausticsOnSphere_spec :
  ∃ shapes,
    drawCausticsOnSphere sin cos sqrt cfg sphereRadius time cur = Some shapes ∧
    length shapes = Z.to_nat ((detail + 1) + (detail * 2 + 1)) ∧
    ∀ i j, 0 ≤ i ≤ detail → 0 ≤ j ≤ detail * 2 →
      ∃ p ring meridian,
        causticPoint sin cos sqrt cfg sphereRadius time cur i j = Some p ∧
        shapes !! Z.to_nat i = Some ring ∧
        length ring = Z.to_nat (detail * 2 + 1) ∧
        ring !! Z.to_nat j = Some p ∧
        shapes !! Z.to_nat (detail + 1 + j) = Some meridian ∧
        length meridian = Z.to_nat (detail + 1) ∧
        meridian !! Z.to_nat i = Some p.
Proof.
  exists (rings ++ meridians). split; [exact drawCausticsOnSphere_shapes |].
  assert (Hlr : length rings = Z.to_nat (detail + 1)) by apply length_seqZ_fmap.
  split.
  - rewrite length_app, Hlr. unfold meridians. rewrite length_seqZ_fmap.
    unfold detail. lia.
  - intros i j Hi Hj.
    exists (point i j), (point i <$> seqZ 0 (detail * 2 + 1)),
      ((λ i, point i j) <$> seqZ 0 (detail + 1)).
    split; [apply causticPoint_point; assumption |].
    split.
    { rewrite lookup_app_l by (rewrite Hlr; lia).
      apply (lookup_seqZ_fmap (λ i, point i <$> seqZ 0 (detail * 2 + 1))). lia. }
    split; [apply length_seqZ_fmap |].
    split; [apply lookup_seqZ_fmap; lia |].
    split.
    { rewrite lookup_app_r by (rewrite Hlr; lia). rewrite Hlr.
      replace (Z.to_nat (detail + 1 + j) - Z.to_nat (detail + 1))%nat
        with (Z.to_nat j) by lia.
      apply (lookup_seqZ_fmap (λ j, (λ i, point i j) <$> seqZ 0 (detail + 1))).
      lia. }
    split; [apply length_seqZ_fmap |].
    apply (lookup_seqZ_fmap (λ i, point i j)). lia.
Qed.

End Caustics.

(** X13.  [drawCausticsOnSphere] never reads outside a set-up grid.  It
    draws [detail + 1] rings of [2 * detail + 1] points and then
    [2 * detail + 1] meridians of [detail + 1] points, and the point for
    ring [i] and meridian [j] is the same on both strips that pass through
    it. *)
Theorem caustic_strips (sin cos sqrt : Q → Q) (cfg : Config)
    (sphereRadius time : Q) (cur : Grid) :
  1 ≤ heightfieldCols cfg → 1 ≤ heightfieldRows cfg → wfGrid cfg cur →
  ∃ shapes,
    drawCausticsOnSphere sin cos sqrt cfg sphereRadius time cur = Some shapes ∧
    length shapes = Z.to_nat ((detail + 1) + (detail * 2 + 1)) ∧
    ∀ i j, 0 ≤ i ≤ detail → 0 ≤ j ≤ detail * 2 →
      ∃ p ring meridian,
        causticPoint sin cos sqrt cfg sphereRadius time cur i j = Some p ∧
        shapes !! Z.to_nat i = Some ring ∧
        length ring = Z.to_nat (detail * 2 + 1) ∧
        ring !! Z.to_nat j = Some p ∧
        shapes !! Z.to_nat (detail + 1 + j) = Some meridian ∧
        length meridian = Z.to_nat (detail + 1) ∧
        meridian !! Z.to_nat i = Some p.
Proof. intros. apply drawCausticsOnSphere_spec; assumption. Qed.

(** ** The handlers *)

Lemma Qlt_bool_iff (a b : Q) : Qlt_bool a b = true ↔ (a < b)%Q.
Proof.
  unfold Qlt_bool. rewrite negb_true_iff, <- not_true_iff_false, Qle_bool_iff.
  split; [apply Qnot_le_lt | apply Qlt_not_le].
Qed.

Lemma Qlt_bool_false (a b : Q) : (b <= a)%Q → Qlt_bool a b = false.
Proof.
  intros Hle. unfold Qlt_bool. apply negb_false_iff, Qle_bool_iff, Hle.
Qed.

Lemma sameControls_refl (w : Sketch) : sameControls w w.
Proof. unfold sameControls. repeat split. Qed.

(** The angles [atan2] returns need at most one wrap-around. *)
Lemma validTheta_atan2 (cfg : Config) (theta : Q) :
  1 ≤ heightfieldCols cfg → (- PI <= theta <= PI)%Q → validTheta cfg theta.
Proof.
  intros Hcols [Hlo Hhi]. pose proof PI_pos as Hpos.
  apply (validTheta_range cfg Hcols); unfold TWO_PI; lra.
Qed.

Section Interaction.

Variables sin cos sqrt acos : Q → Q.
Variables atan2 hypot : Q → Q → Q.
Variable cfg : Config.

(** [handleInteraction] either returns early or injects one impulse at an
    angle that [atan2] returned; on a first touch it then calls the two
    feedback functions. *)
Lemma handleInteraction_cases (x y : Q) (isFirstTouch : bool) (w w' : Sketch) :
  handleInteraction sqrt acos atan2 cfg x y isFirstTouch w = Some w' →
  w' = w ∨
  ∃ b a phi st,
    addHeightfieldImpulse cfg (atan2 b a) phi isFirstTouch (water w) = Some st ∧
    w' = (if isFirstTouch
          then addFeedback [playWaterSound; vibratePhone] (setWater st w)
          else setWater st w).
Proof.
  unfold handleInteraction. cbv zeta.
  match goal with
  | |- (if ?guard then Some w else _) = _ → _ => destruct guard
  end.
  - intros [= <-]. left. reflexivity.
  - destruct (addHeightfieldImpulse cfg _ _ _ _) as [st |] eqn:Hst;
      [| discriminate].
    cbn [mbind option_bind]. intros [= <-]. right.
    eexists _, _, _, st. split; [exact Hst | reflexivity].
Qed.

Lemma handleInteraction_sameControls (x y : Q) (isFirstTouch : bool)
    (w w' : Sketch) :
  handleInteraction sqrt acos atan2 cfg x y isFirstTouch w = Some w' →
  sameControls w w'.
Proof.
  intros Hrun. apply handleInteraction_cases in Hrun
    as [-> | (b & a & phi & st & _ & ->)].
  - apply sameControls_refl.
  - destruct isFirstTouch; unfold sameControls; repeat split.
Qed.

(** Under the invariant the call cannot throw, and keeps the invariant. *)
Lemma handleInteraction_inv (x y : Q) (isFirstTouch : bool) (w : Sketch) :
  1 ≤ heightfieldCols cfg → 3 ≤ heightfieldRows cfg →
  (∀ b a, (- PI <= atan2 b a <= PI)%Q) →
  sketchInv cfg w →
  ∃ w', handleInteraction sqrt acos atan2 cfg x y isFirstTouch w = Some w' ∧
        sketchInv cfg w'.
Proof.
  intros Hcols Hrows Hatan (Hwater & Hr & Hw & Hh).
  unfold handleInteraction. cbv zeta.
  match goal with
  | |- ∃ w', (if ?guard then Some w else _) = _ ∧ _ => destruct guard
  end.
  - exists w. split; [reflexivity |]. exact (conj Hwater (conj Hr (conj Hw Hh))).
  - match goal with
    | |- context [addHeightfieldImpulse cfg ?theta ?phi _ _] =>
        destruct (step_inv cfg Hcols Hrows (Impulse theta phi isFirstTouch)
                    (water w) Hwater) as (st & Hst & Hinv);
        [apply (validTheta_atan2 cfg _ Hcols), Hatan |]
    end.
    cbn [step] in Hst. rewrite Hst. cbn [mbind option_bind].
    eexists. split; [reflexivity |].
    destruct isFirstTouch; exact (conj Hinv (conj Hr (conj Hw Hh))).
Qed.

(** [draw] under the invariant: the step and both drawing routines run
    through. *)
Lemma draw_inv (w : Sketch) :
  1 ≤ heightfieldCols cfg → 3 ≤ heightfieldRows cfg → sketchInv cfg w →
  ∃ w' picture, draw sin cos sqrt cfg w = Some (w', picture) ∧ sketchInv cfg w'.
Proof.
  intros Hcols Hrows (Hwater & Hr & Hw & Hh). unfold draw. cbv zeta.
  change (showInstructions (setTime (time w + 0.016)%Q w))
    with (showInstructions w).
  destruct (showInstructions w).
  - eexists _, _. split; [reflexivity |].
    exact (conj Hwater (conj Hr (conj Hw Hh))).
  - change (water (setTime (time w + 0.016)%Q w)) with (water w).
    destruct (step_inv cfg Hcols Hrows Frame (water w) Hwater I)
      as (st & Hst & Hinv).
    cbn [step] in Hst. rewrite Hst. cbn [mbind option_bind].
    assert (Hwf : wfGrid cfg (heightfieldCurrent st)) by apply Hinv.
    destruct (drawHeightfieldSphere_spec sin cos sqrt cfg
                (sphereRadius w) sphereDetail sphereDetail (time w + 0.016)%Q
                (heightfieldCurrent st) Hcols ltac:(lia)
                ltac:(unfold sphereDetail; lia) ltac:(unfold sphereDetail; lia) Hwf)
      as (calls & Hcalls & _).
    destruct (drawCausticsOnSphere_spec sin cos sqrt cfg
                (sphereRadius w) (time w + 0.016)%Q
                (heightfieldCurrent st) Hcols ltac:(lia) Hwf)
      as (shapes & Hshapes & _).
    cbn [water setWater setTime sphereRadius time heightfieldCurrent].
    rewrite Hcalls. cbn [mbind option_bind]. rewrite Hshapes.
    cbn [mbind option_bind].
    eexists _, _. split; [reflexivity |].
    exact (conj Hinv (conj Hr (conj Hw Hh))).
Qed.

Lemma dispatch_inv (e : UiEvent) (w : Sketch) :
  1 ≤ heightfieldCols cfg → 3 ≤ heightfieldRows cfg →
  (∀ b a, (- PI <= atan2 b a <= PI)%Q) →
  validUiEvent e → sketchInv cfg w →
  ∃ w', dispatch sin cos sqrt acos atan2 hypot cfg e w = Some w' ∧
        sketchInv cfg w'.
Proof.
  intros Hcols Hrows Hatan Hvalid Hinv.
  pose proof (λ x y f w, handleInteraction_inv x y f w Hcols Hrows Hatan) as Hhandle.
  assert (Hsame : ∀ w', water w' = water w → sphereRadius w' = sphereRadius w →
            width w' = width w → height w' = height w → sketchInv cfg w').
  { intros w' H1 H2 H3 H4. unfold sketchInv. rewrite H1, H2, H3, H4. exact Hinv. }
  destruct e as [| touches | touches | | mx my | mx my | | ww wh]; simpl.
  - destruct (draw_inv w Hcols Hrows Hinv) as (w' & picture & -> & Hinv').
    exists w'. split; [reflexivity | exact Hinv'].
  - unfold touchStarted. destruct (showInstructions w).
    + eexists. split; [reflexivity |]. apply Hsame; reflexivity.
    + destruct touches as [| touch touches].
      * exists w. split; [reflexivity | exact Hinv].
      * apply Hhandle, Hsame; reflexivity.
  - unfold touchMoved. destruct (isDrawing w).
    + destruct touches as [| touch touches].
      * exists w. split; [reflexivity | exact Hinv].
      * apply Hhandle, Hinv.
    + exists w. split; [reflexivity | exact Hinv].
  - eexists. split; [reflexivity |]. apply Hsame; reflexivity.
  - unfold mousePressed. destruct (showInstructions w).
    + eexists. split; [reflexivity |]. apply Hsame; reflexivity.
    + cbv zeta. destruct (Qlt_bool _ _).
      * apply Hhandle, Hsame; reflexivity.
      * eexists. split; [reflexivity |]. apply Hsame; reflexivity.
  - unfold mouseDragged. destruct (isDragging w).
    + eexists. split; [reflexivity |]. apply Hsame; reflexivity.
    + destruct (isDrawing w).
      * apply Hhandle, Hinv.
      * exists w. split; [reflexivity | exact Hinv].
  - eexists. split; [reflexivity |]. apply Hsame; reflexivity.
  - eexists. split; [reflexivity |].
    destruct Hvalid as [Hww Hwh]. destruct Hinv as (Hwater & _).
    split; [exact Hwater |]. split; [| split; assumption]. simpl.
    assert (0 < Qmin ww wh)%Q by (apply Q.min_glb_lt; assumption). lra.
Qed.

Lemma session_inv (es : list UiEvent) (w : Sketch) :
  1 ≤ heightfieldCols cfg → 3 ≤ heightfieldRows cfg →
  (∀ b a, (- PI <= atan2 b a <= PI)%Q) →
  Forall validUiEvent es → sketchInv cfg w →
  ∃ w', session sin cos sqrt acos atan2 hypot cfg es w = Some w' ∧
        sketchInv cfg w'.
Proof.
  intros Hcols Hrows Hatan Hall. revert w.
  induction Hall as [| e es He Hes IH]; intros w Hinv.
  - exists w. split; [reflexivity | exact Hinv].
  - destruct (dispatch_inv e w Hcols Hrows Hatan He Hinv) as (w1 & Hrun1 & Hinv1).
    destruct (IH w1 Hinv1) as (w' & Hrun & Hinv').
    exists w'. split; [| exact Hinv'].
    simpl. rewrite Hrun1. exact Hrun.
Qed.

Lemma setupSketch_inv (windowWidth windowHeight : Q) :
  1 ≤ heightfieldCols cfg → 3 ≤ heightfieldRows cfg →
  (0 < windowWidth)%Q → (0 < windowHeight)%Q →
  ∃ w0, setupSketch cfg windowWidth windowHeight loadedSketch = Some w0 ∧
        water w0 = zeroState cfg ∧ showInstructions w0 = true ∧
        isDrawing w0 = false ∧ isDragging w0 = false ∧ feedback w0 = [] ∧
        rotationX w0 = 0%Q ∧ sketchInv cfg w0.
Proof.
  intros Hcols Hrows Hww Hwh. unfold setupSketch. cbv zeta.
  change (water (setCanvas windowWidth windowHeight loadedSketch))
    with initialState.
  rewrite setup_zero. cbn [mbind option_bind].
  eexists. split; [reflexivity |].
  do 6 (split; [reflexivity |]).
  split; [apply (zeroState_inv cfg Hcols Hrows) |].
  split; [| split; assumption]. simpl.
  assert (0 < Qmin windowWidth windowHeight)%Q
    by (apply Q.min_glb_lt; assumption). lra.
Qed.

(** X14.  The sketch never throws.  With a grid of at least one column and
    three rows, a window of positive size, and an [atan2] whose values lie
    in [[-PI, PI]], [setup] followed by any sequence of frames, touch and
    mouse events and resizes (to positive sizes) runs through: no handler
    and no drawing routine reads or writes outside the buffers.
    Afterwards the buffers still have their shape, their boundary rows
    hold zero, and the radius and the canvas size are positive. *)
Theorem session_never_throws (windowWidth windowHeight : Q)
    (es : list UiEvent) :
  1 ≤ heightfieldCols cfg → 3 ≤ heightfieldRows cfg →
  (∀ b a, (- PI <= atan2 b a <= PI)%Q) →
  (0 < windowWidth)%Q → (0 < windowHeight)%Q → Forall validUiEvent es →
  ∃ w0 w,
    setupSketch cfg windowWidth windowHeight loadedSketch = Some w0 ∧
    session sin cos sqrt acos atan2 hypot cfg es w0 = Some w ∧
    wfState cfg (water w) ∧
    boundaryZero cfg (heightfieldCurrent (water w)) ∧
    boundaryZero cfg (heightfieldPrevious (water w)) ∧
    (0 < sphereRadius w)%Q ∧ (0 < width w)%Q ∧ (0 < height w)%Q.
Proof.
  intros Hcols Hrows Hatan Hww Hwh Hall.
  destruct (setupSketch_inv windowWidth windowHeight Hcols Hrows Hww Hwh)
    as (w0 & Hsetup & _ & _ & _ & _ & _ & _ & Hinv0).
  destruct (session_inv es w0 Hcols Hrows Hatan Hall Hinv0)
    as (w & Hrun & (Hwf & Hbc & Hbp & _) & Hr & Hw & Hh).
  exists w0, w. do 7 (split; [assumption |]). assumption.
Qed.

End Interaction.

Section Controls.

Variables sin cos sqrt acos : Q → Q.
Variables atan2 hypot : Q → Q → Q.
Variable cfg : Config.

(** What a frame changes when it succeeds: the time, and the water unless
    the instructions are showing. *)
Lemma draw_cases (w w' : Sketch) (picture : Picture) :
  draw sin cos sqrt cfg w = Some (w', picture) →
  (showInstructions w = true ∧ w' = setTime (time w + 0.016)%Q w) ∨
  (showInstructions w = false ∧
   ∃ st, updateHeightfield cfg (water w) = Some st ∧
         w' = setWater st (setTime (time w + 0.016)%Q w)).
Proof.
  unfold draw. cbv zeta.
  change (showInstructions (setTime (time w + 0.016)%Q w))
    with (showInstructions w).
  destruct (showInstructions w).
  - intros [= <- _]. left. split; reflexivity.
  - change (water (setTime (time w + 0.016)%Q w)) with (water w).
    destruct (updateHeightfield cfg (water w)) as [st |]; [| discriminate].
    cbn [mbind option_bind].
    destruct (drawHeightfieldSphere _ _ _ _ _ _ _ _ _); [| discriminate].
    cbn [mbind option_bind].
    destruct (drawCausticsOnSphere _ _ _ _ _ _ _); [| discriminate].
    cbn [mbind option_bind].
    intros [= <- _]. right. split; [reflexivity |]. exists st.
    split; reflexivity.
Qed.

(** Only a mouse drag that began off the sphere changes the rotation. *)
Lemma dispatch_rotation (e : UiEvent) (w w' : Sketch) :
  dispatch sin cos sqrt acos atan2 hypot cfg e w = Some w' →
  (rotationX w' = rotationX w ∧ rotationY w' = rotationY w) ∨
  (∃ mouseX mouseY,
     e = MouseDragged mouseX mouseY ∧ isDragging w = true ∧
     rotationX w'
     = constrainQ (rotationX w + (mouseY - lastMouseY w) * 0.01)
         (- PI / 2) (PI / 2) ∧
     rotationY w' = (rotationY w + (mouseX - lastMouseX w) * 0.01)%Q ∧
     water w' = water w ∧ feedback w' = feedback w).
Proof.
  assert (Hhandle : ∀ x y f v, handleInteraction sqrt acos atan2 cfg x y f v
                               = Some w' →
            rotationX w' = rotationX v ∧ rotationY w' = rotationY v).
  { intros x y f v Hrun. apply handleInteraction_sameControls in Hrun.
    split; apply Hrun. }
  destruct e as [| touches | touches | | mx my | mx my | | ww wh]; simpl.
  - destruct (draw sin cos sqrt cfg w) as [[w1 picture] |] eqn:Hdraw;
      [| discriminate].
    simpl. intros [= <-]. left.
    apply draw_cases in Hdraw as [[_ ->] | [_ (st & _ & ->)]];
      split; reflexivity.
  - unfold touchStarted. destruct (showInstructions w).
    + intros [= <-]. left. split; reflexivity.
    + destruct touches as [| touch touches].
      * intros [= <-]. left. split; reflexivity.
      * intros Hrun. left. apply Hhandle in Hrun. exact Hrun.
  - unfold touchMoved. destruct (isDrawing w).
    + destruct touches as [| touch touches].
      * intros [= <-]. left. split; reflexivity.
      * intros Hrun. left. apply Hhandle in Hrun. exact Hrun.
    + intros [= <-]. left. split; reflexivity.
  - intros [= <-]. left. split; reflexivity.
  - unfold mousePressed. destruct (showInstructions w).
    + intros [= <-]. left. split; reflexivity.
    + cbv zeta. destruct (Qlt_bool _ _).
      * intros Hrun. left. apply Hhandle in Hrun. exact Hrun.
      * intros [= <-]. left. split; reflexivity.
  - unfold mouseDragged. destruct (isDragging w) eqn:Hdrag.
    + intros [= <-]. right. exists mx, my. repeat split.
    + destruct (isDrawing w).
      * intros Hrun. left. apply Hhandle in Hrun. exact Hrun.
      * intros [= <-]. left. split; reflexivity.
  - intros [= <-]. left. split; reflexivity.
  - intros [= <-]. left. split; reflexivity.
Qed.

Lemma halfPI_order : (- PI / 2 <= PI / 2)%Q.
Proof. vm_compute. discriminate. Qed.

(** X15.  The tilt of the sphere stays within a quarter turn: if
    [rotationX] lies in [[-PI / 2, PI / 2]], as it does at load time, it
    still does after any sequence of events, however far the mouse is
    dragged. *)
Theorem rotationX_stays_in_range (es : list UiEvent) (w w' : Sketch) :
  (- PI / 2 <= rotationX w <= PI / 2)%Q →
  session sin cos sqrt acos atan2 hypot cfg es w = Some w' →
  (- PI / 2 <= rotationX w' <= PI / 2)%Q.
Proof.
  revert w. induction es as [| e es IH]; intros w Hrange Hrun.
  - injection Hrun as <-. exact Hrange.
  - simpl in Hrun.
    destruct (dispatch sin cos sqrt acos atan2 hypot cfg e w) as [w1 |] eqn:He;
      [| discriminate].
    simpl in Hrun. apply (IH w1); [| exact Hrun].
    apply dispatch_rotation in He
      as [[-> _] | (mx & my & _ & _ & -> & _)]; [exact Hrange |].
    apply constrainQ_range, halfPI_order.
Qed.

(** X16.  Only a mouse drag that began off the sphere turns it, and such
    a drag leaves the water alone: when an event changes [rotationX] or
    [rotationY], the event is [mouseDragged] with [isDragging] set, the
    buffers are as before and no feedback function was called. *)
Theorem rotation_leaves_water_alone (e : UiEvent) (w w' : Sketch) :
  dispatch sin cos sqrt acos atan2 hypot cfg e w = Some w' →
  rotationX w' ≠ rotationX w ∨ rotationY w' ≠ rotationY w →
  (∃ mouseX mouseY, e = MouseDragged mouseX mouseY) ∧ isDragging w = true ∧
  water w' = water w ∧ feedback w' = feedback w.
Proof.
  intros Hrun Hturned.
  apply dispatch_rotation in Hrun
    as [[HX HY] | (mx & my & -> & Hdrag & _ & _ & Hwater & Hfeedback)].
  - destruct Hturned as [Hne | Hne]; contradiction.
  - split; [exists mx, my; reflexivity |]. repeat split; assumption.
Qed.

(** ** The instruction screen *)

(** While the instructions show, nothing is being drawn or dragged, the
    water is as [setup] left it and no feedback function has been
    called. *)
Let waiting (w : Sketch) : Prop :=
  showInstructions w = true ∧ isDrawing w = false ∧ isDragging w = false ∧
  water w = zeroState cfg ∧ feedback w = [].

Lemma dispatch_waiting (e : UiEvent) (w : Sketch) :
  isPress e = false → waiting w →
  ∃ w', dispatch sin cos sqrt acos atan2 hypot cfg e w = Some w' ∧ waiting w'.
Proof.
  intros Hpress (Hshow & Hdraw & Hdrag & Hwater & Hfeed).
  destruct e as [| touches | touches | | mx my | mx my | | ww wh];
    try discriminate Hpress; simpl.
  - unfold draw. cbv zeta.
    change (showInstructions (setTime (time w + 0.016)%Q w))
      with (showInstructions w).
    rewrite Hshow. eexists. split; [reflexivity |].
    repeat split; assumption.
  - unfold touchMoved. rewrite Hdraw. exists w. split; [reflexivity |].
    repeat split; assumption.
  - eexists. split; [reflexivity |]. repeat split; assumption.
  - unfold mouseDragged. rewrite Hdrag, Hdraw. exists w. split; [reflexivity |].
    repeat split; assumption.
  - eexists. split; [reflexivity |]. repeat split; assumption.
  - eexists. split; [reflexivity |]. repeat split; assumption.
Qed.

Lemma session_waiting (es : list UiEvent) (w : Sketch) :
  Forall (λ e, isPress e = false) es → waiting w →
  ∃ w', session sin cos sqrt acos atan2 hypot cfg es w = Some w' ∧ waiting w'.
Proof.
  intros Hall. revert w. induction Hall as [| e es He Hes IH]; intros w Hw.
  - exists w. split; [reflexivity | exact Hw].
  - destruct (dispatch_waiting e w He Hw) as (w1 & Hrun1 & Hw1).
    destruct (IH w1 Hw1) as (w' & Hrun & Hw').
    exists w'. split; [| exact Hw']. simpl. rewrite Hrun1. exact Hrun.
Qed.

(** X17.  The first press only dismisses the instructions.  After
    [setup], whatever frames, moves, releases and resizes come first, the
    water stays at rest while the instructions show; the first
    [touchStarted] or [mousePressed] clears [showInstructions] and does
    nothing else: no impulse, no drawing or dragging state, no call of the
    sound or vibration function. *)
Theorem first_press_only_dismisses_instructions (windowWidth windowHeight : Q)
    (es : list UiEvent) (press : UiEvent) :
  Forall (λ e, isPress e = false) es → isPress press = true →
  ∃ w0 w1 w2,
    setupSketch cfg windowWidth windowHeight loadedSketch = Some w0 ∧
    session sin cos sqrt acos atan2 hypot cfg es w0 = Some w1 ∧
    dispatch sin cos sqrt acos atan2 hypot cfg press w1 = Some w2 ∧
    showInstructions w1 = true ∧ water w1 = zeroState cfg ∧
    w2 = setShowInstructions false w1 ∧
    showInstructions w2 = false ∧ water w2 = zeroState cfg ∧
    isDrawing w2 = false ∧ isDragging w2 = false ∧ feedback w2 = [].
Proof.
  intros Hall Hpress.
  assert (Hsetup : ∃ w0, setupSketch cfg windowWidth windowHeight loadedSketch
                         = Some w0 ∧ waiting w0).
  { unfold setupSketch. cbv zeta.
    change (water (setCanvas windowWidth windowHeight loadedSketch))
      with initialState.
    rewrite setup_zero. cbn [mbind option_bind].
    eexists. split; [reflexivity |]. repeat split. }
  destruct Hsetup as (w0 & Hsetup & Hw0).
  destruct (session_waiting es w0 Hall Hw0)
    as (w1 & Hrun & Hshow & Hdraw & Hdrag & Hwater & Hfeed).
  exists w0, w1, (setShowInstructions false w1).
  split; [exact Hsetup |]. split; [exact Hrun |]. split.
  { destruct press as [| touches | touches | | mx my | mx my | | ww wh];
      try discriminate Hpress; simpl.
    - unfold touchStarted. rewrite Hshow. reflexivity.
    - unfold mousePressed. rewrite Hshow. reflexivity. }
  repeat split; assumption.
Qed.

(** ** Touches on the canvas *)

(** The square of the distance of a canvas point from the centre, in the
    units of [handleInteraction], is at most twice the squared radius. *)
Lemma screen_distance_bound (x y width height radius : Q) :
  (0 < width)%Q → (0 < height)%Q → (0 <= x <= width)%Q → (0 <= y <= height)%Q →
  ((x / width * 2 - 1) * radius * ((x / width * 2 - 1) * radius)
   + (1 - y / height * 2) * radius * ((1 - y / height * 2) * radius)
   <= radius * 1.5 * (radius * 1.5))%Q.
Proof.
  intros Hw Hh [Hx0 Hx1] [Hy0 Hy1].
  assert (Hu : (0 <= x / width <= 1)%Q).
  { split; [apply Qle_shift_div_l | apply Qle_shift_div_r]; lra. }
  assert (Hv : (0 <= y / height <= 1)%Q).
  { split; [apply Qle_shift_div_l | apply Qle_shift_div_r]; lra. }
  set (u := (x / width)%Q) in *. set (v := (y / height)%Q) in *.
  assert (Ha : ((u * 2 - 1) * (u * 2 - 1) <= 1)%Q) by nra.
  assert (Hb : ((1 - v * 2) * (1 - v * 2) <= 1)%Q) by nra.
  assert (Hr : (0 <= radius * radius)%Q) by apply Qsquare_nonneg.
  nra.
Qed.

(** X18.  A touch on the canvas always lands.  For a point inside the
    canvas the distance test of [handleInteraction] never takes the early
    return, so the call always reaches [addHeightfieldImpulse]: the
    normalised coordinates lie in [[-1, 1]], which puts the point within
    [sqrt 2 < 1.5] radii of the centre.  Of [sqrt] the proof uses only that
    it does not exceed a non-negative number whose square bounds its
    argument. *)
Theorem canvas_touch_always_lands (x y : Q) (isFirstTouch : bool) (w : Sketch) :
  (∀ s c, (0 <= c)%Q → (s <= c * c)%Q → (sqrt s <= c)%Q) →
  (0 < sphereRadius w)%Q → (0 < width w)%Q → (0 < height w)%Q →
  (0 <= x <= width w)%Q → (0 <= y <= height w)%Q →
  ∃ theta phi,
    handleInteraction sqrt acos atan2 cfg x y isFirstTouch w
    = (st ← addHeightfieldImpulse cfg theta phi isFirstTouch (water w);
       Some (if isFirstTouch
             then addFeedback [playWaterSound; vibratePhone] (setWater st w)
             else setWater st w)).
Proof.
  intros Hsqrt Hr Hw Hh Hx Hy. unfold handleInteraction. cbv zeta.
  rewrite Qlt_bool_false.
  - eexists _, _. reflexivity.
  - apply Hsqrt; [lra |]. apply screen_distance_bound; assumption.
Qed.

(** ** Feedback *)

Lemma dispatch_feedback (e : UiEvent) (w w' : Sketch) :
  dispatch sin cos sqrt acos atan2 hypot cfg e w = Some w' →
  feedback w' = feedback w ∨
  (isPress e = true ∧ showInstructions w = false ∧
   feedback w' = feedback w ++ [playWaterSound; vibratePhone]).
Proof.
  assert (Hhandle : ∀ x y f v, handleInteraction sqrt acos atan2 cfg x y f v
                               = Some w' →
            feedback w' = feedback v ∨
            (f = true ∧ feedback w' = feedback v ++ [playWaterSound; vibratePhone])).
  { intros x y f v Hrun. apply handleInteraction_cases in Hrun
      as [-> | (b & a & phi & st & _ & ->)]; [left; reflexivity |].
    destruct f; [right; split; reflexivity | left; reflexivity]. }
  destruct e as [| touches | touches | | mx my | mx my | | ww wh]; simpl.
  - destruct (draw sin cos sqrt cfg w) as [[w1 picture] |] eqn:Hdraw;
      [| discriminate].
    simpl. intros [= <-]. left.
    apply draw_cases in Hdraw as [[_ ->] | [_ (st & _ & ->)]]; reflexivity.
  - unfold touchStarted. destruct (showInstructions w).
    + intros [= <-]. left. reflexivity.
    + destruct touches as [| touch touches].
      * intros [= <-]. left. reflexivity.
      * intros Hrun. apply Hhandle in Hrun as [Hrun | [_ Hrun]];
          [left | right; repeat split]; exact Hrun.
  - unfold touchMoved. destruct (isDrawing w).
    + destruct touches as [| touch touches].
      * intros [= <-]. left. reflexivity.
      * intros Hrun. apply Hhandle in Hrun as [Hrun | [Hf _]];
          [left; exact Hrun | discriminate Hf].
    + intros [= <-]. left. reflexivity.
  - intros [= <-]. left. reflexivity.
  - unfold mousePressed. destruct (showInstructions w).
    + intros [= <-]. left. reflexivity.
    + cbv zeta. destruct (Qlt_bool _ _).
      * intros Hrun. apply Hhandle in Hrun as [Hrun | [_ Hrun]];
          [left | right; repeat split]; exact Hrun.
      * intros [= <-]. left. reflexivity.
  - unfold mouseDragged. destruct (isDragging w).
    + intros [= <-]. left. reflexivity.
    + destruct (isDrawing w).
      * intros Hrun. apply Hhandle in Hrun as [Hrun | [Hf _]];
          [left; exact Hrun | discriminate Hf].
      * intros [= <-]. left. reflexivity.
  - intros [= <-]. left. reflexivity.
  - intros [= <-]. left. reflexivity.
Qed.

(** X19.  Sound and vibration come in pairs and only from presses: over
    any sequence of events the feedback calls made are some number of
    times [playWaterSound] followed by [vibratePhone], at most once per
    [touchStarted] or [mousePressed]; frames, moves, drags, releases and
    resizes never make one. *)
Theorem feedback_only_from_presses (es : list UiEvent) (w w' : Sketch) :
  session sin cos sqrt acos atan2 hypot cfg es w = Some w' →
  ∃ n : nat,
    (n ≤ length (filter (λ e, isPress e = true) es))%nat ∧
    feedback w'
    = feedback w ++ mjoin (replicate n [playWaterSound; vibratePhone]).
Proof.
  revert w. induction es as [| e es IH]; intros w Hrun.
  - injection Hrun as <-. exists O. split; [simpl; lia |].
    simpl. rewrite app_nil_r. reflexivity.
  - simpl in Hrun.
    destruct (dispatch sin cos sqrt acos atan2 hypot cfg e w) as [w1 |] eqn:He;
      [| discriminate].
    simpl in Hrun. destruct (IH w1 Hrun) as (n & Hn & Hfeed).
    apply dispatch_feedback in He as [Hsame | (Hpress & _ & Hadd)].
    + exists n. split.
      * rewrite filter_cons. case_decide; simpl; lia.
      * rewrite Hfeed, Hsame. reflexivity.
    + exists (S n). split.
      * rewrite filter_cons, decide_True by exact Hpress. simpl. lia.
      * rewrite Hfeed, Hadd. simpl. rewrite <- app_assoc. reflexivity.
Qed.

End Controls.

(** ** Counterexamples *)

(** Against C3 as stated.  On the small grid, with [damping = 0.985 < 1]
    and no injection, one step from the state whose only non-zero cell is
    [current[4][2] = 1] takes the total squared energy from [1] to
    [1 + 0.985²]. *)
Lemma energy_grows_from_raised_cell :
  wfState smallConfig raisedCell ∧ (damping smallConfig < 1)%Q ∧
  ∃ st', updateHeightfield smallConfig raisedCell = Some st' ∧
         (totalEnergy smallConfig raisedCell == 1)%Q ∧
         (totalEnergy smallConfig st' == 1 + 0.985 * 0.985)%Q ∧
         ¬ (totalEnergy smallConfig st' <= totalEnergy smallConfig raisedCell)%Q.
Proof.
  split; [split; split; [reflexivity | repeat constructor
                        | reflexivity | repeat constructor] |].
  split; [reflexivity |].
  eexists. split; [vm_compute; reflexivity |].
  split; [vm_compute; reflexivity |]. split; [vm_compute; reflexivity |].
  vm_compute. intros Hle. apply Hle. reflexivity.
Qed.

(** The same growth along a run the sketch can perform: after a tap and
    two frames on still water, the third frame raises both the energy of
    the current buffer and the total energy. *)
Example energy_grows_along_a_run :
  ∃ st st',
    run smallConfig [Impulse PI (PI / 2) true; Frame; Frame] (zeroState smallConfig)
      = Some st ∧
    updateHeightfield smallConfig st = Some st' ∧
    (energy smallConfig (heightfieldCurrent st)
     < energy smallConfig (heightfieldCurrent st'))%Q ∧
    (totalEnergy smallConfig st < totalEnergy smallConfig st')%Q.
Proof.
  eexists. eexists. split; [vm_compute; reflexivity |].
  split; [vm_compute; reflexivity |]. split; vm_compute; reflexivity.
Qed.

(** Against C7 as stated.  For [theta = 4π] the column index is [256], which
    is neither inside [[0, cols)] nor [floor(theta / 2π * cols) mod cols]. *)
Lemma two_turns_escape_the_wrap :
  thetaIndexOf sketchConfig (PI * 4) = 256 ∧
  ¬ (0 ≤ thetaIndexOf sketchConfig (PI * 4) < heightfieldCols sketchConfig) ∧
  thetaIndexOf sketchConfig (PI * 4)
  ≠ floor ((PI * 4 / TWO_PI) * inject_Z (heightfieldCols sketchConfig))%Q
      mod heightfieldCols sketchConfig.
Proof.
  assert (Hidx : thetaIndexOf sketchConfig (PI * 4) = 256)
    by (vm_compute; reflexivity).
  split; [exact Hidx |]. rewrite Hidx. split.
  - simpl. lia.
  - vm_compute. discriminate.
Qed.

(** ** Instances *)

Lemma zeroState_wf (cfg : Config) : wfState cfg (zeroState cfg).
Proof. split; apply zeroGrid_wf. Defined.

Lemma cellAt_zeroGrid (cfg : Config) (i j : Z) : cellAt (zeroGrid cfg) i j = 0%Q.
Proof.
  unfold cellAt, getCell, zeroGrid, JsArray.get.
  destruct (i <? 0); [reflexivity |].
  destruct (replicate _ _ !! Z.to_nat i) as [col |] eqn:Hcol; [| reflexivity].
  apply lookup_replicate in Hcol as [-> _]. simpl.
  destruct (j <? 0); [reflexivity |].
  destruct (replicate _ _ !! Z.to_nat j) as [v |] eqn:Hv; [| reflexivity].
  apply lookup_replicate in Hv as [-> _]. reflexivity.
Qed.

Lemma validTheta_small_PI : validTheta smallConfig PI.
Proof. vm_compute. split; [discriminate | reflexivity]. Qed.

Lemma validTheta_small_zero : validTheta smallConfig 0%Q.
Proof. vm_compute. split; [discriminate | reflexivity]. Qed.

Lemma tapAndDrag_valid : Forall (validEvent smallConfig) tapAndDrag.
Proof.
  unfold tapAndDrag.
  constructor; [vm_compute; split; [discriminate | reflexivity] |].
  constructor; [exact I |].
  constructor; [vm_compute; split; [discriminate | reflexivity] |].
  constructor; [exact I | constructor].
Qed.

Lemma tappedWater_wf : wfState smallConfig tappedWater.
Proof.
  split; split; [reflexivity | repeat constructor
                | reflexivity | repeat constructor].
Qed.

Lemma updateHeightfield_interior_cell_witness :
  wfState smallConfig tappedWater ∧
  ∃ st', updateHeightfield smallConfig tappedWater = Some st' ∧
         ∀ col row, 0 ≤ col < heightfieldCols smallConfig →
                    1 ≤ row ≤ heightfieldRows smallConfig - 2 →
           getCell (heightfieldCurrent st') col row =
           Some (waveValue smallConfig (heightfieldCurrent tappedWater)
                   (heightfieldPrevious tappedWater) col row).
Proof.
  split; [exact tappedWater_wf |].
  apply (updateHeightfield_interior_cell smallConfig tappedWater).
  exact tappedWater_wf.
Defined.

Lemma boundary_rows_stay_zero_witness :
  (1 ≤ heightfieldCols smallConfig ∧ 3 ≤ heightfieldRows smallConfig ∧
   Forall (validEvent smallConfig) tapAndDrag) ∧
  ∃ st0 st, setup smallConfig initialState = Some st0 ∧
            heightfieldCurrent st0 = zeroGrid smallConfig ∧
            heightfieldPrevious st0 = zeroGrid smallConfig ∧
            run smallConfig tapAndDrag st0 = Some st ∧
            boundaryZero smallConfig (heightfieldCurrent st) ∧
            boundaryZero smallConfig (heightfieldPrevious st).
Proof.
  assert (Hcols : 1 ≤ heightfieldCols smallConfig) by (simpl; lia).
  assert (Hrows : 3 ≤ heightfieldRows smallConfig) by (simpl; lia).
  split; [split; [exact Hcols | split; [exact Hrows | exact tapAndDrag_valid]] |].
  apply (boundary_rows_stay_zero smallConfig tapAndDrag Hcols Hrows).
  exact tapAndDrag_valid.
Defined.

Lemma injection_visible_to_next_step_witness :
  (1 ≤ heightfieldCols smallConfig ∧ 3 ≤ heightfieldRows smallConfig ∧
   Refs.view stillMemory = Some (zeroState smallConfig) ∧
   Refs.currentRef stillMemory ≠ Refs.previousRef stillMemory ∧
   wfState smallConfig (zeroState smallConfig) ∧ validTheta smallConfig PI ∧
   validTheta smallConfig (lastDrawTheta (zeroState smallConfig))) ∧
  ∃ m1 m2 st1 st2,
    Refs.addHeightfieldImpulse smallConfig PI (PI / 2) true stillMemory = Some m1 ∧
    Refs.view m1 = Some st1 ∧
    Refs.updateHeightfield smallConfig m1 = Some m2 ∧
    Refs.view m2 = Some st2 ∧
    (Refs.currentRef m1 = Refs.currentRef stillMemory ∧
     Refs.previousRef m1 = Refs.previousRef stillMemory ∧
     ∀ a, a ≠ Refs.previousRef stillMemory →
          Refs.objects m1 !! a = Refs.objects stillMemory !! a) ∧
    (Refs.previousRef m2 = Refs.currentRef m1 ∧
     Refs.currentRef m2 = length (Refs.objects m1) ∧
     ∀ a, (a < length (Refs.objects m1))%nat →
          Refs.objects m2 !! a = Refs.objects m1 !! a) ∧
    heightfieldCurrent st1 = heightfieldCurrent (zeroState smallConfig) ∧
    heightfieldPrevious st2 = heightfieldCurrent (zeroState smallConfig) ∧
    ∀ col row, 0 ≤ col < heightfieldCols smallConfig →
               1 ≤ row ≤ heightfieldRows smallConfig - 2 →
      getCell (heightfieldCurrent st2) col row =
      Some (waveValue smallConfig (heightfieldCurrent (zeroState smallConfig))
              (heightfieldPrevious st1) col row).
Proof.
  assert (Hcols : 1 ≤ heightfieldCols smallConfig) by (simpl; lia).
  assert (Hrows : 3 ≤ heightfieldRows smallConfig) by (simpl; lia).
  assert (Hview : Refs.view stillMemory = Some (zeroState smallConfig))
    by reflexivity.
  assert (Hsep : Refs.currentRef stillMemory ≠ Refs.previousRef stillMemory)
    by (simpl; lia).
  split.
  - split; [exact Hcols |]. split; [exact Hrows |].
    split; [exact Hview |]. split; [exact Hsep |].
    split; [apply zeroState_wf |].
    split; [exact validTheta_small_PI | exact validTheta_small_zero].
  - apply (injection_visible_to_next_step smallConfig PI (PI / 2) true
             stillMemory (zeroState smallConfig) Hcols Hrows Hview Hsep
             (zeroState_wf smallConfig) validTheta_small_PI
             validTheta_small_zero).
Defined.

Lemma angle_to_index_witness :
  (1 ≤ heightfieldCols sketchConfig ≤ 2 ^ 50 ∧
   3 ≤ heightfieldRows sketchConfig ≤ 2 ^ 50) ∧
  Double.rawIndex (-2.5) Double.TWO_PI (heightfieldCols sketchConfig)
  = Some (-102) ∧
  Double.thetaIndexOf sketchConfig (-2.5) = Some 154 ∧
  Double.rawIndex 0.0078125 Double.PI (heightfieldRows sketchConfig) = Some 0 ∧
  Double.phiIndexOf sketchConfig 0.0078125 = Some 1.
Proof.
  assert (Hcols : 1 ≤ heightfieldCols sketchConfig ≤ 2 ^ 50) by (simpl; lia).
  assert (Hrows : 3 ≤ heightfieldRows sketchConfig ≤ 2 ^ 50) by (simpl; lia).
  assert (Hk : Double.rawIndex (-2.5) Double.TWO_PI (heightfieldCols sketchConfig)
               = Some (-102)) by (vm_compute; reflexivity).
  assert (Hr : Double.rawIndex 0.0078125 Double.PI (heightfieldRows sketchConfig)
               = Some 0) by (vm_compute; reflexivity).
  destruct (angle_to_index sketchConfig (-2.5) 0.0078125 Hcols Hrows)
    as (Htheta & Hphi & _).
  destruct (Htheta (-102) Hk) as (col & Hcol & Hmod & _).
  split; [split; assumption |]. split; [exact Hk |].
  split; [| split; [exact Hr | exact (Hphi 0 Hr)]].
  rewrite Hcol. f_equal. apply Hmod. simpl. lia.
Defined.

Lemma step_from_rest_loses_energy_witness :
  (wfState smallConfig tappedWater ∧ (0 <= damping smallConfig)%Q ∧
   (damping smallConfig < 1)%Q ∧
   ∀ i j, (cellAt (heightfieldCurrent tappedWater) i j == 0)%Q) ∧
  ∃ st', updateHeightfield smallConfig tappedWater = Some st' ∧
         (totalEnergy smallConfig st' <= totalEnergy smallConfig tappedWater)%Q ∧
         ((∃ i j, 0 ≤ i < heightfieldCols smallConfig ∧
                  0 ≤ j < heightfieldRows smallConfig ∧
                  ¬ (cellAt (heightfieldPrevious tappedWater) i j == 0)%Q) →
          (totalEnergy smallConfig st' < totalEnergy smallConfig tappedWater)%Q).
Proof.
  assert (Hd0 : (0 <= damping smallConfig)%Q) by (vm_compute; discriminate).
  assert (Hd1 : (damping smallConfig < 1)%Q) by (vm_compute; reflexivity).
  assert (Hrest : ∀ i j, (cellAt (heightfieldCurrent tappedWater) i j == 0)%Q).
  { intros i j. change (heightfieldCurrent tappedWater) with (zeroGrid smallConfig).
    rewrite cellAt_zeroGrid. reflexivity. }
  split; [repeat split; (assumption || apply tappedWater_wf) |].
  apply (step_from_rest_loses_energy smallConfig tappedWater
           tappedWater_wf Hd0 Hd1 Hrest).
Defined.

(** ** Instances of the further properties *)

Lemma zeroGrid_still (cfg : Config) : stillGrid cfg (zeroGrid cfg).
Proof.
  split; [apply zeroGrid_wf |]. intros i j. rewrite cellAt_zeroGrid. reflexivity.
Qed.

Lemma still_water_stays_still_witness :
  (stillGrid smallConfig (heightfieldCurrent (zeroState smallConfig)) ∧
   stillGrid smallConfig (heightfieldPrevious (zeroState smallConfig))) ∧
  ∃ st', run smallConfig (replicate 3 Frame) (zeroState smallConfig) = Some st' ∧
         stillGrid smallConfig (heightfieldCurrent st') ∧
         stillGrid smallConfig (heightfieldPrevious st').
Proof.
  split; [split; apply zeroGrid_still |].
  apply (still_water_stays_still smallConfig 3 (zeroState smallConfig));
    apply zeroGrid_still.
Defined.

(** The tap at [(4, 2)] is more than one cell away from [(0, 2)]. *)
Lemma tap_far_from_column_zero :
  agreeAround smallConfig 0 2 (Z.of_nat 1) (zeroState smallConfig) tappedWater.
Proof.
  intros di dj Hdi Hdj.
  assert (Hi : di = -1 ∨ di = 0 ∨ di = 1) by lia.
  assert (Hj : dj = -1 ∨ dj = 0 ∨ dj = 1) by lia.
  destruct Hi as [-> | [-> | ->]], Hj as [-> | [-> | ->]];
    split; vm_compute; reflexivity.
Qed.

Lemma ripples_travel_one_cell_per_frame_witness :
  (1 ≤ heightfieldCols smallConfig ∧ wfState smallConfig (zeroState smallConfig) ∧
   wfState smallConfig tappedWater ∧
   agreeAround smallConfig 0 2 (Z.of_nat 1) (zeroState smallConfig) tappedWater) ∧
  ∃ st1' st2',
    run smallConfig (replicate 1 Frame) (zeroState smallConfig) = Some st1' ∧
    run smallConfig (replicate 1 Frame) tappedWater = Some st2' ∧
    cellAt (heightfieldCurrent st1') (0 mod heightfieldCols smallConfig) 2
    = cellAt (heightfieldCurrent st2') (0 mod heightfieldCols smallConfig) 2 ∧
    cellAt (heightfieldPrevious st1') (0 mod heightfieldCols smallConfig) 2
    = cellAt (heightfieldPrevious st2') (0 mod heightfieldCols smallConfig) 2.
Proof.
  assert (Hcols : 1 ≤ heightfieldCols smallConfig) by (simpl; lia).
  split.
  - split; [exact Hcols |]. split; [apply zeroState_wf |].
    split; [exact tappedWater_wf | exact tap_far_from_column_zero].
  - apply (ripples_travel_one_cell_per_frame smallConfig 1 0 2
             (zeroState smallConfig) tappedWater Hcols
             (zeroState_wf smallConfig) tappedWater_wf tap_far_from_column_zero).
Defined.

Lemma updateHeightfield_rotateColumns_witness :
  (1 ≤ heightfieldCols smallConfig ∧ wfState smallConfig tappedWater) ∧
  ∃ st', updateHeightfield smallConfig tappedWater = Some st' ∧
         updateHeightfield smallConfig (rotateState tappedWater)
         = Some (rotateState st').
Proof.
  assert (Hcols : 1 ≤ heightfieldCols smallConfig) by (simpl; lia).
  split; [split; [exact Hcols | exact tappedWater_wf] |].
  apply (updateHeightfield_rotateColumns smallConfig tappedWater Hcols
           tappedWater_wf).
Defined.

Lemma tap_footprint_witness :
  (2 ≤ heightfieldCols smallConfig ∧ 3 ≤ heightfieldRows smallConfig ∧
   wfState smallConfig (zeroState smallConfig) ∧ validTheta smallConfig PI) ∧
  ∃ st', addHeightfieldImpulse smallConfig PI (PI / 2) true (zeroState smallConfig)
         = Some st' ∧
    heightfieldCurrent st' = heightfieldCurrent (zeroState smallConfig) ∧
    lastDrawTheta st' = PI ∧ lastDrawPhi st' = (PI / 2)%Q ∧
    getCell (heightfieldPrevious st') (thetaIndexOf smallConfig PI)
      (phiIndexOf smallConfig (PI / 2))
    = Some (if decide (phiIndexOf smallConfig (PI / 2) = 1
                       ∨ phiIndexOf smallConfig (PI / 2)
                         = heightfieldRows smallConfig - 2)
            then (impulseStrength * 0.7)%Q else impulseStrength) ∧
    (∀ di dj, -1 ≤ di ≤ 1 → -1 ≤ dj ≤ 1 → (di, dj) ≠ (0, 0) →
       getCell (heightfieldPrevious st')
         ((thetaIndexOf smallConfig PI + di) mod heightfieldCols smallConfig)
         (constrain (phiIndexOf smallConfig (PI / 2) + dj) 1
            (heightfieldRows smallConfig - 2))
       = Some (impulseStrength * 0.7)%Q) ∧
    (∀ i j, 1 < (i - thetaIndexOf smallConfig PI) mod heightfieldCols smallConfig
                < heightfieldCols smallConfig - 1
            ∨ j < phiIndexOf smallConfig (PI / 2) - 1
            ∨ phiIndexOf smallConfig (PI / 2) + 1 < j →
       getCell (heightfieldPrevious st') i j
       = getCell (heightfieldPrevious (zeroState smallConfig)) i j).
Proof.
  assert (Hcols : 2 ≤ heightfieldCols smallConfig) by (simpl; lia).
  assert (Hrows : 3 ≤ heightfieldRows smallConfig) by (simpl; lia).
  split.
  - split; [exact Hcols |]. split; [exact Hrows |].
    split; [apply zeroState_wf | exact validTheta_small_PI].
  - apply (tap_footprint smallConfig PI (PI / 2) (zeroState smallConfig)
             Hcols Hrows (zeroState_wf smallConfig) validTheta_small_PI).
Defined.

Lemma tap_gives_tappedWater :
  addHeightfieldImpulse smallConfig PI (PI / 2) true (zeroState smallConfig)
  = Some tappedWater.
Proof. vm_compute. reflexivity. Qed.

Lemma repeated_impulse_changes_nothing_witness :
  (1 ≤ heightfieldCols smallConfig ∧ 3 ≤ heightfieldRows smallConfig ∧
   wfState smallConfig (zeroState smallConfig) ∧ validTheta smallConfig PI ∧
   validTheta smallConfig (lastDrawTheta (zeroState smallConfig)) ∧
   addHeightfieldImpulse smallConfig PI (PI / 2) true (zeroState smallConfig)
   = Some tappedWater) ∧
  addHeightfieldImpulse smallConfig PI (PI / 2) true tappedWater = Some tappedWater.
Proof.
  assert (Hcols : 1 ≤ heightfieldCols smallConfig) by (simpl; lia).
  assert (Hrows : 3 ≤ heightfieldRows smallConfig) by (simpl; lia).
  split.
  - split; [exact Hcols |]. split; [exact Hrows |].
    split; [apply zeroState_wf |]. split; [exact validTheta_small_PI |].
    split; [exact validTheta_small_zero | exact tap_gives_tappedWater].
  - apply (repeated_impulse_changes_nothing smallConfig PI (PI / 2) true
             (zeroState smallConfig) tappedWater Hcols Hrows
             (zeroState_wf smallConfig) validTheta_small_PI validTheta_small_zero
             tap_gives_tappedWater).
Defined.

Lemma drag_within_one_cell_witness :
  (1 ≤ heightfieldCols smallConfig ∧ 3 ≤ heightfieldRows smallConfig ∧
   validTheta smallConfig PI ∧
   thetaIndexOf smallConfig (lastDrawTheta tappedWater) = thetaIndexOf smallConfig PI ∧
   phiIndexOf smallConfig (lastDrawPhi tappedWater)
   = phiIndexOf smallConfig (PI / 2)) ∧
  pathSteps (thetaIndexOf smallConfig (lastDrawTheta tappedWater))
    (phiIndexOf smallConfig (lastDrawPhi tappedWater))
    (thetaIndexOf smallConfig PI) (phiIndexOf smallConfig (PI / 2)) = 0 ∧
  addHeightfieldImpulse smallConfig PI (PI / 2) false tappedWater =
  (prev ← setCell (heightfieldPrevious tappedWater) (thetaIndexOf smallConfig PI)
             (phiIndexOf smallConfig (PI / 2)) impulseStrength;
   prev ← writeNeighbours smallConfig (thetaIndexOf smallConfig PI)
             (phiIndexOf smallConfig (PI / 2)) (impulseStrength * 0.6)%Q prev;
   Some {| heightfieldCurrent := heightfieldCurrent tappedWater;
           heightfieldPrevious := prev;
           lastDrawTheta := PI; lastDrawPhi := (PI / 2)%Q |}).
Proof.
  assert (Hcols : 1 ≤ heightfieldCols smallConfig) by (simpl; lia).
  assert (Hrows : 3 ≤ heightfieldRows smallConfig) by (simpl; lia).
  assert (Ht : thetaIndexOf smallConfig (lastDrawTheta tappedWater)
               = thetaIndexOf smallConfig PI) by reflexivity.
  assert (Hp : phiIndexOf smallConfig (lastDrawPhi tappedWater)
               = phiIndexOf smallConfig (PI / 2)) by reflexivity.
  split.
  - split; [exact Hcols |]. split; [exact Hrows |].
    split; [exact validTheta_small_PI |]. split; [exact Ht | exact Hp].
  - apply (drag_within_one_cell smallConfig PI (PI / 2) tappedWater Hcols Hrows
             validTheta_small_PI Ht Hp).
Defined.

Lemma drag_never_crosses_the_seam_witness :
  (1 ≤ heightfieldCols sketchConfig ∧ 3 ≤ heightfieldRows sketchConfig ∧
   0 ≤ 255 < heightfieldCols sketchConfig ∧ 0 ≤ 0 < heightfieldCols sketchConfig ∧
   1 ≤ 3 ≤ heightfieldRows sketchConfig - 2) ∧
  pathImpulse sketchConfig 255 3 0 3 (zeroGrid sketchConfig)
  = forEach (pathCell sketchConfig 255 3 0 3 <$> seqZ 0 (pathSteps 255 3 0 3 + 1))
      (pathStamp sketchConfig) (zeroGrid sketchConfig) ∧
  pathSteps 255 3 0 3 = Z.max (Z.abs (0 - 255)) (Z.abs (3 - 3)) ∧
  pathCell sketchConfig 255 3 0 3 0 = (255, 3) ∧
  pathCell sketchConfig 255 3 0 3 (pathSteps 255 3 0 3) = (0, 3) ∧
  (∀ s s', 0 ≤ s → s ≤ s' → s' ≤ pathSteps 255 3 0 3 →
     (255 ≤ 0 →
      255 ≤ (pathCell sketchConfig 255 3 0 3 s).1
      ∧ (pathCell sketchConfig 255 3 0 3 s).1
        ≤ (pathCell sketchConfig 255 3 0 3 s').1
      ∧ (pathCell sketchConfig 255 3 0 3 s').1 ≤ 0) ∧
     (0 ≤ 255 →
      0 ≤ (pathCell sketchConfig 255 3 0 3 s').1
      ∧ (pathCell sketchConfig 255 3 0 3 s').1
        ≤ (pathCell sketchConfig 255 3 0 3 s).1
      ∧ (pathCell sketchConfig 255 3 0 3 s).1 ≤ 255)) ∧
  (255 = heightfieldCols sketchConfig - 1 → 0 = 0 → 3 = 3 →
   pathSteps 255 3 0 3 + 1 = heightfieldCols sketchConfig).
Proof.
  assert (Hcols : 1 ≤ heightfieldCols sketchConfig) by (simpl; lia).
  assert (Hrows : 3 ≤ heightfieldRows sketchConfig) by (simpl; lia).
  assert (Ha : 0 ≤ 255 < heightfieldCols sketchConfig) by (simpl; lia).
  assert (Hb : 0 ≤ 0 < heightfieldCols sketchConfig) by (simpl; lia).
  assert (Hp : 1 ≤ 3 ≤ heightfieldRows sketchConfig - 2) by (simpl; lia).
  split; [repeat split; (assumption || apply Ha || apply Hb || apply Hp) |].
  apply (drag_never_crosses_the_seam sketchConfig 255 3 0 3 (zeroGrid sketchConfig)
           Hcols Hrows Ha Hb Hp Hp).
Defined.

Lemma mesh_samples_in_bounds_witness :
  (1 ≤ heightfieldCols sketchConfig ∧ 1 ≤ heightfieldRows sketchConfig ∧
   1 ≤ sphereDetail ∧ 0 ≤ 0 ≤ sphereDetail ∧ 0 ≤ sphereDetail ≤ sphereDetail) ∧
  0 ≤ thetaIndexOf sketchConfig
        (inject_Z sphereDetail / inject_Z sphereDetail * TWO_PI)
    < heightfieldCols sketchConfig ∧
  0 ≤ phiIndexDrawn sketchConfig (inject_Z 0 / inject_Z sphereDetail * PI)
    < heightfieldRows sketchConfig ∧
  (sphereDetail = 0 ∨ sphereDetail = sphereDetail →
   thetaIndexOf sketchConfig
     (inject_Z sphereDetail / inject_Z sphereDetail * TWO_PI) = 0) ∧
  (0 = 0 →
   phiIndexDrawn sketchConfig (inject_Z 0 / inject_Z sphereDetail * PI) = 0) ∧
  (0 = sphereDetail →
   phiIndexDrawn sketchConfig (inject_Z 0 / inject_Z sphereDetail * PI)
   = heightfieldRows sketchConfig - 1).
Proof.
  assert (Hcols : 1 ≤ heightfieldCols sketchConfig) by (simpl; lia).
  assert (Hrows : 1 ≤ heightfieldRows sketchConfig) by (simpl; lia).
  assert (Hd : 1 ≤ sphereDetail) by (unfold sphereDetail; lia).
  assert (Hi : 0 ≤ 0 ≤ sphereDetail) by (unfold sphereDetail; lia).
  assert (Hj : 0 ≤ sphereDetail ≤ sphereDetail) by lia.
  split; [repeat split; (assumption || apply Hi || apply Hj) |].
  apply (mesh_samples_in_bounds sketchConfig sphereDetail sphereDetail 0
           sphereDetail Hcols Hrows Hd Hd Hi Hj).
Defined.

Lemma sphere_mesh_arrays_witness :
  (1 ≤ heightfieldCols smallConfig ∧ 1 ≤ heightfieldRows smallConfig ∧
   1 ≤ 4 ∧ 1 ≤ 3 ∧ wfGrid smallConfig (zeroGrid smallConfig)) ∧
  ∃ vertices normals colors,
    sphereArrays sinSeries cosSeries sqrtFloor smallConfig 90 4 3 0
      (zeroGrid smallConfig)
    = Some (vertices, normals, colors) ∧
    length vertices = Z.to_nat ((4 + 1) * (3 + 1)) ∧
    length normals = Z.to_nat ((4 + 1) * (3 + 1)) ∧
    length colors = Z.to_nat ((4 + 1) * (3 + 1)) ∧
    ∀ i j, 0 ≤ i ≤ 3 → 0 ≤ j ≤ 4 →
      sphereVertex sinSeries cosSeries sqrtFloor smallConfig 90 4 3 0
        (zeroGrid smallConfig) i j
      = (position ← JsArray.get vertices (i * (4 + 1) + j);
         adjustedNormal ← JsArray.get normals (i * (4 + 1) + j);
         colour ← JsArray.get colors (i * (4 + 1) + j);
         Some (position, adjustedNormal, colour)).
Proof.
  assert (Hcols : 1 ≤ heightfieldCols smallConfig) by (simpl; lia).
  assert (Hrows : 1 ≤ heightfieldRows smallConfig) by (simpl; lia).
  assert (HdX : 1 ≤ 4) by lia. assert (HdY : 1 ≤ 3) by lia.
  split; [repeat split; (assumption || apply zeroGrid_wf) |].
  apply (sphere_mesh_arrays sinSeries cosSeries sqrtFloor smallConfig 90 4 3 0
           (zeroGrid smallConfig) Hcols Hrows HdX HdY (zeroGrid_wf smallConfig)).
Defined.

Lemma sphere_mesh_quads_witness :
  (1 ≤ heightfieldCols smallConfig ∧ 1 ≤ heightfieldRows smallConfig ∧
   1 ≤ 4 ∧ 1 ≤ 3 ∧ wfGrid smallConfig (zeroGrid smallConfig)) ∧
  ∃ calls,
    drawHeightfieldSphere sinSeries cosSeries sqrtFloor smallConfig 90 4 3 0
      (zeroGrid smallConfig)
    = Some calls ∧
    length calls = Z.to_nat (12 * 4 * 3) ∧
    ∀ i j, 0 ≤ i < 3 → 0 ≤ j < 4 →
      ∃ p00 n00 c00 p10 n10 c10 p01 n01 c01 p11 n11 c11,
        sphereVertex sinSeries cosSeries sqrtFloor smallConfig 90 4 3 0
          (zeroGrid smallConfig) i j
        = Some (p00, n00, c00) ∧
        sphereVertex sinSeries cosSeries sqrtFloor smallConfig 90 4 3 0
          (zeroGrid smallConfig) (i + 1) j
        = Some (p10, n10, c10) ∧
        sphereVertex sinSeries cosSeries sqrtFloor smallConfig 90 4 3 0
          (zeroGrid smallConfig) i (j + 1)
        = Some (p01, n01, c01) ∧
        sphereVertex sinSeries cosSeries sqrtFloor smallConfig 90 4 3 0
          (zeroGrid smallConfig) (i + 1) (j + 1)
        = Some (p11, n11, c11) ∧
        take 12 (drop (Z.to_nat (12 * (i * 4 + j))) calls)
        = [fill c00; vertex p00; fill c10; vertex p10; fill c01; vertex p01;
           fill c10; vertex p10; fill c01; vertex p01; fill c11; vertex p11].
Proof.
  assert (Hcols : 1 ≤ heightfieldCols smallConfig) by (simpl; lia).
  assert (Hrows : 1 ≤ heightfieldRows smallConfig) by (simpl; lia).
  assert (HdX : 1 ≤ 4) by lia. assert (HdY : 1 ≤ 3) by lia.
  split; [repeat split; (assumption || apply zeroGrid_wf) |].
  apply (sphere_mesh_quads sinSeries cosSeries sqrtFloor smallConfig 90 4 3 0
           (zeroGrid smallConfig) Hcols Hrows HdX HdY (zeroGrid_wf smallConfig)).
Defined.

Lemma poles_never_move_witness :
  (1 ≤ heightfieldCols smallConfig ∧ 3 ≤ heightfieldRows smallConfig ∧
   Forall (validEvent smallConfig) tapAndDrag ∧ 1 ≤ 4 ∧ 1 ≤ 3 ∧
   (3 = 0 ∨ 3 = 3) ∧ 0 ≤ 2 ≤ 4) ∧
  ∃ st0 st position adjustedNormal colour,
    setup smallConfig initialState = Some st0 ∧
    run smallConfig tapAndDrag st0 = Some st ∧
    sphereVertex sinSeries cosSeries sqrtFloor smallConfig 90 4 3 0
      (heightfieldCurrent st) 3 2
    = Some (position, adjustedNormal, colour) ∧
    (Vector.x position
     == 90 * sinSeries (inject_Z 3 / inject_Z 3 * PI)
        * cosSeries (inject_Z 2 / inject_Z 4 * TWO_PI))%Q ∧
    (Vector.y position == 90 * cosSeries (inject_Z 3 / inject_Z 3 * PI))%Q ∧
    (Vector.z position
     == 90 * sinSeries (inject_Z 3 / inject_Z 3 * PI)
        * sinSeries (inject_Z 2 / inject_Z 4 * TWO_PI))%Q.
Proof.
  assert (Hcols : 1 ≤ heightfieldCols smallConfig) by (simpl; lia).
  assert (Hrows : 3 ≤ heightfieldRows smallConfig) by (simpl; lia).
  assert (HdX : 1 ≤ 4) by lia. assert (HdY : 1 ≤ 3) by lia.
  assert (Hi : 3 = 0 ∨ 3 = 3) by (right; reflexivity).
  assert (Hj : 0 ≤ 2 ≤ 4) by lia.
  split.
  - split; [exact Hcols |]. split; [exact Hrows |].
    split; [exact tapAndDrag_valid |]. split; [exact HdX |].
    split; [exact HdY |]. split; [exact Hi | exact Hj].
  - apply (poles_never_move sinSeries cosSeries sqrtFloor smallConfig tapAndDrag
             90 4 3 0 3 2 Hcols Hrows tapAndDrag_valid HdX HdY Hi Hj).
Defined.

Lemma caustic_strips_witness :
  (1 ≤ heightfieldCols smallConfig ∧ 1 ≤ heightfieldRows smallConfig ∧
   wfGrid smallConfig (zeroGrid smallConfig)) ∧
  ∃ shapes,
    drawCausticsOnSphere sinSeries cosSeries sqrtFloor smallConfig 90 0
      (zeroGrid smallConfig) = Some shapes ∧
    length shapes = Z.to_nat ((detail + 1) + (detail * 2 + 1)) ∧
    ∀ i j, 0 ≤ i ≤ detail → 0 ≤ j ≤ detail * 2 →
      ∃ p ring meridian,
        causticPoint sinSeries cosSeries sqrtFloor smallConfig 90 0
          (zeroGrid smallConfig) i j = Some p ∧
        shapes !! Z.to_nat i = Some ring ∧
        length ring = Z.to_nat (detail * 2 + 1) ∧
        ring !! Z.to_nat j = Some p ∧
        shapes !! Z.to_nat (detail + 1 + j) = Some meridian ∧
        length meridian = Z.to_nat (detail + 1) ∧
        meridian !! Z.to_nat i = Some p.
Proof.
  assert (Hcols : 1 ≤ heightfieldCols smallConfig) by (simpl; lia).
  assert (Hrows : 1 ≤ heightfieldRows smallConfig) by (simpl; lia).
  split; [repeat split; (assumption || apply zeroGrid_wf) |].
  apply (caustic_strips sinSeries cosSeries sqrtFloor smallConfig 90 0
           (zeroGrid smallConfig) Hcols Hrows (zeroGrid_wf smallConfig)).
Defined.

(** The stand-in for [atan2] takes the four values [-PI / 2], [PI / 2],
    [PI] and [0]. *)
Lemma atan2Axis_range (b a : Q) : (- PI <= atan2Axis b a <= PI)%Q.
Proof.
  unfold atan2Axis.
  destruct (Qlt_bool b 0); [split; vm_compute; discriminate |].
  destruct (Qlt_bool 0 b); [split; vm_compute; discriminate |].
  destruct (Qlt_bool a 0); split; vm_compute; discriminate.
Qed.

(** The integer square root does not exceed a non-negative number whose
    square bounds its argument. *)
Lemma sqrtFloor_below (s c : Q) :
  (0 <= c)%Q → (s <= c * c)%Q → (sqrtFloor s <= c)%Q.
Proof.
  intros Hc Hs. unfold sqrtFloor.
  destruct (Z.lt_ge_cases (Qfloor s) 0) as [Hneg | Hpos].
  - rewrite Z.sqrt_neg by exact Hneg. exact Hc.
  - pose proof (Z.sqrt_spec (Qfloor s) Hpos) as [Hk _].
    pose proof (Z.sqrt_nonneg (Qfloor s)) as Hk0.
    pose proof (Qfloor_le s) as Hfl.
    set (k := Z.sqrt (Qfloor s)) in *.
    rewrite Zle_Qle, inject_Z_mult in Hk. rewrite Zle_Qle in Hk0.
    change (inject_Z 0) with 0%Q in Hk0.
    apply Qnot_lt_le. intros Hlt. nra.
Qed.

(** A first press, a tap on the middle of the sphere, a drag and a
    release, then a press off the sphere and a long mouse drag. *)
Lemma tapsAndTurns_valid :
  Forall validUiEvent
    [TouchStarted [(200, 150)%Q]; TouchStarted [(200, 150)%Q]; Draw;
     TouchMoved [(230, 160)%Q]; TouchEnded; WindowResized 300 300;
     MousePressed 0 0; MouseDragged 10 100000; MouseReleased].
Proof.
  repeat (constructor; [first [exact I | split; reflexivity] |]). constructor.
Qed.

Lemma session_never_throws_witness :
  (1 ≤ heightfieldCols smallConfig ∧ 3 ≤ heightfieldRows smallConfig ∧
   (∀ b a, (- PI <= atan2Axis b a <= PI)%Q) ∧ (0 < 400)%Q ∧ (0 < 300)%Q ∧
   Forall validUiEvent
     [TouchStarted [(200, 150)%Q]; TouchStarted [(200, 150)%Q]; Draw;
      TouchMoved [(230, 160)%Q]; TouchEnded; WindowResized 300 300;
      MousePressed 0 0; MouseDragged 10 100000; MouseReleased]) ∧
  ∃ w0 w,
    setupSketch smallConfig 400 300 loadedSketch = Some w0 ∧
    session sinSeries cosSeries sqrtFloor acosChord atan2Axis hypotFloor
      smallConfig
      [TouchStarted [(200, 150)%Q]; TouchStarted [(200, 150)%Q]; Draw;
       TouchMoved [(230, 160)%Q]; TouchEnded; WindowResized 300 300;
       MousePressed 0 0; MouseDragged 10 100000; MouseReleased] w0 = Some w ∧
    wfState smallConfig (water w) ∧
    boundaryZero smallConfig (heightfieldCurrent (water w)) ∧
    boundaryZero smallConfig (heightfieldPrevious (water w)) ∧
    (0 < sphereRadius w)%Q ∧ (0 < width w)%Q ∧ (0 < height w)%Q.
Proof.
  assert (Hcols : 1 ≤ heightfieldCols smallConfig) by (simpl; lia).
  assert (Hrows : 3 ≤ heightfieldRows smallConfig) by (simpl; lia).
  assert (Hww : (0 < 400)%Q) by reflexivity.
  assert (Hwh : (0 < 300)%Q) by reflexivity.
  split.
  - split; [exact Hcols |]. split; [exact Hrows |].
    split; [exact atan2Axis_range |]. split; [exact Hww |].
    split; [exact Hwh | exact tapsAndTurns_valid].
  - apply (session_never_throws sinSeries cosSeries sqrtFloor acosChord atan2Axis
             hypotFloor smallConfig 400 300 _ Hcols Hrows atan2Axis_range Hww Hwh
             tapsAndTurns_valid).
Defined.

Lemma smallSketch_level : (- PI / 2 <= rotationX smallSketch <= PI / 2)%Q.
Proof. split; vm_compute; discriminate. Qed.

Lemma rotationX_stays_in_range_witness :
  ∃ w',
    ((- PI / 2 <= rotationX smallSketch <= PI / 2)%Q ∧
     session sinSeries cosSeries sqrtFloor acosChord atan2Axis hypotFloor
       smallConfig
       [MousePressed 0 0; MousePressed 0 0; MouseDragged 10 100000; MouseReleased]
       smallSketch = Some w') ∧
    (- PI / 2 <= rotationX w' <= PI / 2)%Q.
Proof.
  destruct (session sinSeries cosSeries sqrtFloor acosChord atan2Axis hypotFloor
              smallConfig
              [MousePressed 0 0; MousePressed 0 0; MouseDragged 10 100000;
               MouseReleased] smallSketch) as [w' |] eqn:Hrun.
  - exists w'. split; [split; [exact smallSketch_level | reflexivity] |].
    apply (rotationX_stays_in_range sinSeries cosSeries sqrtFloor acosChord
             atan2Axis hypotFloor smallConfig _ smallSketch w'
             smallSketch_level Hrun).
  - vm_compute in Hrun. discriminate Hrun.
Defined.

Lemma rotation_leaves_water_alone_witness :
  ∃ w',
    (dispatch sinSeries cosSeries sqrtFloor acosChord atan2Axis hypotFloor
       smallConfig (MouseDragged 10 20)
       (setIsDragging true (setShowInstructions false smallSketch)) = Some w' ∧
     (rotationX w'
      ≠ rotationX (setIsDragging true (setShowInstructions false smallSketch))
      ∨ rotationY w'
        ≠ rotationY (setIsDragging true (setShowInstructions false smallSketch)))) ∧
    (∃ mouseX mouseY, MouseDragged 10 20 = MouseDragged mouseX mouseY) ∧
    isDragging (setIsDragging true (setShowInstructions false smallSketch)) = true ∧
    water w' = water (setIsDragging true (setShowInstructions false smallSketch)) ∧
    feedback w'
    = feedback (setIsDragging true (setShowInstructions false smallSketch)).
Proof.
  destruct (dispatch sinSeries cosSeries sqrtFloor acosChord atan2Axis hypotFloor
              smallConfig (MouseDragged 10 20)
              (setIsDragging true (setShowInstructions false smallSketch)))
    as [w' |] eqn:Hrun.
  - assert (Hturned :
      rotationX w'
      ≠ rotationX (setIsDragging true (setShowInstructions false smallSketch))
      ∨ rotationY w'
        ≠ rotationY (setIsDragging true (setShowInstructions false smallSketch))).
    { vm_compute in Hrun. injection Hrun as <-. left. vm_compute. discriminate. }
    exists w'. split; [split; [reflexivity | exact Hturned] |].
    apply (rotation_leaves_water_alone sinSeries cosSeries sqrtFloor acosChord
             atan2Axis hypotFloor smallConfig _ _ w' Hrun Hturned).
  - vm_compute in Hrun. discriminate Hrun.
Defined.

Lemma first_press_only_dismisses_instructions_witness :
  (Forall (λ e, isPress e = false)
     [Draw; TouchMoved [(1, 1)%Q]; MouseDragged 3 4; WindowResized 200 100] ∧
   isPress (TouchStarted [(200, 150)%Q]) = true) ∧
  ∃ w0 w1 w2,
    setupSketch smallConfig 400 300 loadedSketch = Some w0 ∧
    session sinSeries cosSeries sqrtFloor acosChord atan2Axis hypotFloor
      smallConfig
      [Draw; TouchMoved [(1, 1)%Q]; MouseDragged 3 4; WindowResized 200 100] w0
    = Some w1 ∧
    dispatch sinSeries cosSeries sqrtFloor acosChord atan2Axis hypotFloor
      smallConfig (TouchStarted [(200, 150)%Q]) w1 = Some w2 ∧
    showInstructions w1 = true ∧ water w1 = zeroState smallConfig ∧
    w2 = setShowInstructions false w1 ∧
    showInstructions w2 = false ∧ water w2 = zeroState smallConfig ∧
    isDrawing w2 = false ∧ isDragging w2 = false ∧ feedback w2 = [].
Proof.
  assert (Hes : Forall (λ e, isPress e = false)
            [Draw; TouchMoved [(1, 1)%Q]; MouseDragged 3 4; WindowResized 200 100])
    by (repeat constructor).
  assert (Hpress : isPress (TouchStarted [(200, 150)%Q]) = true) by reflexivity.
  split; [split; [exact Hes | exact Hpress] |].
  apply (first_press_only_dismisses_instructions sinSeries cosSeries sqrtFloor
           acosChord atan2Axis hypotFloor smallConfig 400 300 _ _ Hes Hpress).
Defined.

Lemma canvas_touch_always_lands_witness :
  ((∀ s c, (0 <= c)%Q → (s <= c * c)%Q → (sqrtFloor s <= c)%Q) ∧
   (0 < sphereRadius smallSketch)%Q ∧ (0 < width smallSketch)%Q ∧
   (0 < height smallSketch)%Q ∧
   (0 <= 400 <= width smallSketch)%Q ∧ (0 <= 0 <= height smallSketch)%Q) ∧
  ∃ theta phi,
    handleInteraction sqrtFloor acosChord atan2Axis smallConfig 400 0 true
      smallSketch
    = (st ← addHeightfieldImpulse smallConfig theta phi true (water smallSketch);
       Some (if true
             then addFeedback [playWaterSound; vibratePhone]
                    (setWater st smallSketch)
             else setWater st smallSketch)).
Proof.
  assert (Hr : (0 < sphereRadius smallSketch)%Q) by reflexivity.
  assert (Hw : (0 < width smallSketch)%Q) by reflexivity.
  assert (Hh : (0 < height smallSketch)%Q) by reflexivity.
  assert (Hx : (0 <= 400 <= width smallSketch)%Q)
    by (split; vm_compute; discriminate).
  assert (Hy : (0 <= 0 <= height smallSketch)%Q)
    by (split; vm_compute; discriminate).
  split.
  - split; [exact sqrtFloor_below |]. split; [exact Hr |]. split; [exact Hw |].
    split; [exact Hh |]. split; [exact Hx | exact Hy].
  - apply (canvas_touch_always_lands sqrtFloor acosChord atan2Axis smallConfig
             400 0 true smallSketch sqrtFloor_below Hr Hw Hh Hx Hy).
Defined.

Lemma feedback_only_from_presses_witness :
  ∃ w',
    session sinSeries cosSeries sqrtFloor acosChord atan2Axis hypotFloor
      smallConfig
      [TouchStarted [(200, 150)%Q]; TouchStarted [(200, 150)%Q];
       TouchMoved [(230, 160)%Q]; TouchEnded] smallSketch = Some w' ∧
    ∃ n : nat,
      (n ≤ length (filter (λ e, isPress e = true)
                     [TouchStarted [(200, 150)%Q]; TouchStarted [(200, 150)%Q];
                      TouchMoved [(230, 160)%Q]; TouchEnded]))%nat ∧
      feedback w'
      = feedback smallSketch ++ mjoin (replicate n [playWaterSound; vibratePhone]).
Proof.
  destruct (session sinSeries cosSeries sqrtFloor acosChord atan2Axis hypotFloor
              smallConfig
              [TouchStarted [(200, 150)%Q]; TouchStarted [(200, 150)%Q];
               TouchMoved [(230, 160)%Q]; TouchEnded] smallSketch)
    as [w' |] eqn:Hrun.
  - exists w'. split; [reflexivity |].
    apply (feedback_only_from_presses sinSeries cosSeries sqrtFloor acosChord
             atan2Axis hypotFloor smallConfig _ smallSketch w' Hrun).
  - vm_compute in Hrun. discriminate Hrun.
Defined.
